(** * Melody visualizer: note-synthesis engine and spectrum-to-visual pipeline

  A shallow embedding of [Visualizer.tsx] (both revisions kept in the
  repository), of the [AudioEngine] component (both revisions) and of the
  page that joins them ([Index] with the mode selector [Controls]), with
  the properties the specification states about them and further
  properties of the code.

  Conventions.
  - A JavaScript number that the code computes is a rational ([Q]); the one
    place where the code can produce [NaN] (an average over an empty
    array, [0 / 0]) is modelled explicitly by the type [number].
  - A [Uint8Array] is a [list Z] whose elements satisfy [uint8].
  - [Map<string, _>] is a [gmap string _], [Set<string>] a [gset string].
  - Calls into the Web Audio API and the deferred callbacks of
    [setTimeout] are recorded in an explicit log and an explicit timer
    queue, driven by a logical clock in milliseconds. *)

From Stdlib Require Import QArith Qminmax Qround Lqa.
From stdpp Require Import gmap strings list fin_maps.

(** ** JavaScript numbers *)

Module JS.

(** A number is a rational or [NaN]. *)
Inductive number : Type :=
| Num (q : Q)
| NaN.

Definition Qltb (a b : Q) : bool := negb (Qle_bool b a).

(** [a + b], [a * b]: [NaN] is absorbing. *)
Definition add (a b : number) : number :=
  match a, b with
  | Num x, Num y => Num (x + y)
  | _, _ => NaN
  end.

Definition mul (a b : number) : number :=
  match a, b with
  | Num x, Num y => Num (x * y)
  | _, _ => NaN
  end.

(** [a > b] and [a < b]: every comparison with [NaN] is false. *)
Definition gt (a b : number) : bool :=
  match a, b with
  | Num x, Num y => Qltb y x
  | _, _ => false
  end.

Definition lt (a b : number) : bool := gt b a.

(** [Math.min(a, b)]: [NaN] if either argument is. *)
Definition min (a b : number) : number :=
  match a, b with
  | Num x, Num y => Num (Qmin x y)
  | _, _ => NaN
  end.

(** The elements a [Uint8Array] can hold. *)
Definition uint8 (v : Z) : Prop := (0 <= v <= 255)%Z.

(** Storing the number [q] into a [Uint8Array] slot (ToUint8): truncate
    towards zero, then reduce modulo 256. *)
Definition toUint8 (q : Q) : Z :=
  (let t := if Qle_bool 0 q then Qfloor q else Qceiling q in t mod 256)%Z.

(** [a / d] for a constant [d] other than zero. *)
Definition divc (a : number) (d : Q) : number :=
  match a with
  | Num x => Num (x / d)
  | NaN => NaN
  end.

(** [a % n] for [a >= 0] and an integer [n > 0]. *)
Definition Qrem (a : Q) (n : Z) : Q :=
  a - inject_Z n * inject_Z (Qfloor (a / inject_Z n)).

(** The property names an object literal inherits from [Object.prototype]:
    a read [obj[name]] of such a name finds a function (or, for
    [__proto__], the prototype object) even though the literal does not
    list it. *)
Definition objectPrototypeKeys : list string :=
  ["constructor"; "hasOwnProperty"; "isPrototypeOf"; "propertyIsEnumerable";
   "toLocaleString"; "toString"; "valueOf"; "__proto__";
   "__defineGetter__"; "__defineSetter__"; "__lookupGetter__";
   "__lookupSetter__"]%string.

Definition inherited (name : string) : bool :=
  existsb (String.eqb name) objectPrototypeKeys.

(** [Math.random()] returns a number of [0, 1). *)
Definition unitRandom (rnd : nat -> Q) : Prop :=
  forall n, (0 <= rnd n /\ rnd n < 1)%Q.

End JS.

(** ** The spectrum-to-visual pipeline ([Visualizer.tsx]) *)

Module Visualizer.
Import JS.
Local Open Scope Q_scope.

(** The repository keeps two revisions of the component.  [Base] is the
    listing with gain 1.5; [Tuned] is the listing whose comments read
    "Further amplified for better visibility" (gain 2.5). *)
Inductive revision : Type := Base | Tuned.

Definition gain (rev : revision) : Q :=
  match rev with Base => 3 # 2 | Tuned => 5 # 2 end.

Definition reactivity (rev : revision) : Q :=
  match rev with Base => 3 | Tuned => 5 end.

Definition sizeReactivity (rev : revision) : Q :=
  match rev with Base => 2 | Tuned => 3 end.

(** [dimensions] state: [{ width, height }]. *)
Record dimensions : Type := { width : Q; height : Q }.

(** *** Palette lookup: [getColor] *)

Definition barsScheme : list string :=
  ["#9b87f5"; "#7E69AB"; "#6E59A5"; "#D6BCFA"; "#D946EF"; "#F97316"; "#0EA5E9"]%string.
Definition circularScheme : list string :=
  ["#D946EF"; "#9b87f5"; "#0EA5E9"; "#F97316"; "#7E69AB"; "#D6BCFA"; "#6E59A5"]%string.
Definition waveScheme : list string :=
  ["#0EA5E9"; "#9b87f5"; "#D946EF"; "#7E69AB"; "#F97316"; "#D6BCFA"; "#6E59A5"]%string.
Definition particlesScheme : list string :=
  ["#D6BCFA"; "#9b87f5"; "#D946EF"; "#0EA5E9"; "#F97316"; "#7E69AB"; "#6E59A5"]%string.

(** What a property read of [colorSchemes] evaluates to: the object
    literal has four own properties and inherits the rest. *)
Inductive schemeValue : Type :=
| Palette (colors : list string)   (* one of the four arrays *)
| Builtin                          (* a function or object of Object.prototype *)
| Undefined.

Definition colorSchemes (name : string) : schemeValue :=
  if (name =? "bars")%string then Palette barsScheme
  else if (name =? "circular")%string then Palette circularScheme
  else if (name =? "wave")%string then Palette waveScheme
  else if (name =? "particles")%string then Palette particlesScheme
  else if inherited name then Builtin
  else Undefined.

(** [colorSchemes[activeVisualizer] || colorSchemes.bars]: only
    [undefined] is falsy among the values the lookup can give. *)
Definition schemeOrBars (activeVisualizer : string) : schemeValue :=
  match colorSchemes activeVisualizer with
  | Undefined => Palette barsScheme
  | v => v
  end.

(** [getColor(index, total)]; [None] is [undefined].  The callers pass
    [index < total].  A builtin has no indexed elements, so reading
    [colors[...]] from it gives [undefined] whatever its [length] is. *)
Definition getColor (activeVisualizer : string) (index total : nat) : option string :=
  match schemeOrBars activeVisualizer with
  | Palette colors =>
      let len := Z.of_nat (length colors) in
      let colorPosition :=
        Qfloor ((inject_Z (Z.of_nat index) / inject_Z (Z.of_nat total)) * inject_Z len) in
      let k := Z.rem colorPosition len in
      if (0 <=? k)%Z then colors !! Z.to_nat k else None
  | _ => None
  end.

(** *** Render dispatch: the [switch] of [draw] *)

Inductive algorithm : Type := DrawBars | DrawCircular | DrawWave | DrawParticles.

Definition draw (activeVisualizer : string) : algorithm :=
  if (activeVisualizer =? "bars")%string then DrawBars
  else if (activeVisualizer =? "circular")%string then DrawCircular
  else if (activeVisualizer =? "wave")%string then DrawWave
  else if (activeVisualizer =? "particles")%string then DrawParticles
  else DrawBars.

(** *** Bars *)

(** [Math.min(255, data[i] * gain)]. *)
Definition amplifiedValue (rev : revision) (v : Z) : Q :=
  Qmin 255 (inject_Z v * gain rev).

Definition barHeight (rev : revision) (dims : dimensions) (v : Z) : Q :=
  (amplifiedValue rev v / 255) * height dims * (8 # 10).

(** One rounded rectangle handed to the canvas, with the colour of the
    first gradient stop. *)
Record bar : Type :=
  { bar_x : Q; bar_y : Q; bar_width : Q; bar_height : Q;
    bar_radius : Q; bar_color : string }.

(** The body of the loop of [drawBars] for bin [i] of [n], value [v].
    [gradient.addColorStop(0, undefined)] raises a [SyntaxError]: [None]. *)
Definition drawBar (rev : revision) (activeVisualizer : string)
    (dims : dimensions) (n i : nat) (v : Z) : option bar :=
  let barWidth := width dims / inject_Z (Z.of_nat n) in
  let h := barHeight rev dims v in
  let x := inject_Z (Z.of_nat i) * barWidth + width dims / 2
           - (inject_Z (Z.of_nat n) * barWidth) / 2 in
  let y := height dims - h in
  match getColor activeVisualizer i n with
  | Some c =>
      let radius := if Qltb 10 (barWidth * (1 # 2)) then 10 else barWidth * (1 # 2) in
      Some {| bar_x := x; bar_y := y; bar_width := barWidth - 1;
              bar_height := h; bar_radius := radius; bar_color := c |}
  | None => None
  end.

(** What a call of [drawBars] leaves behind: the bars painted, and whether
    the loop ran to its end or was cut short by the exception. *)
Inductive painting : Type :=
| Completed (bars : list bar)
| Aborted (bars : list bar).

Fixpoint drawBarsFrom (rev : revision) (activeVisualizer : string)
    (dims : dimensions) (n i : nat) (data : list Z) (done : list bar) : painting :=
  match data with
  | [] => Completed done
  | v :: rest =>
      match drawBar rev activeVisualizer dims n i v with
      | Some b => drawBarsFrom rev activeVisualizer dims n (S i) rest (done ++ [b])
      | None => Aborted done
      end
  end.

Definition drawBars (rev : revision) (activeVisualizer : string)
    (dims : dimensions) (data : list Z) : painting :=
  drawBarsFrom rev activeVisualizer dims (length data) 0 data [].

(** *** Particles *)

(** A particle as [Array.from] builds it.  The colour is
    [hsl(hue, 100%, 70%)]; only the hue varies. *)
Record particle : Type :=
  { x : number; y : number; size : Q; speedX : Q; speedY : Q; hue : Q }.

Definition particleCount : nat := 100.

(** The [i]-th particle of a regeneration.  [rnd] is the sequence of
    values [Math.random()] returns; the object literal draws six of them,
    in the order of its fields. *)
Definition newParticle (rnd : nat -> Q) (dims : dimensions) (i : nat) : particle :=
  {| x := Num (rnd (6 * i)%nat * width dims);
     y := Num (rnd (6 * i + 1)%nat * height dims);
     size := rnd (6 * i + 2)%nat * 5 + 2;
     speedX := rnd (6 * i + 3)%nat * 2 - 1;
     speedY := rnd (6 * i + 4)%nat * 2 - 1;
     hue := rnd (6 * i + 5)%nat * 60 + 250 |}.

(** [Array.from({ length: 100 }, () => ...)]. *)
Definition regenerate (rnd : nat -> Q) (dims : dimensions) : list particle :=
  map (newParticle rnd dims) (seq 0 particleCount).

(** The effect that depends on [activeVisualizer] and [dimensions]: it
    replaces [particlesRef.current] only in mode "particles". *)
Definition setUpParticles (activeVisualizer : string) (rnd : nat -> Q)
    (dims : dimensions) (current : list particle) : list particle :=
  if (activeVisualizer =? "particles")%string then regenerate rnd dims else current.

(** [data.reduce((sum, value) => sum + value, 0) / data.length]; on an
    empty array this is [0 / 0]. *)
Definition averageFrequency (data : list Z) : number :=
  match data with
  | [] => NaN
  | _ => Num (inject_Z (fold_left Z.add data 0%Z) / inject_Z (Z.of_nat (length data)))
  end.

(** [Base]: [averageFrequency / 255].
    [Tuned]: [Math.min(1, averageFrequency / 255 * 3)]. *)
Definition intensity (rev : revision) (data : list Z) : number :=
  match rev with
  | Base => divc (averageFrequency data) 255
  | Tuned => min (Num 1) (mul (divc (averageFrequency data) 255) (Num 3))
  end.

(** The two wrap-around tests on one coordinate, in the order of the
    source: [if (c > bound) c = 0; if (c < 0) c = bound]. *)
Definition wrap (bound : Q) (c : number) : number :=
  let c1 := if gt c (Num bound) then Num 0 else c in
  if lt c1 (Num 0) then Num bound else c1.

(** [c += speed * (1 + intensity * reactivity)]. *)
Definition displace (rev : revision) (i : number) (speed : Q) (c : number) : number :=
  add c (mul (Num speed) (add (Num 1) (mul i (Num (reactivity rev))))).

(** The update of one particle in the loop of [drawParticles]. *)
Definition stepParticle (rev : revision) (dims : dimensions) (i : number)
    (p : particle) : particle :=
  {| x := wrap (width dims) (displace rev i (speedX p) (x p));
     y := wrap (height dims) (displace rev i (speedY p) (y p));
     size := size p; speedX := speedX p; speedY := speedY p; hue := hue p |}.

(** The particle-field step for a given intensity: the loop mutates every
    element of [particlesRef.current] in place, each from its own fields
    only. *)
Definition stepField (rev : revision) (dims : dimensions) (i : number)
    (ps : list particle) : list particle :=
  map (stepParticle rev dims i) ps.

(** The radius a particle is drawn with; the stored [size] is not changed. *)
Definition drawnSize (rev : revision) (i : number) (p : particle) : number :=
  mul (Num (size p)) (add (Num 1) (mul i (Num (sizeReactivity rev)))).

(** [drawParticles(ctx, data)], as a function on the particle field. *)
Definition drawParticles (rev : revision) (dims : dimensions) (data : list Z)
    (ps : list particle) : list particle :=
  stepField rev dims (intensity rev data) ps.

(** One [drawParticles] per frame, for the snapshots of successive frames. *)
Definition animate (rev : revision) (dims : dimensions) (frames : list (list Z))
    (ps : list particle) : list particle :=
  fold_left (fun field data => drawParticles rev dims data field) frames ps.

(** *** Predicates of the specification *)

(** The four modes the selector offers. *)
Definition validMode (mode : string) : bool :=
  (mode =? "bars")%string || (mode =? "circular")%string ||
  (mode =? "wave")%string || (mode =? "particles")%string.

(** A normalised scalar: a number, and one of [0, 1]. *)
Definition unitInterval (i : number) : Prop :=
  match i with
  | Num q => 0 <= q <= 1
  | NaN => False
  end.

(** The rectangle the specification names, open at the far edges. *)
Definition withinViewport (dims : dimensions) (p : particle) : Prop :=
  match x p, y p with
  | Num a, Num b => (0 <= a /\ a < width dims) /\ (0 <= b /\ b < height dims)
  | _, _ => False
  end.




(** A desktop viewport. *)
Definition viewport800x600 : dimensions := {| width := 800; height := 600 |}.

(** *** What a particle keeps *)

(** What a particle keeps for its whole life. *)
Definition stored (p : particle) : Q * Q * Q * Q := (size p, speedX p, speedY p, hue p).

(** *** What a call of [drawBars] leaves on the canvas *)

(** The bars a call of [drawBars] has painted. *)
Definition paintedBars (p : painting) : list bar :=
  match p with
  | Completed bars => bars
  | Aborted bars => bars
  end.

(** *** Circular *)

(** [Math.min(width, height) * 0.4]. *)
Definition maxRadius (dims : dimensions) : Q :=
  Qmin (width dims) (height dims) * (4 # 10).

(** The length of the ray of a bin: [(amplifiedValue / 255) * maxRadius]. *)
Definition amplitude (rev : revision) (dims : dimensions) (v : Z) : Q :=
  (amplifiedValue rev v / 255) * maxRadius dims.

(** The end of the ray, [centerX + Math.cos(angle) * amplitude] and the
    same with [Math.sin] for [y]; [c] and [s] are the values the cosine and
    the sine of the bin's angle take. *)
Definition rayEnd (rev : revision) (dims : dimensions) (v : Z) (c s : Q) : Q * Q :=
  (width dims / 2 + c * amplitude rev dims v,
   height dims / 2 + s * amplitude rev dims v).

(** The radius of the dot at the end of the ray:
    [Math.max(2, (amplifiedValue / 255) * 8)]. *)
Definition circleSize (rev : revision) (v : Z) : Q :=
  Qmax 2 ((amplifiedValue rev v / 255) * 8).

(** *** Wave *)

Inductive pathOp : Type :=
| MoveTo (px py : Q)
| LineTo (px py : Q).

Definition target (op : pathOp) : Q * Q :=
  match op with
  | MoveTo px py => (px, py)
  | LineTo px py => (px, py)
  end.

(** The point of bin [i] of [n]; [s] is the value of
    [Math.sin(i * 0.1 + colorIndex.current)]. *)
Definition wavePoint (rev : revision) (dims : dimensions) (n i : nat) (v : Z) (s : Q)
    : Q * Q :=
  ((inject_Z (Z.of_nat i) / inject_Z (Z.of_nat n)) * width dims,
   height dims / 2 + ((amplifiedValue rev v / 255) * height dims * (4 # 10)) * s).

(** The path [drawWave] builds before it fills and strokes it; [sine i] is
    the value the sine takes at bin [i]. *)
Definition drawWave (rev : revision) (dims : dimensions) (sine : nat -> Q)
    (data : list Z) : list pathOp :=
  MoveTo 0 (height dims / 2)
  :: imap (fun i v =>
             let p := wavePoint rev dims (length data) i v (sine i) in
             if Nat.eqb i 0 then MoveTo p.1 p.2 else LineTo p.1 p.2) data
  ++ [LineTo (width dims) (height dims / 2)].

(** *** How the particles are painted *)

(** [ctx.globalAlpha = 0.7 + intensity * 0.3]. *)
Definition particleAlpha (i : number) : number :=
  add (Num (7 # 10)) (mul i (Num (3 # 10))).

(** [100 * (1 + intensity)], the distance below which two particles are
    joined by a line. *)
Definition reach (i : number) : number := mul (Num 100) (add (Num 1) i).

(** [distance < 100 * (1 + intensity)]; [distance] is the value of
    [Math.sqrt(dx * dx + dy * dy)]. *)
Definition connects (i : number) (distance : Q) : bool :=
  lt (Num distance) (reach i).

(** [(1 - distance / (100 * (1 + intensity))) * 0.5], computed only when the
    test above holds, so for a positive divisor. *)
Definition connectorAlpha (i : number) (distance : Q) : number :=
  match reach i with
  | Num r => Num ((1 - distance / r) * (5 # 10))
  | NaN => NaN
  end.

(** *** The starter visualization of the [Tuned] revision *)

(** [defaultData]: 128 bytes, slot [i] set to [Math.random() * 50]. *)
Definition defaultData (rnd : nat -> Q) : list Z :=
  map (fun i => toUint8 (rnd i * 50)) (seq 0 128).

(** The effect that paints once, before any snapshot has arrived:
    [drawBars(ctx, defaultData)]. *)
Definition starterBars (activeVisualizer : string) (dims : dimensions)
    (rnd : nat -> Q) : painting :=
  drawBars Tuned activeVisualizer dims (defaultData rnd).

End Visualizer.

(** ** The note-synthesis engine ([AudioEngine]) *)

Module AudioEngine.
Import JS.

(** The repository keeps two revisions of the component.  [Boosted] creates
    the audio context on mount, seeds and amplifies the analysis buffer,
    ramps to gain 0.8 and boosts the buffer on every key press.  [Plain]
    creates the context on the first interaction and ramps to gain 0.3. *)
Inductive revision : Type := Boosted | Plain.

Definition peak (rev : revision) : Q :=
  match rev with Boosted => 8 # 10 | Plain => 3 # 10 end.

(** [analyser.fftSize = 256], so [frequencyBinCount] is 128. *)
Definition fftSize : nat := 256.
Definition frequencyBinCount : nat := fftSize / 2.

(** Attack and release time: [currentTime + 0.1] on the audio clock and
    [setTimeout(_, 100)] on the timer clock, taken as one logical clock that
    counts milliseconds. *)
Definition rampMs : nat := 100.

(** *** The note table *)

Definition noteTable : list (string * Q) :=
  [("a", 26163 # 100); ("s", 29366 # 100); ("d", 32963 # 100);
   ("f", 34923 # 100); ("g", 392%Q); ("h", 440%Q); ("j", 49388 # 100);
   ("k", 52325 # 100); ("l", 58733 # 100)]%string.

Fixpoint assoc (key : string) (table : list (string * Q)) : option Q :=
  match table with
  | [] => None
  | (k, v) :: rest => if (key =? k)%string then Some v else assoc key rest
  end.

(** What the property read [NOTES[key]] evaluates to. *)
Inductive noteValue : Type :=
| Frequency (hz : Q)
| Builtin
| Undefined.

Definition NOTES (key : string) : noteValue :=
  match assoc key noteTable with
  | Some hz => Frequency hz
  | None => if inherited key then Builtin else Undefined
  end.

(** [!NOTES[key]]: [undefined] and [0] are falsy, functions and objects are
    truthy. *)
Definition notNote (key : string) : bool :=
  match NOTES key with
  | Frequency hz => Qeq_bool hz 0
  | Builtin => false
  | Undefined => true
  end.

(** The keys the table lists. *)
Definition recognized (key : string) : bool :=
  match assoc key noteTable with Some _ => true | None => false end.

(** *** Engine state *)

(** The calls the component makes on the Web Audio graph and on its
    environment, in program order.  Nodes are named by the order of their
    creation. *)
Inductive call : Type :=
| Resume
| CreateOscillator (o : nat)
| CreateGain (g : nat)
| SetTypeSine (o : nat)
| FrequencySetValueAtTime (o : nat) (hz : Q) (t : nat)
| ConnectOscillator (o g : nat)
| ConnectToAnalyser (g : nat)
| Start (o : nat)
| GainSetValueAtTime (g : nat) (v : Q) (t : nat)
| GainLinearRampToValueAtTime (g : nat) (v : Q) (t : nat)
| Stop (o : nat)
| OnAudioProcess (data : list Z)
| UncaughtTypeError.

(** The refs and the state of the component, with the clock and the
    timer queue of its environment.  Each listener runs against the values
    the previous one left: React commits a state update and rebinds the
    key listeners (the effect depends on [activeKeys]) before the next
    event is dispatched. *)
Record engine : Type :=
  { audioContext : bool;              (* audioContextRef.current is set *)
    suspended : bool;                 (* the context's state is 'suspended' *)
    analyser : bool;                  (* analyserRef.current is set *)
    oscillators : gmap string nat;    (* oscillatorsRef.current *)
    gains : gmap string nat;          (* gainsRef.current *)
    activeKeys : gset string;         (* the activeKeys state *)
    dataArray : option (list Z);      (* dataArrayRef.current *)
    nextNode : nat;                   (* nodes created so far *)
    now : nat;                        (* clock, in ms *)
    timers : list (nat * string);     (* pending setTimeout callbacks: due time, key *)
    calls : list call }.

Definition emit (cs : list call) (e : engine) : engine :=
  {| audioContext := audioContext e; suspended := suspended e;
     analyser := analyser e; oscillators := oscillators e; gains := gains e;
     activeKeys := activeKeys e; dataArray := dataArray e;
     nextNode := nextNode e; now := now e; timers := timers e;
     calls := calls e ++ cs |}.

Definition setDataArray (d : option (list Z)) (e : engine) : engine :=
  {| audioContext := audioContext e; suspended := suspended e;
     analyser := analyser e; oscillators := oscillators e; gains := gains e;
     activeKeys := activeKeys e; dataArray := d;
     nextNode := nextNode e; now := now e; timers := timers e;
     calls := calls e |}.

Definition audioReady (e : engine) : bool := audioContext e && analyser e.

(** *** Mounting and [initAudio] *)

(** The seed of the [Boosted] revision: [dataArray[i] = Math.random() * 50].
    [scaled i] is the number the expression [Math.random() * 50] evaluates
    to for slot [i]: the double nearest to fifty times the draw - a
    number of [0, 50), the draw being below 1 - which the store then
    truncates to its integer part. *)
Definition seedBuffer (scaled : nat -> Q) : list Z :=
  map (fun i => toUint8 (scaled i)) (seq 0 frequencyBinCount).

(** [initAudio()]: [new Uint8Array(bufferLength)] is zero-filled; the
    [Boosted] revision then seeds it and reports it.  [rnd i] is the value
    of [Math.random() * 50] for slot [i]. *)
Definition initAudio (rev : revision) (rnd : nat -> Q) (e : engine) : engine :=
  let e1 :=
    {| audioContext := true; suspended := suspended e; analyser := true;
       oscillators := oscillators e; gains := gains e;
       activeKeys := activeKeys e;
       dataArray := Some (replicate frequencyBinCount 0%Z);
       nextNode := nextNode e; now := now e; timers := timers e;
       calls := calls e |} in
  match rev with
  | Boosted =>
      emit [OnAudioProcess (seedBuffer rnd)] (setDataArray (Some (seedBuffer rnd)) e1)
  | Plain => e1
  end.

Definition unmounted (susp : bool) : engine :=
  {| audioContext := false; suspended := susp; analyser := false;
     oscillators := ∅; gains := ∅; activeKeys := ∅; dataArray := None;
     nextNode := 0; now := 0; timers := []; calls := [] |}.

(** The component after its effects have run once.  [susp] tells whether
    the browser hands out suspended contexts, [rnd] what the seeding loop
    of [initAudio] computes. *)
Definition mount (rev : revision) (susp : bool) (rnd : nat -> Q) : engine :=
  match rev with
  | Boosted => initAudio Boosted rnd (unmounted susp)
  | Plain => unmounted susp
  end.

(** [handleFirstInteraction], the listener registered first for both
    'click' and 'keydown'. *)
Definition handleFirstInteraction (rev : revision) (e : engine) : engine :=
  match rev with
  | Boosted =>
      if audioContext e && suspended e then emit [Resume] e else e
  | Plain =>
      if audioContext e then e else initAudio Plain (fun _ => 0%Q) e
  end.

(** *** Note on *)

(** The "boost" loop of the [Boosted] revision on a buffer [buf]. *)
Definition boostIndex (hz : Q) (len : nat) : Z :=
  Qfloor (Qrem hz (Z.of_nat len)).

Definition boostSlot (hz : Q) (len i : nat) : nat :=
  Z.to_nat (Z.rem (boostIndex hz len + Z.of_nat i) (Z.of_nat len)).

Definition boost (hz : Q) (buf : list Z) : list Z :=
  match buf with
  | [] => buf
  | _ => foldl (fun b i => <[boostSlot hz (length buf) i := 230%Z]> b) buf (seq 0 10)
  end.

Definition boostData (hz : Q) (e : engine) : engine :=
  match dataArray e with
  | Some buf =>
      emit [OnAudioProcess (boost hz buf)] (setDataArray (Some (boost hz buf)) e)
  | None => e
  end.

(** The calls that build and start one voice for frequency [hz] at time [t]. *)
Definition voiceCalls (rev : revision) (o g : nat) (hz : Q) (t : nat) : list call :=
  [CreateOscillator o; CreateGain g; SetTypeSine o;
   FrequencySetValueAtTime o hz t; ConnectOscillator o g; ConnectToAnalyser g;
   Start o; GainSetValueAtTime g 0 t;
   GainLinearRampToValueAtTime g (peak rev) (t + rampMs)].

Definition register (key : string) (o g : nat) (e : engine) : engine :=
  {| audioContext := audioContext e; suspended := suspended e;
     analyser := analyser e;
     oscillators := <[key := o]> (oscillators e);
     gains := <[key := g]> (gains e);
     activeKeys := activeKeys e ∪ {[key]};
     dataArray := dataArray e;
     nextNode := nextNode e; now := now e; timers := timers e;
     calls := calls e |}.

Definition allocate (n : nat) (e : engine) : engine :=
  {| audioContext := audioContext e; suspended := suspended e;
     analyser := analyser e; oscillators := oscillators e; gains := gains e;
     activeKeys := activeKeys e; dataArray := dataArray e;
     nextNode := nextNode e + n; now := now e; timers := timers e;
     calls := calls e |}.

(** [handleKeyDown(e)] with [key = e.key.toLowerCase()].  When [NOTES[key]]
    is truthy without being a number - an inherited builtin -
    [frequency.setValueAtTime] raises a [TypeError] after the two nodes
    were created, and the listener ends there. *)
Definition handleKeyDown (rev : revision) (key : string) (e : engine) : engine :=
  if bool_decide (key ∈ activeKeys e) || notNote key then e
  else if audioReady e then
    let e1 := if suspended e then emit [Resume] e else e in
    let o := nextNode e1 in
    let g := S o in
    match NOTES key with
    | Frequency hz =>
        let e2 := register key o g
                    (emit (voiceCalls rev o g hz (now e1)) (allocate 2 e1)) in
        match rev with
        | Boosted => boostData hz e2
        | Plain => e2
        end
    | _ =>
        emit [CreateOscillator o; CreateGain g; SetTypeSine o; UncaughtTypeError]
          (allocate 2 e1)
    end
  else e.

(** *** Note off *)

Definition schedule (due : nat) (key : string) (e : engine) : engine :=
  {| audioContext := audioContext e; suspended := suspended e;
     analyser := analyser e; oscillators := oscillators e; gains := gains e;
     activeKeys := activeKeys e; dataArray := dataArray e;
     nextNode := nextNode e; now := now e;
     timers := timers e ++ [(due, key)];
     calls := calls e |}.

(** [handleKeyUp(e)] with [key = e.key.toLowerCase()]. *)
Definition handleKeyUp (key : string) (e : engine) : engine :=
  if notNote key then e
  else if audioContext e && bool_decide (is_Some (oscillators e !! key)) then
    match gains e !! key with
    | Some g =>
        schedule (now e + rampMs) key
          (emit [GainLinearRampToValueAtTime g 0 (now e + rampMs)] e)
    | None => e
    end
  else e.

(** The callback given to [setTimeout]. *)
Definition release (key : string) (e : engine) : engine :=
  let e1 := match oscillators e !! key with
            | Some o => emit [Stop o] e
            | None => e
            end in
  {| audioContext := audioContext e1; suspended := suspended e1;
     analyser := analyser e1;
     oscillators := delete key (oscillators e1);
     gains := delete key (gains e1);
     activeKeys := activeKeys e1 ∖ {[key]};
     dataArray := dataArray e1;
     nextNode := nextNode e1; now := now e1; timers := timers e1;
     calls := calls e1 |}.

(** *** The analyser loop *)

(** [updateAnalyser] for one animation frame; [spectrum] is what
    [getByteFrequencyData] writes into the buffer. *)
Definition amplify (v : Z) : Z := toUint8 (Qmin 255 (inject_Z v * (3 # 2))).

Definition updateAnalyser (rev : revision) (spectrum : nat -> Z) (e : engine) : engine :=
  match analyser e, dataArray e with
  | true, Some buf =>
      let raw := map (fun i => toUint8 (inject_Z (spectrum i))) (seq 0 (length buf)) in
      let data := match rev with Boosted => map amplify raw | Plain => raw end in
      emit [OnAudioProcess data] (setDataArray (Some data) e)
  | _, _ => e
  end.

(** *** The event loop *)

Definition setClock (t : nat) (pending : list (nat * string)) (e : engine) : engine :=
  {| audioContext := audioContext e; suspended := suspended e;
     analyser := analyser e; oscillators := oscillators e; gains := gains e;
     activeKeys := activeKeys e; dataArray := dataArray e;
     nextNode := nextNode e; now := t; timers := pending;
     calls := calls e |}.

Definition setSuspended (b : bool) (e : engine) : engine :=
  {| audioContext := audioContext e; suspended := b;
     analyser := analyser e; oscillators := oscillators e; gains := gains e;
     activeKeys := activeKeys e; dataArray := dataArray e;
     nextNode := nextNode e; now := now e; timers := timers e;
     calls := calls e |}.

(** Let [ms] milliseconds pass: the callbacks that have come due run in the
    order they were scheduled. *)
Definition elapse (ms : nat) (e : engine) : engine :=
  let t := now e + ms in
  let due := filter (fun p => p.1 <= t) (timers e) in
  let pending := filter (fun p => ¬ p.1 <= t) (timers e) in
  foldl (fun e' p => release p.2 e') (setClock t pending e) due.

(** What can happen to the mounted component.  [Frame] is one run of the
    [requestAnimationFrame] callback with the analyser's current spectrum;
    [ContextState] is the browser suspending or resuming the context. *)
Inductive event : Type :=
| KeyDown (key : string)
| KeyUp (key : string)
| Click
| Elapse (ms : nat)
| Frame (spectrum : nat -> Z)
| ContextState (susp : bool).

(** A 'keydown' event: its two listeners run in the order they were
    registered, [handleFirstInteraction] first. *)
Definition keydown (rev : revision) (key : string) (e : engine) : engine :=
  handleKeyDown rev key (handleFirstInteraction rev e).

(** A 'keyup' event has the one listener. *)
Definition keyup (key : string) (e : engine) : engine := handleKeyUp key e.

Definition step (rev : revision) (e : engine) (ev : event) : engine :=
  match ev with
  | KeyDown key => keydown rev key e
  | KeyUp key => keyup key e
  | Click => handleFirstInteraction rev e
  | Elapse ms => elapse ms e
  | Frame spectrum => updateAnalyser rev spectrum e
  | ContextState susp => setSuspended susp e
  end.

Definition run (rev : revision) (evs : list event) (e : engine) : engine :=
  foldl (step rev) e evs.

(** The oscillators that have been started and not stopped. *)
Definition sounding (cs : list call) : gset nat :=
  foldl (fun s c =>
           match c with
           | Start o => s ∪ {[o]}
           | Stop o => s ∖ {[o]}
           | _ => s
           end) ∅ cs.

(** The ten slots the loop writes for frequency [hz] in a buffer of [len]
    slots. *)
Definition boostSlots (hz : Q) (len : nat) : list nat :=
  map (boostSlot hz len) (seq 0 10).

(** *** Coherence of the registry *)

(** What every state the component can reach satisfies: the two maps and
    the key set name the same keys, every registered oscillator is a node
    created earlier, no oscillator is registered twice, and the oscillators
    that sound are exactly the registered ones. *)
Record coherent (rev : revision) (e : engine) : Prop :=
  { coh_osc : dom (oscillators e) = activeKeys e;
    coh_gain : dom (gains e) = activeKeys e;
    coh_ctx : audioContext e = analyser e;
    coh_live : forall k, k ∈ activeKeys e -> audioContext e = true;
    coh_boosted : rev = Boosted -> audioContext e = true;
    coh_data : audioContext e = true ->
               exists buf, dataArray e = Some buf /\ length buf = frequencyBinCount;
    coh_fresh : forall k o, oscillators e !! k = Some o -> o < nextNode e;
    coh_inj : forall k1 k2 o,
        oscillators e !! k1 = Some o -> oscillators e !! k2 = Some o -> k1 = k2;
    coh_sound : forall o,
        o ∈ sounding (calls e) <-> exists k, oscillators e !! k = Some o }.

(** Calls that neither start nor stop an oscillator. *)
Definition quiet (c : call) : bool :=
  match c with
  | Start _ | Stop _ => false
  | _ => true
  end.

(** *** Release in progress *)

(** The release of oscillator [o], registered for [key], is under way: the
    oscillator is still the key's voice, or it has been stopped. *)
Definition releasing (rev : revision) (key : string) (o : nat) (e : engine) : Prop :=
  coherent rev e /\ o < nextNode e /\
  (forall k, oscillators e !! k = Some o -> k = key) /\
  (oscillators e !! key = Some o \/ In (Stop o) (calls e)).

(** The release is over: the oscillator has been stopped and the key has
    left the registry. *)
Definition released (key : string) (o : nat) (e : engine) : Prop :=
  In (Stop o) (calls e) /\
  oscillators e !! key = None /\ gains e !! key = None /\ key ∉ activeKeys e.

(** [e'] comes from [e] by steps that leave the oscillator map alone. *)
Definition extends (e e' : engine) : Prop :=
  oscillators e' = oscillators e /\ nextNode e <= nextNode e' /\
  exists cs, calls e' = calls e ++ cs.

(** *** The on-screen keyboard *)

(** [Object.entries(NOTES)]: one key control per entry, in table order. *)
Definition keyboardKeys : list string := map fst noteTable.

(** [className]: the control of [key] is drawn active. *)
Definition highlighted (key : string) (e : engine) : bool :=
  bool_decide (key ∈ activeKeys e).

(** The pointer handlers dispatch keyboard events on [window]. *)
Definition onMouseDown (rev : revision) (key : string) (e : engine) : engine :=
  keydown rev key e.

Definition onMouseUp (key : string) (e : engine) : engine := keyup key e.

Definition onMouseLeave (key : string) (e : engine) : engine :=
  if bool_decide (key ∈ activeKeys e) then keyup key e else e.

(** *** The snapshots and the voices *)

(** The test [if (audioContextRef.current)] of the effect that starts the
    [requestAnimationFrame] loop; it runs once, right after mounting. *)
Definition loopStarted (rev : revision) (susp : bool) (rnd : nat -> Q) : bool :=
  audioContext (mount rev susp rnd).

(** No animation frame of the analyser loop among the events. *)
Definition frameFree (evs : list event) : bool :=
  forallb (fun ev => match ev with Frame _ => false | _ => true end) evs.

(** No release of [key] among the events. *)
Definition keyHeld (key : string) (evs : list event) : bool :=
  forallb (fun ev => match ev with
                     | KeyUp k => negb (String.eqb k key)
                     | _ => true
                     end) evs.

(** A snapshot as the analyser's buffer holds it: 128 bytes. *)
Definition goodData (d : list Z) : Prop :=
  length d = frequencyBinCount /\ Forall uint8 d.

Definition goodCall (c : call) : Prop :=
  match c with
  | OnAudioProcess d => goodData d
  | _ => True
  end.

Definition publishes (c : call) : bool :=
  match c with
  | OnAudioProcess _ => true
  | _ => false
  end.

(** What every reachable state satisfies besides coherence: only listed
    keys are active; the voice of a key is an oscillator tuned to the key's
    frequency, started, and feeding the gain registered with it, which
    feeds the analyser and was ramped from 0 to the peak; the buffer and
    every snapshot handed out are 128 bytes. *)
Record healthy (rev : revision) (e : engine) : Prop :=
  { hl_listed : forall k, k ∈ activeKeys e -> recognized k = true;
    hl_voice : forall k o, oscillators e !! k = Some o ->
        gains e !! k = Some (S o) /\
        exists hz t,
          NOTES k = Frequency hz /\
          In (FrequencySetValueAtTime o hz t) (calls e) /\
          In (ConnectOscillator o (S o)) (calls e) /\
          In (ConnectToAnalyser (S o)) (calls e) /\
          In (Start o) (calls e) /\
          In (GainSetValueAtTime (S o) 0 t) (calls e) /\
          In (GainLinearRampToValueAtTime (S o) (peak rev) (t + rampMs)) (calls e);
    hl_data : forall buf, dataArray e = Some buf -> goodData buf;
    hl_calls : Forall goodCall (calls e) }.

(** The queue of clean-ups as the component keeps it: each is due later
    than now, at most the release time from now, and is for a key of the
    keyboard. *)
Definition punctual (e : engine) : Prop :=
  Forall (fun p => now e < p.1 /\ p.1 <= now e + rampMs /\ In p.2 keyboardKeys)
    (timers e).

End AudioEngine.

(** ** The page ([Index.tsx]) and the mode selector ([Controls.tsx]) *)

Module App.
Import JS.

(** [visualizers] of [Controls]: the id and the label of each button. *)
Definition visualizers : list (string * string) :=
  [("bars", "Bars"); ("circular", "Circular"); ("wave", "Wave");
   ("particles", "Particles")]%string.

(** The state of [Index]. *)
Record index : Type :=
  { analyserData : option (list Z);     (* null until the first snapshot *)
    activeVisualizer : string }.

Definition initial : index :=
  {| analyserData := None; activeVisualizer := "bars" |}.

(** [handleAudioProcess(data)]: the state gets a copy of the buffer. *)
Definition handleAudioProcess (data : list Z) (s : index) : index :=
  {| analyserData := Some data; activeVisualizer := activeVisualizer s |}.

Definition handleChangeVisualizer (visualizer : string) (s : index) : index :=
  {| analyserData := analyserData s; activeVisualizer := visualizer |}.

(** [onClick] of the button at position [i]:
    [onChangeVisualizer(visualizer.id)]. *)
Definition onClick (i : nat) (s : index) : index :=
  match visualizers !! i with
  | Some (id, _) => handleChangeVisualizer id s
  | None => s
  end.

(** The button at position [i] is drawn with the 'default' variant:
    [activeVisualizer === visualizer.id]. *)
Definition selected (i : nat) (s : index) : bool :=
  match visualizers !! i with
  | Some (id, _) => (activeVisualizer s =? id)%string
  | None => false
  end.

(** What happens to the page: a button of the selector is clicked, or the
    engine hands over a snapshot. *)
Inductive action : Type :=
| Choose (button : nat)
| Receive (data : list Z).

Definition act (s : index) (a : action) : index :=
  match a with
  | Choose i => onClick i s
  | Receive data => handleAudioProcess data s
  end.

Definition page (acts : list action) : index := foldl act initial acts.

(** The snapshots in the engine's calls, oldest first. *)
Definition snapshots (cs : list AudioEngine.call) : list (list Z) :=
  omap (fun c => match c with
                 | AudioEngine.OnAudioProcess d => Some d
                 | _ => None
                 end) cs.

(** The page after the engine's calls of [onAudioProcess]. *)
Definition received (cs : list AudioEngine.call) (s : index) : index :=
  foldl (fun s' d => handleAudioProcess d s') s (snapshots cs).

(** What [draw] of the Visualizer does with the page's state: it returns
    before painting while [analyserData] is null. *)
Definition rendered (s : index) : option Visualizer.algorithm :=
  match analyserData s with
  | Some _ => Some (Visualizer.draw (activeVisualizer s))
  | None => None
  end.

(** The snapshot handed out last is the engine's buffer as it is now. *)
Definition synced (e : AudioEngine.engine) : Prop :=
  last (snapshots (AudioEngine.calls e)) = AudioEngine.dataArray e.

End App.

(** * Properties *)

(** ** Facts about the number model *)

Module JSFacts.
Import JS.
Local Open Scope Q_scope.

Lemma Qltb_lt a b : Qltb a b = true <-> a < b.
Proof.
  unfold Qltb. rewrite negb_true_iff. split; intros H.
  - apply Qnot_le_lt. intros Hle. apply Qle_bool_iff in Hle. congruence.
  - destruct (Qle_bool b a) eqn:E; [|reflexivity].
    apply Qle_bool_iff in E. exfalso. exact (Qlt_not_le _ _ H E).
Qed.

Lemma Qltb_ge a b : Qltb a b = false <-> b <= a.
Proof.
  unfold Qltb. rewrite negb_false_iff. apply Qle_bool_iff.
Qed.

Lemma toUint8_uint8 q : uint8 (toUint8 q).
Proof.
  unfold uint8, toUint8.
  pose proof (Z.mod_pos_bound (if Qle_bool 0 q then Qfloor q else Qceiling q) 256).
  lia.
Qed.

(** A number between 0 and 255 is stored as its integer part. *)
Lemma toUint8_floor q : 0 <= q -> q <= 255 -> toUint8 q = Qfloor q.
Proof.
  intros H0 H255. unfold toUint8.
  assert (Hb : Qle_bool 0 q = true) by (apply Qle_bool_iff; exact H0).
  rewrite Hb. apply Z.mod_small.
  pose proof (Qfloor_resp_le _ _ H0) as Hlo.
  pose proof (Qfloor_resp_le _ _ H255) as Hhi.
  change 0 with (inject_Z 0) in Hlo. change 255 with (inject_Z 255) in Hhi.
  rewrite Qfloor_Z in Hlo, Hhi. lia.
Qed.

Lemma inject_uint8 v : uint8 v -> 0 <= inject_Z v <= 255.
Proof.
  intros [Hlo Hhi]. split.
  - change 0 with (inject_Z 0). rewrite <- Zle_Qle. exact Hlo.
  - change 255 with (inject_Z 255). rewrite <- Zle_Qle. exact Hhi.
Qed.

End JSFacts.

(** ** The spectrum-to-visual pipeline *)

Module VisualizerProps.
Import JS JSFacts Visualizer.
Local Open Scope Q_scope.

(** *** The model on concrete inputs *)

Example getColor_first_bin : getColor "bars" 0 128 = Some "#9b87f5"%string.
Proof. reflexivity. Qed.

Example getColor_last_bin : getColor "wave" 127 128 = Some "#6E59A5"%string.
Proof. reflexivity. Qed.

Example getColor_unknown_mode : getColor "spiral" 64 128 = getColor "bars" 64 128.
Proof. reflexivity. Qed.

Example amplifiedValue_100 :
  amplifiedValue Base 100 = 300 # 2 /\ amplifiedValue Tuned 100 = 500 # 2.
Proof. split; reflexivity. Qed.

Example intensity_full_scale : intensity Tuned [255; 255]%Z = Num 1.
Proof. reflexivity. Qed.

Example wrap_examples :
  wrap 800 (Num 801) = Num 0 /\ wrap 800 (Num (-1)) = Num 800 /\
  wrap 800 (Num 800) = Num 800 /\ wrap 800 (Num 12) = Num 12 /\
  wrap 800 NaN = NaN.
Proof. repeat split; reflexivity. Qed.

(** *** Amplification *)

Lemma gain_pos rev : 0 < gain rev.
Proof. destruct rev; reflexivity. Qed.

Lemma amplifiedValue_bounds rev v : uint8 v -> 0 <= amplifiedValue rev v <= 255.
Proof.
  intros Hv. apply inject_uint8 in Hv. destruct Hv as [Hlo _].
  unfold amplifiedValue. split.
  - apply Q.min_glb; [discriminate|].
    apply Qmult_le_0_compat; [exact Hlo|]. apply Qlt_le_weak, gain_pos.
  - apply Q.le_min_l.
Qed.

Lemma amplifiedValue_mono rev v1 v2 :
  (v1 <= v2)%Z -> amplifiedValue rev v1 <= amplifiedValue rev v2.
Proof.
  intros Hle. unfold amplifiedValue.
  apply Q.min_le_compat_l.
  apply Qmult_le_compat_r; [|apply Qlt_le_weak, gain_pos].
  rewrite <- Zle_Qle. exact Hle.
Qed.

Lemma amplify_uint8 v : uint8 (AudioEngine.amplify v).
Proof. apply toUint8_uint8. Qed.

Lemma amplify_floor v :
  uint8 v -> AudioEngine.amplify v = Qfloor (Qmin 255 (inject_Z v * (3 # 2))).
Proof.
  intros Hv. unfold AudioEngine.amplify.
  destruct (amplifiedValue_bounds Base v Hv) as [Hlo Hhi].
  apply toUint8_floor; assumption.
Qed.

Lemma amplify_mono v1 v2 :
  uint8 v1 -> uint8 v2 -> (v1 <= v2)%Z ->
  (AudioEngine.amplify v1 <= AudioEngine.amplify v2)%Z.
Proof.
  intros H1 H2 Hle. rewrite !amplify_floor by assumption.
  apply Qfloor_resp_le. exact (amplifiedValue_mono Base v1 v2 Hle).
Qed.

(** C4. The amplification [Math.min(255, m * k)] - [k] is 1.5 or 2.5 in
    the draw algorithms, 1.5 in [updateAnalyser], which stores the result
    back into the byte buffer - keeps every raw magnitude of [0, 255]
    within [0, 255] and is non-decreasing in the raw magnitude. *)
Theorem amplification_bounded_monotone (rev : revision) (m1 m2 : Z) :
  uint8 m1 -> uint8 m2 -> (m1 <= m2)%Z ->
  amplifiedValue rev m1 = Qmin 255 (inject_Z m1 * gain rev) /\
  (0 <= amplifiedValue rev m1 <= 255) /\
  (0 <= amplifiedValue rev m2 <= 255) /\
  amplifiedValue rev m1 <= amplifiedValue rev m2 /\
  uint8 (AudioEngine.amplify m1) /\
  uint8 (AudioEngine.amplify m2) /\
  (AudioEngine.amplify m1 <= AudioEngine.amplify m2)%Z.
Proof.
  intros H1 H2 Hle. split; [reflexivity|].
  split; [apply amplifiedValue_bounds; exact H1|].
  split; [apply amplifiedValue_bounds; exact H2|].
  split; [apply amplifiedValue_mono; exact Hle|].
  split; [apply amplify_uint8|].
  split; [apply amplify_uint8|].
  apply amplify_mono; assumption.
Qed.

Lemma amplification_bounded_monotone_witness :
  uint8 100 /\ uint8 200 /\
  amplifiedValue Tuned 100 <= amplifiedValue Tuned 200 /\
  (AudioEngine.amplify 100 <= AudioEngine.amplify 200)%Z.
Proof.
  assert (H1 : uint8 100) by (unfold uint8; lia).
  assert (H2 : uint8 200) by (unfold uint8; lia).
  assert (Hle : (100 <= 200)%Z) by lia.
  pose proof (amplification_bounded_monotone Tuned 100 200 H1 H2 Hle) as H.
  split; [exact H1|]. split; [exact H2|].
  split; [apply H|apply H].
Defined.

(** *** The palette and the bars *)

Lemma colorPosition_range (i n : nat) :
  (i < n)%nat ->
  (0 <= Qfloor ((inject_Z (Z.of_nat i) / inject_Z (Z.of_nat n)) * inject_Z 7) < 7)%Z.
Proof.
  intros Hlt.
  assert (Hn : 0 < inject_Z (Z.of_nat n)).
  { change 0 with (inject_Z 0). rewrite <- Zlt_Qlt. lia. }
  assert (Hi : 0 <= inject_Z (Z.of_nat i)).
  { change 0 with (inject_Z 0). rewrite <- Zle_Qle. lia. }
  assert (Hin : inject_Z (Z.of_nat i) < inject_Z (Z.of_nat n)).
  { rewrite <- Zlt_Qlt. lia. }
  set (r := inject_Z (Z.of_nat i) / inject_Z (Z.of_nat n)).
  assert (Hr0 : 0 <= r).
  { unfold r. apply Qle_shift_div_l; [exact Hn|]. rewrite Qmult_0_l. exact Hi. }
  assert (Hr1 : r < 1).
  { unfold r. apply Qlt_shift_div_r; [exact Hn|]. rewrite Qmult_1_l. exact Hin. }
  split.
  - change 0%Z with (Qfloor 0). apply Qfloor_resp_le.
    apply Qmult_le_0_compat; [exact Hr0|discriminate].
  - rewrite Zlt_Qlt. eapply Qle_lt_trans; [apply Qfloor_le|].
    change (inject_Z 7) with 7. lra.
Qed.

(** The lookup that [getColor] starts from finds a seven-colour palette
    unless the mode names a property inherited from [Object.prototype]. *)
Lemma schemeOrBars_cases (mode : string) :
  (inherited mode = true /\ schemeOrBars mode = Builtin) \/
  (exists colors, schemeOrBars mode = Palette colors /\ length colors = 7%nat).
Proof.
  unfold schemeOrBars, colorSchemes.
  repeat (match goal with
          | |- context [if ?b then _ else _] => destruct b eqn:?
          end; [right; eexists; split; reflexivity|]).
  destruct (inherited mode) eqn:E.
  - left. split; reflexivity.
  - right. eexists. split; reflexivity.
Qed.

Lemma getColor_palette (mode : string) (colors : list string) (i n : nat) :
  schemeOrBars mode = Palette colors -> length colors = 7%nat -> (i < n)%nat ->
  is_Some (getColor mode i n).
Proof.
  intros Hs Hlen Hlt. unfold getColor. rewrite Hs, Hlen. cbv zeta.
  pose proof (colorPosition_range i n Hlt) as Hr.
  change (Z.of_nat 7) with 7%Z.
  rewrite Z.rem_small by exact Hr.
  destruct (Z.leb_spec 0 (Qfloor (inject_Z (Z.of_nat i) / inject_Z (Z.of_nat n) * inject_Z 7)))
    as [_|Hneg]; [|lia].
  apply lookup_lt_is_Some. rewrite Hlen. lia.
Qed.

Lemma getColor_builtin (mode : string) (i n : nat) :
  schemeOrBars mode = Builtin -> getColor mode i n = None.
Proof. intros Hs. unfold getColor. rewrite Hs. reflexivity. Qed.

(** With a palette at hand [drawBars] paints one bar per bin, each with the
    height [barHeight] gives for its bin. *)
Lemma drawBarsFrom_completed rev mode dims colors n data :
  schemeOrBars mode = Palette colors -> length colors = 7%nat ->
  forall (i : nat) (painted : list bar),
    (i + length data <= n)%nat ->
    exists bars,
      drawBarsFrom rev mode dims n i data painted = Completed (painted ++ bars) /\
      Forall2 (fun b v => bar_height b = barHeight rev dims v) bars data.
Proof.
  intros Hs Hlen. induction data as [|v rest IH]; intros i painted Hi.
  - exists []. simpl. rewrite app_nil_r. split; [reflexivity|constructor].
  - simpl in Hi. simpl.
    assert (Hlt : (i < n)%nat) by lia.
    destruct (getColor_palette mode colors i n Hs Hlen Hlt) as [c Hc].
    unfold drawBar. rewrite Hc.
    match goal with
    | |- context [drawBarsFrom _ _ _ _ _ _ (painted ++ [?b])] => set (b0 := b)
    end.
    destruct (IH (S i) (painted ++ [b0])) as [bars [Hrun Hh]]; [lia|].
    exists (b0 :: bars). split.
    + rewrite Hrun, <- app_assoc. reflexivity.
    + constructor; [reflexivity|exact Hh].
Qed.

Lemma drawBars_completed rev mode dims colors data :
  schemeOrBars mode = Palette colors -> length colors = 7%nat ->
  exists bars,
    drawBars rev mode dims data = Completed bars /\
    Forall2 (fun b v => bar_height b = barHeight rev dims v) bars data.
Proof.
  intros Hs Hlen. unfold drawBars.
  destruct (drawBarsFrom_completed rev mode dims colors (length data) data Hs Hlen 0 [])
    as [bars [Hrun Hh]]; [simpl; lia|].
  exists bars. split; [exact Hrun|exact Hh].
Qed.

(** Without one the first [addColorStop] raises and nothing is painted. *)
Lemma drawBars_aborted rev mode dims v data :
  schemeOrBars mode = Builtin ->
  drawBars rev mode dims (v :: data) = Aborted [].
Proof.
  intros Hs. unfold drawBars. cbn [drawBarsFrom]. unfold drawBar.
  rewrite (getColor_builtin mode _ _ Hs). reflexivity.
Qed.

(** No bar is taller than 80% of the viewport. *)
Lemma barHeight_max rev dims v :
  uint8 v -> 0 <= height dims -> barHeight rev dims v <= (8 # 10) * height dims.
Proof.
  intros Hv Hh. unfold barHeight.
  destruct (amplifiedValue_bounds rev v Hv) as [Hlo Hhi].
  assert (Hfrac : amplifiedValue rev v / 255 <= 1).
  { apply Qle_shift_div_r; [reflexivity|]. rewrite Qmult_1_l. exact Hhi. }
  assert (E : (8 # 10) * height dims == 1 * height dims * (8 # 10)) by ring.
  rewrite E.
  apply Qmult_le_compat_r; [|discriminate].
  apply Qmult_le_compat_r; [exact Hfrac|exact Hh].
Qed.

Lemma amplifiedValue_200 rev : amplifiedValue rev 200 = 255.
Proof. destruct rev; reflexivity. Qed.

(** C5. A snapshot whose bins all hold 200, drawn by the Bars algorithm
    with gain 1.5 (and just as well with gain 2.5), amplifies to 255 in
    every bin, and every bar is painted with the maximum height, 80% of the
    viewport height. *)
Theorem bars_all_200_maximal (rev : revision) (dims : dimensions) (n : nat) :
  gain Base = 3 # 2 /\
  Qmin 255 (inject_Z 200 * (3 # 2)) = 255 /\
  amplifiedValue rev 200 = 255 /\
  exists bars,
    drawBars rev "bars" dims (replicate n 200%Z) = Completed bars /\
    length bars = n /\
    Forall (fun b => bar_height b == (8 # 10) * height dims) bars.
Proof.
  split; [reflexivity|]. split; [reflexivity|].
  split; [apply amplifiedValue_200|].
  destruct (drawBars_completed rev "bars" dims barsScheme (replicate n 200%Z))
    as [bars [Hrun Hh]]; [reflexivity|reflexivity|].
  exists bars. split; [exact Hrun|].
  split.
  - apply Forall2_length in Hh. rewrite Hh. apply length_replicate.
  - clear Hrun. remember (replicate n 200%Z) as data eqn:Hd.
    assert (Hall : Forall (fun v => v = 200%Z) data).
    { subst data. apply Forall_forall. intros v Hv.
      apply elem_of_replicate in Hv. tauto. }
    clear Hd. induction Hh as [|b v bars data Hb Hh IH].
    + constructor.
    + inversion Hall as [|? ? Hv Hall']; subst.
      constructor; [|apply IH; exact Hall'].
      rewrite Hb. unfold barHeight. rewrite amplifiedValue_200. field.
Qed.

(** *** Invalid modes *)

(** The [switch] sends every other mode to the Bars algorithm. *)
Lemma draw_fallback (mode : string) :
  validMode mode = false -> draw mode = draw "bars".
Proof.
  unfold validMode, draw. intros H.
  repeat (apply orb_false_elim in H; destruct H as [H ?]).
  repeat match goal with E : (_ =? _)%string = false |- _ => rewrite E; clear E end.
  reflexivity.
Qed.

(** The palette lookup falls back to the bars scheme for every other mode
    that is not the name of an inherited property. *)
Lemma getColor_fallback (mode : string) (i n : nat) :
  validMode mode = false -> inherited mode = false ->
  getColor mode i n = getColor "bars" i n.
Proof.
  unfold validMode. intros H Hinh.
  repeat (apply orb_false_elim in H; destruct H as [H ?]).
  unfold getColor, schemeOrBars, colorSchemes.
  repeat match goal with E : (_ =? _)%string = false |- _ => rewrite E; clear E end.
  rewrite Hinh. reflexivity.
Qed.

Lemma inherited_not_valid (mode : string) :
  inherited mode = true -> validMode mode = false.
Proof.
  unfold inherited, objectPrototypeKeys. simpl. intros H.
  repeat (apply orb_prop in H; destruct H as [H|H];
          [apply String.eqb_eq in H; subst mode; reflexivity|]).
  discriminate.
Qed.

(** C6, at the mode "toString".  The mode is none of the four and the
    [switch] does fall back to the Bars algorithm, but the palette lookup
    finds the inherited function instead of falling back to the bars
    scheme: [getColor] yields [undefined] where mode "bars" yields a
    colour, and [drawBars] is cut short at its first bar where mode "bars"
    paints them all. *)
Theorem inherited_mode_misses_palette_fallback
    (rev : revision) (dims : dimensions) (v : Z) (data : list Z) :
  validMode "toString" = false /\
  draw "toString" = draw "bars" /\
  schemeOrBars "toString" = Builtin /\
  schemeOrBars "bars" = Palette barsScheme /\
  getColor "toString" 0 (length (v :: data)) = None /\
  is_Some (getColor "bars" 0 (length (v :: data))) /\
  drawBars rev "toString" dims (v :: data) = Aborted [] /\
  exists bars,
    drawBars rev "bars" dims (v :: data) = Completed bars /\
    length bars = length (v :: data).
Proof.
  split; [reflexivity|]. split; [reflexivity|].
  split; [reflexivity|]. split; [reflexivity|].
  split; [reflexivity|].
  split.
  { apply (getColor_palette "bars" barsScheme); [reflexivity|reflexivity|simpl; lia]. }
  split.
  { apply drawBars_aborted. reflexivity. }
  destruct (drawBars_completed rev "bars" dims barsScheme (v :: data))
    as [bars [Hrun Hh]]; [reflexivity|reflexivity|].
  exists bars. split; [exact Hrun|]. exact (Forall2_length _ _ _ Hh).
Qed.

(** *** The particle field *)

Lemma length_regenerate rnd dims : length (regenerate rnd dims) = particleCount.
Proof. unfold regenerate. rewrite length_map, length_seq. reflexivity. Qed.

Lemma length_stepField rev dims i ps : length (stepField rev dims i ps) = length ps.
Proof. unfold stepField. apply length_map. Qed.

Lemma length_animate rev dims frames :
  forall ps, length (animate rev dims frames ps) = length ps.
Proof.
  unfold animate. induction frames as [|data frames IH]; intros ps; simpl.
  - reflexivity.
  - rewrite IH. unfold drawParticles. apply length_stepField.
Qed.

(** C7. Stepping the particle field neither creates nor destroys
    particles: a regeneration builds 100 of them, one [drawParticles] keeps
    the count of any field whatever the snapshot, and so does any number of
    frames; outside mode "particles" the set-up effect leaves the field
    alone. *)
Theorem particle_count_invariant
    (rev : revision) (dims : dimensions) (rnd : nat -> Q)
    (frames : list (list Z)) (data : list Z) (ps : list particle) (mode : string) :
  length (regenerate rnd dims) = 100%nat /\
  length (drawParticles rev dims data ps) = length ps /\
  length (animate rev dims frames ps) = length ps /\
  length (animate rev dims frames (regenerate rnd dims)) = 100%nat /\
  length (setUpParticles mode rnd dims ps)
    = (if (mode =? "particles")%string then 100%nat else length ps).
Proof.
  split; [apply length_regenerate|].
  split; [apply length_stepField|].
  split; [apply length_animate|].
  split; [rewrite length_animate; apply length_regenerate|].
  unfold setUpParticles. destruct (mode =? "particles")%string.
  - apply length_regenerate.
  - reflexivity.
Qed.

(** *** Intensity *)

Lemma sum_bounds (data : list Z) :
  Forall uint8 data ->
  forall acc : Z,
    (acc <= fold_left Z.add data acc <= acc + 255 * Z.of_nat (length data))%Z.
Proof.
  induction 1 as [|v data Hv _ IH]; intros acc; simpl.
  - lia.
  - specialize (IH (acc + v)%Z). unfold uint8 in Hv. lia.
Qed.

Lemma averageFrequency_bounds (data : list Z) :
  data <> [] -> Forall uint8 data ->
  exists avg, averageFrequency data = Num avg /\ 0 <= avg <= 255.
Proof.
  intros Hne Hall.
  destruct data as [|v rest]; [contradiction|].
  eexists. split; [reflexivity|].
  pose proof (sum_bounds (v :: rest) Hall 0%Z) as [Hlo Hhi].
  set (total := fold_left Z.add (v :: rest) 0%Z) in *.
  set (len := Z.of_nat (length (v :: rest))) in *.
  assert (Hlen : 0 < inject_Z len).
  { change 0 with (inject_Z 0). rewrite <- Zlt_Qlt. subst len. simpl length. lia. }
  split.
  - apply Qle_shift_div_l; [exact Hlen|]. rewrite Qmult_0_l.
    change 0 with (inject_Z 0). rewrite <- Zle_Qle. exact Hlo.
  - apply Qle_shift_div_r; [exact Hlen|].
    change 255 with (inject_Z 255). rewrite <- inject_Z_mult, <- Zle_Qle. lia.
Qed.

(** C8, as the code has it.  For every snapshot with at least one bin and
    bin values in [0, 255], the intensity of the Particles algorithm (the
    average magnitude divided by 255, in the [Tuned] revision tripled and
    capped at 1) is a number of [0, 1]. *)
Theorem intensity_normalised (rev : revision) (data : list Z) :
  data <> [] -> Forall uint8 data -> unitInterval (intensity rev data).
Proof.
  intros Hne Hall.
  destruct (averageFrequency_bounds data Hne Hall) as [avg [Havg [Hlo Hhi]]].
  assert (Hfrac : 0 <= avg / 255 <= 1).
  { split.
    - apply Qle_shift_div_l; [reflexivity|]. rewrite Qmult_0_l. exact Hlo.
    - apply Qle_shift_div_r; [reflexivity|]. rewrite Qmult_1_l. exact Hhi. }
  unfold intensity. rewrite Havg. destruct rev; simpl.
  - exact Hfrac.
  - split.
    + apply Q.min_glb; [discriminate|]. lra.
    + apply Q.le_min_l.
Qed.

Lemma intensity_normalised_witness :
  unitInterval (intensity Tuned [200; 100; 0]%Z).
Proof.
  apply (intensity_normalised Tuned [200; 100; 0]%Z).
  - discriminate.
  - repeat constructor; unfold uint8; lia.
Defined.

(** C8 as stated, at the empty snapshot.  Every bin value (there is none)
    lies in [0, 255], yet the average is [0 / 0]: the intensity is [NaN],
    not a number of [0, 1]. *)
Lemma intensity_empty_snapshot :
  Forall uint8 [] /\ intensity Base [] = NaN /\ intensity Tuned [] = NaN /\
  ~ unitInterval (intensity Tuned []).
Proof.
  split; [constructor|]. split; [reflexivity|]. split; [reflexivity|].
  simpl. tauto.
Qed.


(** *** Wrap-around *)


(** A coordinate that undershoots 0 is put on the far edge itself. *)
Lemma wrap_undershoot (bound c : Q) :
  0 <= bound -> c < 0 -> wrap bound (Num c) = Num bound.
Proof.
  intros Hb Hc. unfold wrap, lt, gt.
  assert (Hgt : Qltb bound c = false) by (apply Qltb_ge; lra).
  rewrite Hgt.
  assert (Hlt : Qltb c 0 = true) by (apply Qltb_lt; exact Hc).
  rewrite Hlt. reflexivity.
Qed.









(** ** Regeneration, colours, bars, rays and the wave *)

(** *** Regeneration *)

Lemma newParticle_ranges rnd dims i :
  unitRandom rnd -> 0 < width dims -> 0 < height dims ->
  let p := newParticle rnd dims i in
  withinViewport dims p /\
  (2 <= size p /\ size p < 7) /\
  (-1 <= speedX p /\ speedX p < 1) /\
  (-1 <= speedY p /\ speedY p < 1) /\
  (250 <= hue p /\ hue p < 310).
Proof.
  intros Hr Hw Hh. unfold newParticle, withinViewport.
  cbn [x y size speedX speedY hue].
  destruct (Hr (6 * i)%nat) as [H0 H0'].
  destruct (Hr (6 * i + 1)%nat) as [H1 H1'].
  destruct (Hr (6 * i + 2)%nat) as [H2 H2'].
  destruct (Hr (6 * i + 3)%nat) as [H3 H3'].
  destruct (Hr (6 * i + 4)%nat) as [H4 H4'].
  destruct (Hr (6 * i + 5)%nat) as [H5 H5'].
  repeat split; try lra.
  - apply Qmult_le_0_compat; lra.
  - rewrite <- (Qmult_1_l (width dims)) at 2. apply Qmult_lt_compat_r; assumption.
  - apply Qmult_le_0_compat; lra.
  - rewrite <- (Qmult_1_l (height dims)) at 2. apply Qmult_lt_compat_r; assumption.
Qed.

(** X1. Switching to mode "particles" (or resizing in that mode) builds a
    field whose particles all start inside the half-open viewport
    [0, width) x [0, height), with radius in [2, 7), both velocity
    components in [-1, 1) and hue in [250, 310). *)
Theorem regenerated_particles_in_range
    (rnd : nat -> Q) (dims : dimensions) (old : list particle) :
  unitRandom rnd -> 0 < width dims -> 0 < height dims ->
  Forall (fun p =>
            withinViewport dims p /\
            (2 <= size p /\ size p < 7) /\
            (-1 <= speedX p /\ speedX p < 1) /\
            (-1 <= speedY p /\ speedY p < 1) /\
            (250 <= hue p /\ hue p < 310))
         (setUpParticles "particles" rnd dims old).
Proof.
  intros Hr Hw Hh. unfold setUpParticles. simpl. unfold regenerate.
  apply Forall_map, Forall_forall. intros i _.
  apply (newParticle_ranges rnd dims i Hr Hw Hh).
Qed.

Lemma regenerated_particles_in_range_witness :
  Forall (fun p => withinViewport viewport800x600 p /\
            (2 <= size p /\ size p < 7) /\
            (-1 <= speedX p /\ speedX p < 1) /\
            (-1 <= speedY p /\ speedY p < 1) /\
            (250 <= hue p /\ hue p < 310))
         (setUpParticles "particles" (fun n => inject_Z (Z.of_nat (n mod 7)) / 7)
            viewport800x600 []).
Proof.
  apply (regenerated_particles_in_range
           (fun n => inject_Z (Z.of_nat (n mod 7)) / 7) viewport800x600 []).
  - intros n. assert (Hm : (n mod 7 < 7)%nat) by (apply Nat.mod_upper_bound; lia).
    split.
    + apply Qle_shift_div_l; [reflexivity|]. rewrite Qmult_0_l.
      change 0 with (inject_Z 0). rewrite <- Zle_Qle. lia.
    + apply Qlt_shift_div_r; [reflexivity|]. rewrite Qmult_1_l.
      change 7 with (inject_Z 7). rewrite <- Zlt_Qlt. lia.
  - reflexivity.
  - reflexivity.
Defined.

(** *** What a step leaves alone *)

Lemma stored_stepField rev dims i ps :
  map stored (stepField rev dims i ps) = map stored ps.
Proof.
  unfold stepField. rewrite map_map. apply map_ext. intros p. reflexivity.
Qed.

(** X2. No number of frames changes a particle's radius, velocity or hue:
    only positions move. *)
Theorem frames_keep_stored_attributes
    (rev : revision) (dims : dimensions) (frames : list (list Z)) (ps : list particle) :
  map stored (animate rev dims frames ps) = map stored ps.
Proof.
  unfold animate. revert ps.
  induction frames as [|data frames IH]; intros ps; simpl; [reflexivity|].
  rewrite IH. unfold drawParticles. apply stored_stepField.
Qed.

(** *** Colour bands *)

Lemma colorPosition_div (i n : nat) :
  Qfloor ((inject_Z (Z.of_nat i) / inject_Z (Z.of_nat n)) * inject_Z 7)
  = Z.of_nat (7 * i / n).
Proof.
  assert (E : (inject_Z (Z.of_nat i) / inject_Z (Z.of_nat n)) * inject_Z 7
              == inject_Z (Z.of_nat (7 * i)) / inject_Z (Z.of_nat n)).
  { rewrite Nat2Z.inj_mul, inject_Z_mult. unfold Qdiv.
    change (inject_Z (Z.of_nat 7)) with (inject_Z 7). ring. }
  rewrite E, <- Zdiv_Qdiv. symmetry. apply Nat2Z.inj_div.
Qed.

(** X3. For a mode that finds a palette - the four modes and every name
    that is not an inherited property - bin [i] of [n] is given the colour
    at position [7 * i / n] (integer division) of the mode's palette: the
    bins fall into seven contiguous bands, coloured in palette order. *)
Theorem getColor_band (mode : string) (i n : nat) :
  inherited mode = false -> (i < n)%nat ->
  exists colors c,
    schemeOrBars mode = Palette colors /\ length colors = 7%nat /\
    getColor mode i n = Some c /\ colors !! (7 * i / n)%nat = Some c.
Proof.
  intros Hinh Hlt.
  destruct (schemeOrBars_cases mode) as [[Hyes _]|[colors [Hs Hlen]]];
    [congruence|].
  assert (Hpos : (7 * i / n < 7)%nat).
  { apply Nat.Div0.div_lt_upper_bound. lia. }
  assert (Hc : is_Some (colors !! (7 * i / n)%nat)).
  { apply lookup_lt_is_Some. lia. }
  destruct Hc as [c Hc]. exists colors, c.
  split; [exact Hs|]. split; [exact Hlen|]. split; [|exact Hc].
  unfold getColor. rewrite Hs, Hlen. cbv zeta.
  change (Z.of_nat 7) with 7%Z. rewrite colorPosition_div.
  rewrite Z.rem_small by lia.
  destruct (Z.leb_spec 0 (Z.of_nat (7 * i / n))) as [_|Hneg]; [|lia].
  rewrite Nat2Z.id. exact Hc.
Qed.

Lemma getColor_band_witness :
  exists colors c,
    schemeOrBars "wave" = Palette colors /\ length colors = 7%nat /\
    getColor "wave" 100 128 = Some c /\ colors !! (7 * 100 / 128)%nat = Some c.
Proof.
  apply (getColor_band "wave" 100 128).
  - reflexivity.
  - lia.
Defined.

(** *** The layout of the bars *)

Lemma drawBarsFrom_lookup rev mode dims n data :
  forall (i : nat) (painted bars : list bar),
    drawBarsFrom rev mode dims n i data painted = Completed bars ->
    exists drawn,
      bars = painted ++ drawn /\ length drawn = length data /\
      forall j v, data !! j = Some v ->
        exists b, drawn !! j = Some b /\
                  drawBar rev mode dims n (i + j) v = Some b.
Proof.
  induction data as [|v rest IH]; intros i painted bars Hrun; simpl in Hrun.
  - injection Hrun as <-. exists []. rewrite app_nil_r.
    split; [reflexivity|]. split; [reflexivity|].
    intros j v Hj. rewrite lookup_nil in Hj. discriminate.
  - destruct (drawBar rev mode dims n i v) as [b0|] eqn:Hb; [|discriminate].
    destruct (IH (S i) (painted ++ [b0]) bars Hrun) as [drawn [Hbars [Hlen Hlook]]].
    exists (b0 :: drawn). split; [rewrite Hbars, <- app_assoc; reflexivity|].
    split; [simpl; rewrite Hlen; reflexivity|].
    intros j w Hj. destruct j as [|j].
    + simpl in Hj. injection Hj as <-. exists b0.
      rewrite Nat.add_0_r. split; [reflexivity|exact Hb].
    + simpl in Hj. destruct (Hlook j w Hj) as [b [Hbj Hdraw]].
      exists b. split; [exact Hbj|].
      rewrite Nat.add_succ_r. exact Hdraw.
Qed.

Lemma drawBars_lookup rev mode dims data bars :
  drawBars rev mode dims data = Completed bars ->
  length bars = length data /\
  forall j v, data !! j = Some v ->
    exists b, bars !! j = Some b /\
              drawBar rev mode dims (length data) j v = Some b.
Proof.
  unfold drawBars. intros Hrun.
  destruct (drawBarsFrom_lookup rev mode dims (length data) data 0 [] bars Hrun)
    as [drawn [Hbars [Hlen Hlook]]].
  simpl in Hbars. subst drawn. split; [exact Hlen|exact Hlook].
Qed.

(** What [drawBar] hands to the canvas when it finds a colour. *)
Lemma drawBar_geometry rev mode dims n j v b :
  drawBar rev mode dims n j v = Some b -> (j < n)%nat ->
  let barWidth := width dims / inject_Z (Z.of_nat n) in
  bar_x b == inject_Z (Z.of_nat j) * barWidth /\
  bar_width b == barWidth - 1 /\
  bar_height b = barHeight rev dims v /\
  bar_y b + bar_height b == height dims /\
  bar_radius b == Qmin 10 (barWidth * (1 # 2)).
Proof.
  unfold drawBar. intros Hb Hj.
  destruct (getColor mode j n) as [c|]; [|discriminate].
  injection Hb as <-. cbn [bar_x bar_y bar_width bar_height bar_radius].
  assert (Hn : ~ inject_Z (Z.of_nat n) == 0).
  { change 0 with (inject_Z 0). rewrite inject_Z_injective. lia. }
  split; [field; exact Hn|]. split; [reflexivity|]. split; [reflexivity|].
  split; [ring|].
  destruct (Qltb 10 (width dims / inject_Z (Z.of_nat n) * (1 # 2))) eqn:E.
  - apply Qltb_lt in E. symmetry. apply Q.min_l. apply Qlt_le_weak. exact E.
  - apply Qltb_ge in E. symmetry. apply Q.min_r. exact E.
Qed.



(** X5. The bars stay between the bottom edge and 80% of the height: for
    bin values in [0, 255] and a non-negative height, every painted bar has
    [0 <= barHeight <= 0.8 * height] and its top [y] lies in
    [0.2 * height, height]; a silent bin paints a bar of height 0, and a
    louder bin never paints a shorter bar than a quieter one. *)
Theorem bars_height_follows_magnitude
    (rev : revision) (mode : string) (dims : dimensions)
    (data : list Z) (bars : list bar) (j1 j2 : nat) (v1 v2 : Z) :
  drawBars rev mode dims data = Completed bars ->
  data !! j1 = Some v1 -> data !! j2 = Some v2 ->
  uint8 v1 -> uint8 v2 -> (v1 <= v2)%Z -> 0 <= height dims ->
  exists b1 b2,
    bars !! j1 = Some b1 /\ bars !! j2 = Some b2 /\
    (0 <= bar_height b1 /\ bar_height b1 <= bar_height b2) /\
    bar_height b2 <= (8 # 10) * height dims /\
    ((2 # 10) * height dims <= bar_y b2 /\ bar_y b2 <= height dims) /\
    (v1 = 0%Z -> bar_height b1 == 0).
Proof.
  intros Hrun Hj1 Hj2 Hv1 Hv2 Hle Hh.
  destruct (drawBars_lookup rev mode dims data bars Hrun) as [_ Hlook].
  destruct (Hlook j1 v1 Hj1) as [b1 [Hb1 Hd1]].
  destruct (Hlook j2 v2 Hj2) as [b2 [Hb2 Hd2]].
  assert (Hjn1 : (j1 < length data)%nat) by (eapply lookup_lt_Some; exact Hj1).
  assert (Hjn2 : (j2 < length data)%nat) by (eapply lookup_lt_Some; exact Hj2).
  destruct (drawBar_geometry rev mode dims _ j1 v1 b1 Hd1 Hjn1) as [_ [_ [Hh1 _]]].
  destruct (drawBar_geometry rev mode dims _ j2 v2 b2 Hd2 Hjn2) as [_ [_ [Hh2 [Hy2 _]]]].
  exists b1, b2. split; [exact Hb1|]. split; [exact Hb2|].
  pose proof (barHeight_max rev dims v2 Hv2 Hh) as Hmax.
  destruct (amplifiedValue_bounds rev v1 Hv1) as [Hlo1 _].
  pose proof (amplifiedValue_mono rev v1 v2 Hle) as Hmono.
  assert (Hscale : forall a1 a2, 0 <= a1 -> a1 <= a2 ->
             0 <= a1 / 255 * height dims * (8 # 10) /\
             a1 / 255 * height dims * (8 # 10) <= a2 / 255 * height dims * (8 # 10)).
  { intros a1 a2 Ha1 Ha12. split.
    - apply Qmult_le_0_compat; [|discriminate].
      apply Qmult_le_0_compat; [|exact Hh].
      apply Qle_shift_div_l; [reflexivity|]. rewrite Qmult_0_l. exact Ha1.
    - apply Qmult_le_compat_r; [|discriminate].
      apply Qmult_le_compat_r; [|exact Hh].
      apply Qmult_le_compat_r; [exact Ha12|discriminate]. }
  destruct (Hscale _ _ Hlo1 Hmono) as [H0 H12].
  rewrite Hh1, Hh2. fold (barHeight rev dims v1) in H0, H12.
  fold (barHeight rev dims v2) in H12.
  split; [split; assumption|]. split; [exact Hmax|].
  split.
  - rewrite Hh2 in Hy2.
    assert (H2 : 0 <= barHeight rev dims v2) by (eapply Qle_trans; eassumption).
    split; lra.
  - intros ->. unfold barHeight, amplifiedValue.
    assert (E : Qmin 255 (inject_Z 0 * gain rev) == 0).
    { destruct rev; reflexivity. }
    rewrite E. unfold Qdiv. ring.
Qed.

Lemma bars_height_follows_magnitude_witness :
  let bars := paintedBars (drawBars Tuned "circular" viewport800x600 [0; 40; 90]%Z) in
  exists b1 b2,
    bars !! 0%nat = Some b1 /\ bars !! 1%nat = Some b2 /\
    bar_height b1 == 0 /\ bar_height b1 <= bar_height b2.
Proof.
  intros bars.
  assert (Hrun : drawBars Tuned "circular" viewport800x600 [0; 40; 90]%Z
                 = Completed bars) by (vm_compute; reflexivity).
  assert (Hj1 : [0; 40; 90]%Z !! 0%nat = Some 0%Z) by reflexivity.
  assert (Hj2 : [0; 40; 90]%Z !! 1%nat = Some 40%Z) by reflexivity.
  assert (Hv1 : uint8 0) by (unfold uint8; lia).
  assert (Hv2 : uint8 40) by (unfold uint8; lia).
  assert (Hle : (0 <= 40)%Z) by lia.
  assert (Hh : 0 <= height viewport800x600) by discriminate.
  destruct (bars_height_follows_magnitude Tuned "circular" viewport800x600 _ bars
              0 1 0%Z 40%Z Hrun Hj1 Hj2 Hv1 Hv2 Hle Hh)
    as [b1 [b2 [Hb1 [Hb2 [[_ H12] [_ [_ Hzero]]]]]]].
  exists b1, b2. split; [exact Hb1|]. split; [exact Hb2|].
  split; [apply Hzero; reflexivity|exact H12].
Defined.

(** X6. For every mode that is not the name of an inherited property -
    the four modes and any other string - [drawBars] runs to its end on
    every snapshot, the empty one included, and paints exactly one bar per
    bin. *)
Theorem drawBars_completes (rev : revision) (mode : string)
    (dims : dimensions) (data : list Z) :
  inherited mode = false ->
  exists bars,
    drawBars rev mode dims data = Completed bars /\ length bars = length data /\
    (data = [] -> bars = []).
Proof.
  intros Hinh.
  destruct (schemeOrBars_cases mode) as [[Hyes _]|[colors [Hs Hlen]]];
    [congruence|].
  destruct (drawBars_completed rev mode dims colors data Hs Hlen) as [bars [Hrun Hh]].
  exists bars. split; [exact Hrun|].
  split; [exact (Forall2_length _ _ _ Hh)|].
  intros ->. inversion Hh. reflexivity.
Qed.

Lemma drawBars_completes_witness :
  exists bars,
    drawBars Base "spiral" viewport800x600 [10; 20]%Z = Completed bars /\
    length bars = 2%nat.
Proof.
  destruct (drawBars_completes Base "spiral" viewport800x600 [10; 20]%Z)
    as [bars [Hrun [Hlen _]]]; [reflexivity|].
  exists bars. split; [exact Hrun|exact Hlen].
Defined.

(** *** Circular *)

Lemma fraction_bounds rev v :
  uint8 v -> 0 <= amplifiedValue rev v / 255 /\ amplifiedValue rev v / 255 <= 1.
Proof.
  intros Hv. destruct (amplifiedValue_bounds rev v Hv) as [Hlo Hhi]. split.
  - apply Qle_shift_div_l; [reflexivity|]. rewrite Qmult_0_l. exact Hlo.
  - apply Qle_shift_div_r; [reflexivity|]. rewrite Qmult_1_l. exact Hhi.
Qed.

Lemma maxRadius_bounds dims :
  0 <= width dims -> 0 <= height dims ->
  0 <= maxRadius dims /\
  maxRadius dims <= (4 # 10) * width dims /\
  maxRadius dims <= (4 # 10) * height dims.
Proof.
  intros Hw Hh. unfold maxRadius.
  pose proof (Q.le_min_l (width dims) (height dims)).
  pose proof (Q.le_min_r (width dims) (height dims)).
  assert (0 <= Qmin (width dims) (height dims)) by (apply Q.min_glb; assumption).
  repeat split; lra.
Qed.

Lemma half_of (a : Q) : a / 2 == (1 # 2) * a.
Proof. unfold Qdiv. change (/ 2) with (1 # 2). ring. Qed.

(** Scaling a length [r >= 0] by a fraction of [0, 1] and by a factor of
    [-1, 1] stays within [-r, r]. *)
Lemma scaled_within (f r c : Q) :
  0 <= f -> f <= 1 -> 0 <= r -> -1 <= c -> c <= 1 ->
  - r <= c * (f * r) /\ c * (f * r) <= r.
Proof.
  intros Hf0 Hf1 Hr Hc0 Hc1.
  assert (Ha0 : 0 <= f * r) by (apply Qmult_le_0_compat; assumption).
  assert (Ha1 : f * r <= r).
  { rewrite <- (Qmult_1_l r) at 2. apply Qmult_le_compat_r; assumption. }
  assert (Hup : c * (f * r) <= 1 * (f * r)) by (apply Qmult_le_compat_r; assumption).
  assert (Hdn : (-1) * (f * r) <= c * (f * r)) by (apply Qmult_le_compat_r; assumption).
  split; lra.
Qed.

(** X7. In the Circular algorithm, for a bin value in [0, 255] and a
    viewport with non-negative sides, the ray is at most
    [0.4 * min(width, height)] long, so its end lies inside the viewport -
    within [0.1 * width, 0.9 * width] x [0.1 * height, 0.9 * height] -
    whatever the angle, and the dot at its end has a radius in [2, 8]. *)
Theorem circular_rays_stay_inside
    (rev : revision) (dims : dimensions) (v : Z) (c s : Q) :
  uint8 v -> 0 <= width dims -> 0 <= height dims ->
  -1 <= c -> c <= 1 -> -1 <= s -> s <= 1 ->
  (0 <= amplitude rev dims v /\ amplitude rev dims v <= maxRadius dims) /\
  ((1 # 10) * width dims <= (rayEnd rev dims v c s).1 /\
   (rayEnd rev dims v c s).1 <= (9 # 10) * width dims) /\
  ((1 # 10) * height dims <= (rayEnd rev dims v c s).2 /\
   (rayEnd rev dims v c s).2 <= (9 # 10) * height dims) /\
  (2 <= circleSize rev v /\ circleSize rev v <= 8).
Proof.
  intros Hv Hw Hh Hc0 Hc1 Hs0 Hs1.
  destruct (fraction_bounds rev v Hv) as [Hf0 Hf1].
  destruct (maxRadius_bounds dims Hw Hh) as [Hr0 [Hrw Hrh]].
  destruct (scaled_within _ _ c Hf0 Hf1 Hr0 Hc0 Hc1) as [Hcl Hcu].
  destruct (scaled_within _ _ s Hf0 Hf1 Hr0 Hs0 Hs1) as [Hsl Hsu].
  destruct (scaled_within _ _ 1 Hf0 Hf1 Hr0 ltac:(discriminate) ltac:(discriminate))
    as [_ Hau].
  unfold rayEnd, amplitude. cbn [fst snd]. rewrite !half_of.
  split.
  { split; [apply Qmult_le_0_compat; assumption|lra]. }
  split; [split; lra|]. split; [split; lra|].
  unfold circleSize. split.
  - apply Q.le_max_l.
  - apply Q.max_lub; [discriminate|]. lra.
Qed.

Lemma circular_rays_stay_inside_witness :
  (1 # 10) * 800 <= (rayEnd Tuned viewport800x600 120 (3 # 5) (-4 # 5)).1 /\
  circleSize Tuned 120 <= 8.
Proof.
  assert (Hv : uint8 120) by (unfold uint8; lia).
  assert (Hw : 0 <= width viewport800x600) by discriminate.
  assert (Hh : 0 <= height viewport800x600) by discriminate.
  assert (Hc0 : -1 <= 3 # 5) by discriminate.
  assert (Hc1 : 3 # 5 <= 1) by discriminate.
  assert (Hs0 : -1 <= -4 # 5) by discriminate.
  assert (Hs1 : -4 # 5 <= 1) by discriminate.
  pose proof (circular_rays_stay_inside Tuned viewport800x600 120 (3 # 5) (-4 # 5)
                Hv Hw Hh Hc0 Hc1 Hs0 Hs1) as H.
  split; apply H.
Defined.

(** *** Wave *)

Lemma wavePoint_inside rev dims n i v s :
  uint8 v -> (i < n)%nat -> 0 <= width dims -> 0 <= height dims ->
  -1 <= s -> s <= 1 ->
  let p := wavePoint rev dims n i v s in
  (0 <= p.1 /\ p.1 <= width dims) /\
  ((1 # 10) * height dims <= p.2 /\ p.2 <= (9 # 10) * height dims).
Proof.
  intros Hv Hi Hw Hh Hs0 Hs1. unfold wavePoint. cbn [fst snd]. rewrite half_of.
  destruct (fraction_bounds rev v Hv) as [Hf0 Hf1].
  assert (Hn : 0 < inject_Z (Z.of_nat n)).
  { change 0 with (inject_Z 0). rewrite <- Zlt_Qlt. lia. }
  assert (Hr0 : 0 <= inject_Z (Z.of_nat i) / inject_Z (Z.of_nat n)).
  { apply Qle_shift_div_l; [exact Hn|]. rewrite Qmult_0_l.
    change 0 with (inject_Z 0). rewrite <- Zle_Qle. lia. }
  assert (Hr1 : inject_Z (Z.of_nat i) / inject_Z (Z.of_nat n) <= 1).
  { apply Qle_shift_div_r; [exact Hn|]. rewrite Qmult_1_l.
    rewrite <- Zle_Qle. lia. }
  split.
  - split; [apply Qmult_le_0_compat; assumption|].
    rewrite <- (Qmult_1_l (width dims)) at 2. apply Qmult_le_compat_r; assumption.
  - assert (Hr : 0 <= height dims * (4 # 10)) by lra.
    destruct (scaled_within _ _ s Hf0 Hf1 Hr Hs0 Hs1) as [Hl Hu].
    assert (E : amplifiedValue rev v / 255 * height dims * (4 # 10) * s
                == s * (amplifiedValue rev v / 255 * (height dims * (4 # 10)))) by ring.
    rewrite E. split; lra.
Qed.

(** X8. The path [drawWave] builds has one command per bin between its
    first [moveTo] and its last [lineTo]; for bin values in [0, 255], a
    viewport with non-negative sides and sine values in [-1, 1], every
    point of the path lies within [0, width] x [0.1 * height, 0.9 * height],
    and the path starts at the left edge and ends at the right edge, both
    at mid-height. *)
Theorem wave_path_stays_inside
    (rev : revision) (dims : dimensions) (sine : nat -> Q) (data : list Z) :
  Forall uint8 data -> 0 <= width dims -> 0 <= height dims ->
  (forall i, -1 <= sine i /\ sine i <= 1) ->
  let path := drawWave rev dims sine data in
  length path = (length data + 2)%nat /\
  head path = Some (MoveTo 0 (height dims / 2)) /\
  last path = Some (LineTo (width dims) (height dims / 2)) /\
  Forall (fun op =>
            (0 <= (target op).1 /\ (target op).1 <= width dims) /\
            ((1 # 10) * height dims <= (target op).2 /\
             (target op).2 <= (9 # 10) * height dims)) path.
Proof.
  intros Hdata Hw Hh Hsine path. unfold path, drawWave.
  split; [simpl; rewrite length_app, length_imap; simpl; lia|].
  split; [reflexivity|].
  split.
  { rewrite app_comm_cons. apply last_snoc. }
  apply Forall_cons. split.
  { cbn [target fst snd]. rewrite half_of. repeat split; lra. }
  apply Forall_app. split.
  - apply Forall_forall. intros op Hop.
    apply elem_of_lookup_imap in Hop. destruct Hop as [i [v [-> Hi]]].
    assert (Hv : uint8 v).
    { rewrite Forall_forall in Hdata. apply Hdata.
      apply list_elem_of_lookup. exists i. exact Hi. }
    assert (Hlt : (i < length data)%nat) by (eapply lookup_lt_Some; exact Hi).
    destruct (Hsine i) as [Hs0 Hs1].
    pose proof (wavePoint_inside rev dims (length data) i v (sine i)
                  Hv Hlt Hw Hh Hs0 Hs1) as Hp.
    cbv zeta in Hp |- *. destruct (Nat.eqb i 0); exact Hp.
  - apply Forall_cons. split; [|constructor].
    cbn [target fst snd]. rewrite half_of. repeat split; lra.
Qed.

Lemma wave_path_stays_inside_witness :
  length (drawWave Base viewport800x600 (fun i => if Nat.even i then 1 else -1)
            [255; 10; 0]%Z) = 5%nat.
Proof.
  apply (wave_path_stays_inside Base viewport800x600
           (fun i => if Nat.even i then 1 else -1) [255; 10; 0]%Z).
  - repeat constructor; unfold uint8; lia.
  - discriminate.
  - discriminate.
  - intros i. destruct (Nat.even i); split; discriminate.
Defined.

(** *** How the particles are painted *)

(** The intensity of a snapshot with at least one bin is a number of
    [0, 1]. *)
Lemma intensity_range (rev : revision) (data : list Z) :
  data <> [] -> Forall uint8 data ->
  exists i, intensity rev data = Num i /\ 0 <= i /\ i <= 1.
Proof.
  intros Hne Hall.
  destruct (averageFrequency_bounds data Hne Hall) as [avg [Havg [Hlo Hhi]]].
  assert (Hfrac : 0 <= avg / 255 /\ avg / 255 <= 1).
  { split.
    - apply Qle_shift_div_l; [reflexivity|]. rewrite Qmult_0_l. exact Hlo.
    - apply Qle_shift_div_r; [reflexivity|]. rewrite Qmult_1_l. exact Hhi. }
  unfold intensity. rewrite Havg. destruct rev; simpl.
  - eexists. split; [reflexivity|]. exact Hfrac.
  - eexists. split; [reflexivity|]. split.
    + apply Q.min_glb; [discriminate|]. lra.
    + apply Q.le_min_l.
Qed.

Lemma sizeReactivity_pos rev : 0 <= sizeReactivity rev.
Proof. destruct rev; discriminate. Qed.

(** X9. For a snapshot with at least one bin and bin values in [0, 255],
    a particle of radius [size >= 0] is painted with a radius between
    [size] and [size * (1 + k)] ([k] is 2 or 3) and with an opacity between
    0.7 and 1. *)
Theorem particle_paint_ranges (rev : revision) (data : list Z) (p : particle) :
  data <> [] -> Forall uint8 data -> 0 <= size p ->
  exists r a,
    drawnSize rev (intensity rev data) p = Num r /\
    (size p <= r /\ r <= size p * (1 + sizeReactivity rev)) /\
    particleAlpha (intensity rev data) = Num a /\
    (7 # 10 <= a /\ a <= 1).
Proof.
  intros Hne Hall Hsize.
  destruct (intensity_range rev data Hne Hall) as [i [Hi [Hi0 Hi1]]].
  rewrite Hi.
  unfold drawnSize, particleAlpha. simpl.
  eexists. eexists. split; [reflexivity|].
  pose proof (sizeReactivity_pos rev) as Hk.
  assert (Hik0 : 0 <= i * sizeReactivity rev) by (apply Qmult_le_0_compat; assumption).
  assert (Hik1 : i * sizeReactivity rev <= 1 * sizeReactivity rev).
  { apply Qmult_le_compat_r; assumption. }
  split.
  - split.
    + rewrite <- (Qmult_1_r (size p)) at 1.
      rewrite !(Qmult_comm (size p)). apply Qmult_le_compat_r; [lra|exact Hsize].
    + rewrite !(Qmult_comm (size p)). apply Qmult_le_compat_r; [lra|exact Hsize].
  - split; [reflexivity|]. split; lra.
Qed.

Lemma particle_paint_ranges_witness :
  exists r a,
    drawnSize Tuned (intensity Tuned [30; 60]%Z)
      (newParticle (fun _ => 1 # 2) viewport800x600 0) = Num r /\
    particleAlpha (intensity Tuned [30; 60]%Z) = Num a /\ a <= 1.
Proof.
  destruct (particle_paint_ranges Tuned [30; 60]%Z
              (newParticle (fun _ => 1 # 2) viewport800x600 0))
    as [r [a [Hr [_ [Ha [_ Ha1]]]]]].
  - discriminate.
  - repeat constructor; unfold uint8; lia.
  - discriminate.
  - exists r, a. split; [exact Hr|]. split; [exact Ha|exact Ha1].
Defined.

Lemma reach_bounds (i : Q) :
  0 <= i -> i <= 1 -> exists r, reach (Num i) = Num r /\ 100 <= r /\ r <= 200.
Proof.
  intros H0 H1. unfold reach. simpl. eexists. split; [reflexivity|]. split; lra.
Qed.

(** X10. For a snapshot with at least one bin and bin values in [0, 255],
    two particles at distance [d >= 0] are joined by a line whenever
    [d < 100] and never when [d >= 200]; when they are joined the line's
    opacity lies in (0, 0.5], and of two joined pairs the closer one is
    drawn at least as opaque. *)
Theorem connector_opacity (rev : revision) (data : list Z) (d d' : Q) :
  data <> [] -> Forall uint8 data -> 0 <= d -> d <= d' ->
  let i := intensity rev data in
  (d < 100 -> connects i d = true) /\
  (200 <= d -> connects i d = false) /\
  (connects i d' = true -> connects i d = true) /\
  (connects i d = true ->
   exists a, connectorAlpha i d = Num a /\ 0 < a /\ a <= 5 # 10) /\
  (connects i d' = true ->
   exists a a', connectorAlpha i d = Num a /\ connectorAlpha i d' = Num a' /\ a' <= a).
Proof.
  intros Hne Hall Hd Hdd' i. subst i.
  destruct (intensity_range rev data Hne Hall) as [i [Hi [Hi0 Hi1]]].
  rewrite Hi.
  destruct (reach_bounds i Hi0 Hi1) as [r [Hr [Hr0 Hr1]]].
  unfold connects, connectorAlpha, lt, gt. rewrite Hr.
  assert (Hrpos : 0 < r) by lra.
  assert (Hfrac : forall x, 0 <= x -> x < r -> 0 <= x / r /\ x / r < 1).
  { intros x Hx0 Hx1. split.
    - apply Qle_shift_div_l; [exact Hrpos|]. rewrite Qmult_0_l. exact Hx0.
    - apply Qlt_shift_div_r; [exact Hrpos|]. rewrite Qmult_1_l. exact Hx1. }
  split; [intros Hlt; apply Qltb_lt; lra|].
  split; [intros Hge; apply Qltb_ge; lra|].
  split; [intros H; apply Qltb_lt in H; apply Qltb_lt; lra|].
  split.
  - intros H. apply Qltb_lt in H. destruct (Hfrac d Hd H) as [Hf0 Hf1].
    eexists. split; [reflexivity|]. split; lra.
  - intros H. apply Qltb_lt in H.
    eexists. eexists. split; [reflexivity|]. split; [reflexivity|].
    assert (Hdiv : d / r <= d' / r).
    { unfold Qdiv. apply Qmult_le_compat_r; [exact Hdd'|].
      apply Qlt_le_weak, Qinv_lt_0_compat. exact Hrpos. }
    lra.
Qed.

Lemma connector_opacity_witness :
  connects (intensity Base [255; 255]%Z) 90 = true /\
  (connects (intensity Base [255; 255]%Z) 150 = true ->
   connects (intensity Base [255; 255]%Z) 90 = true).
Proof.
  assert (Hne : [255; 255]%Z <> []) by discriminate.
  assert (Hall : Forall uint8 [255; 255]%Z) by (repeat constructor; unfold uint8; lia).
  assert (Hd : 0 <= 90) by discriminate.
  assert (Hdd : 90 <= 150) by discriminate.
  destruct (connector_opacity Base [255; 255]%Z 90 150 Hne Hall Hd Hdd)
    as [Hnear [_ [Hcloser _]]].
  split; [apply Hnear; reflexivity|exact Hcloser].
Defined.

(** On a snapshot without bins no pair is joined. *)
Lemma connects_nan d : connects NaN d = false.
Proof. reflexivity. Qed.

(** *** The starter visualization *)

Lemma defaultData_range (rnd : nat -> Q) :
  unitRandom rnd -> Forall (fun v => (0 <= v <= 49)%Z) (defaultData rnd).
Proof.
  intros Hrnd. unfold defaultData. apply Forall_map, Forall_forall. intros i _.
  destruct (Hrnd i) as [Hlo Hhi]. simpl.
  assert (H0 : 0 <= rnd i * 50) by lra.
  assert (H50 : rnd i * 50 < 50) by lra.
  rewrite toUint8_floor by lra.
  pose proof (Qfloor_resp_le _ _ H0) as Hf0.
  change 0 with (inject_Z 0) in Hf0. rewrite Qfloor_Z in Hf0.
  pose proof (Qfloor_le (rnd i * 50)) as Hle.
  assert (Hlt : inject_Z (Qfloor (rnd i * 50)) < inject_Z 50).
  { eapply Qle_lt_trans; [exact Hle|exact H50]. }
  rewrite <- Zlt_Qlt in Hlt. lia.
Qed.

Lemma barHeight_starter (dims : dimensions) (v : Z) :
  (0 <= v <= 49)%Z -> 0 <= height dims ->
  0 <= barHeight Tuned dims v /\ barHeight Tuned dims v <= (98 # 255) * height dims.
Proof.
  intros [Hlo Hhi] Hh. unfold barHeight, amplifiedValue. cbn [gain].
  assert (Hv0 : 0 <= inject_Z v).
  { change 0 with (inject_Z 0). rewrite <- Zle_Qle. exact Hlo. }
  assert (Hv49 : inject_Z v <= 49).
  { change 49 with (inject_Z 49). rewrite <- Zle_Qle. exact Hhi. }
  assert (Hmin : Qmin 255 (inject_Z v * (5 # 2)) == inject_Z v * (5 # 2)).
  { apply Q.min_r. lra. }
  rewrite Hmin.
  assert (E : inject_Z v * (5 # 2) / 255 * height dims * (8 # 10) ==
              inject_Z v * ((2 # 255) * height dims)) by (field; discriminate).
  rewrite E.
  assert (Hk : 0 <= (2 # 255) * height dims) by (apply Qmult_le_0_compat; [discriminate|exact Hh]).
  split.
  - apply Qmult_le_0_compat; assumption.
  - assert (E2 : (98 # 255) * height dims == 49 * ((2 # 255) * height dims)) by ring.
    rewrite E2. apply Qmult_le_compat_r; assumption.
Qed.

Lemma starter_heights (dims : dimensions) (bars : list bar) (data : list Z) :
  0 <= height dims ->
  Forall2 (fun b v => bar_height b = barHeight Tuned dims v) bars data ->
  Forall (fun v => (0 <= v <= 49)%Z) data ->
  Forall (fun b => 0 <= bar_height b /\ bar_height b <= (98 # 255) * height dims) bars.
Proof.
  intros Hh Hheights. induction Hheights as [|b v bars data Hb _ IH]; intros Hrange;
    [constructor|].
  apply Forall_cons in Hrange. destruct Hrange as [Hv Hrange].
  constructor; [|apply IH, Hrange].
  rewrite Hb. apply barHeight_starter; assumption.
Qed.

(** X11. The starter visualization is low.  Before any snapshot arrives
    the Tuned revision paints bars for 128 random bytes below 50: for a
    mode that is no inherited property name and [Math.random()] in [0, 1),
    the painting completes with 128 bars and, in a viewport of non-negative
    height, no bar is taller than 98/255 - under 38.5% - of the height. *)
Theorem starter_bars_stay_low
    (mode : string) (dims : dimensions) (rnd : nat -> Q) :
  unitRandom rnd -> inherited mode = false -> 0 <= height dims ->
  exists bars,
    starterBars mode dims rnd = Completed bars /\ length bars = 128%nat /\
    Forall (fun b => 0 <= bar_height b /\ bar_height b <= (98 # 255) * height dims) bars.
Proof.
  intros Hrnd Hinh Hh.
  destruct (schemeOrBars_cases mode) as [[Hyes _]|[colors [Hs Hlen]]];
    [congruence|].
  destruct (drawBars_completed Tuned mode dims colors (defaultData rnd) Hs Hlen)
    as [bars [Hrun Hheights]].
  exists bars. split; [exact Hrun|]. split.
  - rewrite (Forall2_length _ _ _ Hheights). unfold defaultData.
    rewrite length_map, length_seq. reflexivity.
  - apply (starter_heights dims bars (defaultData rnd) Hh Hheights).
    apply defaultData_range, Hrnd.
Qed.

Lemma starter_bars_stay_low_witness :
  exists bars,
    starterBars "bars" viewport800x600 (fun n => inject_Z (Z.of_nat (n mod 7)) / 7)
    = Completed bars /\ length bars = 128%nat.
Proof.
  assert (Hrnd : unitRandom (fun n => inject_Z (Z.of_nat (n mod 7)) / 7)).
  { intros n. pose proof (Nat.mod_upper_bound n 7) as Hm. split.
    - apply Qle_shift_div_l; [reflexivity|]. rewrite Qmult_0_l.
      change 0 with (inject_Z 0). rewrite <- Zle_Qle. lia.
    - apply Qlt_shift_div_r; [reflexivity|]. rewrite Qmult_1_l.
      change 7 with (inject_Z 7). rewrite <- Zlt_Qlt. lia. }
  assert (Hinh : inherited "bars" = false) by reflexivity.
  assert (Hh : 0 <= height viewport800x600) by discriminate.
  destruct (starter_bars_stay_low "bars" viewport800x600 _ Hrnd Hinh Hh)
    as [bars [Hrun [Hlen _]]].
  exists bars. split; [exact Hrun|exact Hlen].
Defined.

End VisualizerProps.

(** ** The note-synthesis engine *)

Module AudioEngineProps.
Import JS JSFacts AudioEngine.

(** *** The model on concrete inputs *)

(** Press "a", hold it for a quarter of a second, release it, wait for the
    release to end. *)
Example press_hold_release :
  let e := run Plain [KeyDown "a"; Elapse 250; KeyUp "a"; Elapse 100]
             (mount Plain false (fun _ => 0%Q)) in
  calls e =
    [CreateOscillator 0; CreateGain 1; SetTypeSine 0;
     FrequencySetValueAtTime 0 (26163 # 100) 0;
     ConnectOscillator 0 1; ConnectToAnalyser 1; Start 0;
     GainSetValueAtTime 1 0 0; GainLinearRampToValueAtTime 1 (3 # 10) 100;
     GainLinearRampToValueAtTime 1 0 350; Stop 0] /\
  oscillators e = ∅ /\ gains e = ∅ /\ activeKeys e = ∅ /\ timers e = [].
Proof. vm_compute. repeat split; reflexivity. Qed.

(** Before the release has run its 100 ms the voice is still registered. *)
Example release_window :
  let e := run Plain [KeyDown "a"; KeyUp "a"; Elapse 99]
             (mount Plain false (fun _ => 0%Q)) in
  oscillators e !! "a" = Some 0 /\ timers e = [(100, "a"%string)].
Proof. vm_compute. split; reflexivity. Qed.

(** A key that is not listed leaves the engine as it is. *)
Example unlisted_key :
  let e := run Boosted [KeyDown "a"] (mount Boosted false (fun _ => 0%Q)) in
  handleKeyDown Boosted "q" e = e /\ handleKeyDown Boosted "enter" e = e.
Proof. split; vm_compute; reflexivity. Qed.

(** Two releases of one press (pointer up, then pointer leaving the key
    within the release window) queue two clean-ups; the second one stops
    the voice of a key pressed again in between. *)
Example second_cleanup_stops_repressed_key :
  let e := run Plain [KeyDown "a"; KeyUp "a"; Elapse 50; KeyUp "a"; Elapse 50;
                      KeyDown "a"; Elapse 50]
             (mount Plain false (fun _ => 0%Q)) in
  sounding (calls e) = ∅ /\ activeKeys e = ∅ /\
  In (Start 2) (calls e) /\ In (Stop 2) (calls e).
Proof. vm_compute. repeat split; tauto. Qed.

Example boostSlots_a : boostSlots (26163 # 100) 128 = [5; 6; 7; 8; 9; 10; 11; 12; 13; 14].
Proof. reflexivity. Qed.

Example boostSlots_j :
  boostSlots (49388 # 100) 128 = [109; 110; 111; 112; 113; 114; 115; 116; 117; 118].
Proof. reflexivity. Qed.

(** *** The note table *)

(** Case analysis on the nine entries of the table. *)
Ltac table_cases key :=
  unfold notNote, recognized, NOTES, assoc, noteTable;
  repeat match goal with
         | |- context [(key =? ?k)%string] => destruct (key =? k)%string
         end.

Lemma recognized_frequency (key : string) :
  recognized key = true ->
  exists hz, NOTES key = Frequency hz /\ In hz (map snd noteTable).
Proof.
  table_cases key; intros H; try discriminate;
    (eexists; split; [reflexivity|simpl; tauto]).
Qed.

Lemma recognized_note (key : string) : recognized key = true -> notNote key = false.
Proof. table_cases key; intros H; try discriminate; reflexivity. Qed.

Lemma frequency_recognized (key : string) (hz : Q) :
  NOTES key = Frequency hz -> recognized key = true.
Proof.
  table_cases key; intros H; try reflexivity.
  destruct (inherited key); discriminate.
Qed.

(** A key that is neither listed nor the name of an inherited property
    misses the table. *)
Lemma unlisted_miss (key : string) :
  recognized key = false -> inherited key = false -> notNote key = true.
Proof.
  table_cases key; intros H Hinh; try discriminate.
  rewrite Hinh. reflexivity.
Qed.

(** A miss is a no-op. *)
Lemma handleKeyDown_miss (rev : revision) (key : string) (e : engine) :
  notNote key = true -> handleKeyDown rev key e = e.
Proof.
  intros H. unfold handleKeyDown. rewrite H, orb_true_r. reflexivity.
Qed.

Lemma unlisted_key_ignored (rev : revision) (key : string) (e : engine) :
  recognized key = false -> inherited key = false -> handleKeyDown rev key e = e.
Proof.
  intros H Hinh. apply handleKeyDown_miss, unlisted_miss; assumption.
Qed.

(** C9, at the key "constructor".  The key is not one of the nine listed,
    yet [NOTES["constructor"]] finds the inherited function, the guard lets
    the event through, and - once the audio context exists - two nodes are
    created before [setValueAtTime] raises: the note-on is neither ignored
    nor silent.  No voice is registered. *)
Theorem inherited_key_not_ignored (rev : revision) (rnd : nat -> Q) :
  let e := handleFirstInteraction rev (mount rev false rnd) in
  let e' := handleKeyDown rev "constructor" e in
  recognized "constructor" = false /\
  NOTES "constructor" = Builtin /\
  notNote "constructor" = false /\
  calls e' = calls e ++ [CreateOscillator 0; CreateGain 1; SetTypeSine 0;
                         UncaughtTypeError] /\
  nextNode e = 0%nat /\ nextNode e' = 2%nat /\
  oscillators e' = ∅ /\ gains e' = ∅ /\ activeKeys e' = ∅.
Proof.
  destruct rev; repeat split; vm_compute; reflexivity.
Qed.

(** *** Coherence of the registry *)

Lemma sounding_app (cs cs' : list call) :
  sounding (cs ++ cs') =
  foldl (fun s c =>
           match c with
           | Start o => s ∪ {[o]}
           | Stop o => s ∖ {[o]}
           | _ => s
           end) (sounding cs) cs'.
Proof. unfold sounding. apply foldl_app. Qed.

Lemma sounding_quiet (cs cs' : list call) :
  forallb quiet cs' = true -> sounding (cs ++ cs') = sounding cs.
Proof.
  rewrite sounding_app. generalize (sounding cs).
  induction cs' as [|c cs' IH]; intros s H; simpl in *; [reflexivity|].
  apply andb_prop in H. destruct H as [Hc H].
  destruct c; try discriminate; apply IH; exact H.
Qed.

(** A state that agrees with a coherent one on the registry and on the
    sounding oscillators, and has lost neither nodes nor its audio context,
    is coherent. *)
Lemma coherent_same (rev : revision) (e e' : engine) :
  coherent rev e ->
  oscillators e' = oscillators e -> gains e' = gains e ->
  activeKeys e' = activeKeys e -> nextNode e <= nextNode e' ->
  sounding (calls e') = sounding (calls e) ->
  audioContext e' = analyser e' ->
  (audioContext e = true -> audioContext e' = true) ->
  (audioContext e' = true ->
   exists buf, dataArray e' = Some buf /\ length buf = frequencyBinCount) ->
  coherent rev e'.
Proof.
  intros H Ho Hg Ha Hn Hs Hc Hm Hd. constructor.
  - rewrite Ho, Ha. apply (coh_osc _ _ H).
  - rewrite Hg, Ha. apply (coh_gain _ _ H).
  - exact Hc.
  - rewrite Ha. intros k Hk. apply Hm, (coh_live _ _ H k Hk).
  - intros Hrev. apply Hm, (coh_boosted _ _ H Hrev).
  - exact Hd.
  - rewrite Ho. intros k o Hk. pose proof (coh_fresh _ _ H k o Hk). lia.
  - rewrite Ho. apply (coh_inj _ _ H).
  - rewrite Ho, Hs. apply (coh_sound _ _ H).
Qed.

(** The instance for a state with the same audio context. *)
Lemma coherent_same_context (rev : revision) (e e' : engine) :
  coherent rev e ->
  oscillators e' = oscillators e -> gains e' = gains e ->
  activeKeys e' = activeKeys e -> nextNode e <= nextNode e' ->
  sounding (calls e') = sounding (calls e) ->
  audioContext e' = audioContext e -> analyser e' = analyser e ->
  dataArray e' = dataArray e ->
  coherent rev e'.
Proof.
  intros H Ho Hg Ha Hn Hs Hc Han Hd.
  apply (coherent_same rev e); try assumption.
  - rewrite Hc, Han. apply (coh_ctx _ _ H).
  - rewrite Hc. tauto.
  - rewrite Hc, Hd. apply (coh_data _ _ H).
Qed.

Lemma coherent_emit rev cs e :
  forallb quiet cs = true -> coherent rev e -> coherent rev (emit cs e).
Proof.
  intros Hq H.
  apply (coherent_same_context rev e); try reflexivity; try exact H.
  simpl. apply sounding_quiet. exact Hq.
Qed.

Lemma coherent_setDataArray rev buf e :
  length buf = frequencyBinCount -> coherent rev e ->
  coherent rev (setDataArray (Some buf) e).
Proof.
  intros Hlen H.
  apply (coherent_same rev e); try reflexivity; try exact H.
  - apply (coh_ctx _ _ H).
  - tauto.
  - intros _. exists buf. split; [reflexivity|exact Hlen].
Qed.

Lemma coherent_schedule rev due key e :
  coherent rev e -> coherent rev (schedule due key e).
Proof.
  intros H. apply (coherent_same_context rev e); try reflexivity; exact H.
Qed.

Lemma coherent_setClock rev t pending e :
  coherent rev e -> coherent rev (setClock t pending e).
Proof.
  intros H. apply (coherent_same_context rev e); try reflexivity; exact H.
Qed.

Lemma coherent_setSuspended rev b e :
  coherent rev e -> coherent rev (setSuspended b e).
Proof.
  intros H. apply (coherent_same_context rev e); try reflexivity; exact H.
Qed.

Lemma coherent_allocate rev n e :
  coherent rev e -> coherent rev (allocate n e).
Proof.
  intros H. apply (coherent_same_context rev e); try reflexivity; try exact H.
  simpl. lia.
Qed.

Lemma length_seedBuffer rnd : length (seedBuffer rnd) = frequencyBinCount.
Proof. unfold seedBuffer. rewrite length_map, length_seq. reflexivity. Qed.

(** A state whose registry is empty and in which nothing sounds. *)
Lemma coherent_silent rev e :
  oscillators e = ∅ -> gains e = ∅ -> activeKeys e = ∅ ->
  sounding (calls e) = ∅ ->
  audioContext e = analyser e ->
  (rev = Boosted -> audioContext e = true) ->
  (audioContext e = true ->
   exists buf, dataArray e = Some buf /\ length buf = frequencyBinCount) ->
  coherent rev e.
Proof.
  intros Ho Hg Ha Hs Hc Hb Hd. constructor.
  - rewrite Ho, Ha. apply dom_empty_L.
  - rewrite Hg, Ha. apply dom_empty_L.
  - exact Hc.
  - rewrite Ha. intros k Hk. set_solver.
  - exact Hb.
  - exact Hd.
  - rewrite Ho. intros k o Hk. rewrite lookup_empty in Hk. discriminate.
  - rewrite Ho. intros k1 k2 o Hk. rewrite lookup_empty in Hk. discriminate.
  - rewrite Ho, Hs. intros o. split.
    + intros Hin. set_solver.
    + intros [k Hk]. rewrite lookup_empty in Hk. discriminate.
Qed.

Lemma coherent_mount rev susp rnd : coherent rev (mount rev susp rnd).
Proof.
  destruct rev; apply coherent_silent; try reflexivity; try discriminate.
  intros _. exists (seedBuffer rnd). split; [reflexivity|apply length_seedBuffer].
Qed.

Lemma coherent_handleFirstInteraction rev e :
  coherent rev e -> coherent rev (handleFirstInteraction rev e).
Proof.
  intros H. destruct rev; simpl.
  - destruct (audioContext e && suspended e); [|exact H].
    apply coherent_emit; [reflexivity|exact H].
  - destruct (audioContext e) eqn:Hctx; [exact H|].
    apply (coherent_same Plain e); try reflexivity; try exact H.
    intros _. exists (replicate frequencyBinCount 0%Z).
    split; [reflexivity|apply length_replicate].
Qed.

Lemma audioReady_after_first_interaction rev e :
  coherent rev e -> audioReady (handleFirstInteraction rev e) = true.
Proof.
  intros H. unfold audioReady. destruct rev; simpl.
  - pose proof (coh_boosted _ _ H eq_refl) as Hctx.
    pose proof (coh_ctx _ _ H) as Han. rewrite Hctx in Han.
    destruct (audioContext e && suspended e); simpl; rewrite <- Han, ?Hctx; reflexivity.
  - destruct (audioContext e) eqn:Hctx; simpl.
    + rewrite Hctx. rewrite <- (coh_ctx _ _ H), Hctx. reflexivity.
    + reflexivity.
Qed.

Lemma length_foldl_insert {A} (f : nat -> nat) (v : A) (slots : list nat) :
  forall buf : list A,
    length (foldl (fun b i => <[f i := v]> b) buf slots) = length buf.
Proof.
  induction slots as [|i slots IH]; intros buf; simpl; [reflexivity|].
  rewrite IH. apply length_insert.
Qed.

Lemma length_boost hz buf : length (boost hz buf) = length buf.
Proof.
  unfold boost. destruct buf as [|v buf]; [reflexivity|].
  apply length_foldl_insert.
Qed.

Lemma coherent_boostData rev hz e :
  coherent rev e -> coherent rev (boostData hz e).
Proof.
  intros H. unfold boostData.
  destruct (dataArray e) as [buf|] eqn:Hd; [|exact H].
  apply coherent_emit; [reflexivity|].
  destruct (audioContext e) eqn:Hctx.
  - apply coherent_setDataArray; [|exact H].
    destruct (coh_data _ _ H Hctx) as [buf' [Hbuf' Hlen]].
    rewrite Hd in Hbuf'. injection Hbuf' as ->.
    rewrite length_boost. exact Hlen.
  - apply (coherent_same rev e); try reflexivity; try exact H.
    + apply (coh_ctx _ _ H).
    + tauto.
    + simpl. rewrite Hctx. discriminate.
Qed.

(** Registering a freshly created and started voice. *)
Lemma coherent_register rev rev' key hz t e :
  coherent rev e -> key ∉ activeKeys e -> audioContext e = true ->
  coherent rev
    (register key (nextNode e) (S (nextNode e))
       (emit (voiceCalls rev' (nextNode e) (S (nextNode e)) hz t) (allocate 2 e))).
Proof.
  intros H Hkey Hctx.
  assert (Hnone : oscillators e !! key = None).
  { apply not_elem_of_dom. rewrite (coh_osc _ _ H). exact Hkey. }
  assert (Hnew : forall k o, <[key:=nextNode e]> (oscillators e) !! k = Some o ->
                   (k = key /\ o = nextNode e) \/
                   (k <> key /\ oscillators e !! k = Some o /\ o < nextNode e)).
  { intros k o Hk. destruct (decide (key = k)) as [<-|Hne].
    - rewrite lookup_insert_eq in Hk. injection Hk as <-. left. tauto.
    - rewrite lookup_insert_ne in Hk by exact Hne. right.
      split; [congruence|]. split; [exact Hk|exact (coh_fresh _ _ H k o Hk)]. }
  constructor; simpl.
  - rewrite dom_insert_L, (coh_osc _ _ H). apply union_comm_L.
  - rewrite dom_insert_L, (coh_gain _ _ H). apply union_comm_L.
  - apply (coh_ctx _ _ H).
  - intros _ _. exact Hctx.
  - intros _. exact Hctx.
  - apply (coh_data _ _ H).
  - intros k o Hk. destruct (Hnew k o Hk) as [[_ ->]|[_ [_ Hlt]]]; lia.
  - intros k1 k2 o Hk1 Hk2.
    destruct (Hnew k1 o Hk1) as [[-> Ho1]|[_ [Hr1 Hlt1]]];
      destruct (Hnew k2 o Hk2) as [[-> Ho2]|[_ [Hr2 Hlt2]]]; try lia.
    + reflexivity.
    + exact (coh_inj _ _ H k1 k2 o Hr1 Hr2).
  - intros o. rewrite sounding_app. cbn [foldl voiceCalls].
    rewrite elem_of_union, elem_of_singleton, (coh_sound _ _ H o). split.
    + intros [[k Hk]|Ho].
      * exists k. rewrite lookup_insert_ne; [exact Hk|].
        intros <-. rewrite Hnone in Hk. discriminate.
      * exists key. rewrite Ho. apply lookup_insert_eq.
    + intros [k Hk]. destruct (Hnew k o Hk) as [[_ Ho]|[_ [Hr _]]].
      * right. exact Ho.
      * left. exists k. exact Hr.
Qed.

Lemma coherent_handleKeyDown rev rev' key e :
  coherent rev e -> coherent rev (handleKeyDown rev' key e).
Proof.
  intros H. unfold handleKeyDown.
  destruct (bool_decide (key ∈ activeKeys e)) eqn:Hact; simpl; [exact H|].
  apply bool_decide_eq_false in Hact.
  destruct (notNote key); [exact H|].
  destruct (audioReady e) eqn:Hready; [|exact H].
  unfold audioReady in Hready. apply andb_prop in Hready. destruct Hready as [Hctx _].
  set (e1 := if suspended e then emit [Resume] e else e).
  assert (H1 : coherent rev e1).
  { unfold e1. destruct (suspended e); [|exact H].
    apply coherent_emit; [reflexivity|exact H]. }
  assert (Hact1 : key ∉ activeKeys e1).
  { unfold e1. destruct (suspended e); exact Hact. }
  assert (Hctx1 : audioContext e1 = true).
  { unfold e1. destruct (suspended e); exact Hctx. }
  clearbody e1.
  destruct (NOTES key) as [hz| |].
  - pose proof (coherent_register rev rev' key hz (now e1) e1 H1 Hact1 Hctx1) as H2.
    destruct rev'; [apply coherent_boostData|]; exact H2.
  - apply coherent_emit; [reflexivity|]. apply coherent_allocate. exact H1.
  - apply coherent_emit; [reflexivity|]. apply coherent_allocate. exact H1.
Qed.

Lemma coherent_handleKeyUp rev key e :
  coherent rev e -> coherent rev (handleKeyUp key e).
Proof.
  intros H. unfold handleKeyUp.
  destruct (notNote key); [exact H|].
  destruct (audioContext e && bool_decide (is_Some (oscillators e !! key))); [|exact H].
  destruct (gains e !! key) as [g|]; [|exact H].
  apply coherent_schedule, coherent_emit; [reflexivity|exact H].
Qed.

Lemma coherent_release rev key e :
  coherent rev e -> coherent rev (release key e).
Proof.
  intros H. unfold release.
  destruct (oscillators e !! key) as [o|] eqn:Hreg.
  - constructor; simpl.
    + rewrite !dom_delete_L, (coh_osc _ _ H). reflexivity.
    + rewrite !dom_delete_L, (coh_gain _ _ H). reflexivity.
    + apply (coh_ctx _ _ H).
    + intros k Hk. apply (coh_live _ _ H k).
      apply elem_of_difference in Hk. tauto.
    + apply (coh_boosted _ _ H).
    + apply (coh_data _ _ H).
    + intros k o' Hk. apply lookup_delete_Some in Hk. destruct Hk as [_ Hk].
      exact (coh_fresh _ _ H k o' Hk).
    + intros k1 k2 o' Hk1 Hk2.
      apply lookup_delete_Some in Hk1. apply lookup_delete_Some in Hk2.
      exact (coh_inj _ _ H k1 k2 o' (proj2 Hk1) (proj2 Hk2)).
    + intros o'. rewrite sounding_app. cbn [foldl].
      rewrite elem_of_difference, elem_of_singleton, (coh_sound _ _ H o'). split.
      * intros [[k Hk] Hne]. exists k. apply lookup_delete_Some. split; [|exact Hk].
        intros <-. rewrite Hreg in Hk. injection Hk as ->. contradiction.
      * intros [k Hk]. apply lookup_delete_Some in Hk. destruct Hk as [Hne Hk].
        split; [exists k; exact Hk|].
        intros ->. apply Hne. exact (coh_inj _ _ H key k o Hreg Hk).
  - constructor; simpl.
    + rewrite !dom_delete_L, (coh_osc _ _ H). reflexivity.
    + rewrite !dom_delete_L, (coh_gain _ _ H). reflexivity.
    + apply (coh_ctx _ _ H).
    + intros k Hk. apply (coh_live _ _ H k).
      apply elem_of_difference in Hk. tauto.
    + apply (coh_boosted _ _ H).
    + apply (coh_data _ _ H).
    + intros k o' Hk. apply lookup_delete_Some in Hk. destruct Hk as [_ Hk].
      exact (coh_fresh _ _ H k o' Hk).
    + intros k1 k2 o' Hk1 Hk2.
      apply lookup_delete_Some in Hk1. apply lookup_delete_Some in Hk2.
      exact (coh_inj _ _ H k1 k2 o' (proj2 Hk1) (proj2 Hk2)).
    + intros o'. rewrite (coh_sound _ _ H o'). rewrite delete_id by exact Hreg.
      reflexivity.
Qed.

Lemma coherent_releases rev (due : list (nat * string)) :
  forall e, coherent rev e -> coherent rev (foldl (fun e' p => release p.2 e') e due).
Proof.
  induction due as [|p due IH]; intros e H; simpl; [exact H|].
  apply IH, coherent_release, H.
Qed.

Lemma coherent_elapse rev ms e : coherent rev e -> coherent rev (elapse ms e).
Proof.
  intros H. unfold elapse. apply coherent_releases, coherent_setClock, H.
Qed.

Lemma coherent_updateAnalyser rev rev' spectrum e :
  coherent rev e -> coherent rev (updateAnalyser rev' spectrum e).
Proof.
  intros H. unfold updateAnalyser.
  destruct (analyser e) eqn:Han; [|exact H].
  destruct (dataArray e) as [buf|] eqn:Hd; [|exact H].
  assert (Hctx : audioContext e = true) by (rewrite (coh_ctx _ _ H); exact Han).
  destruct (coh_data _ _ H Hctx) as [buf' [Hbuf' Hlen]].
  rewrite Hd in Hbuf'. injection Hbuf' as <-.
  apply coherent_emit; [reflexivity|].
  apply coherent_setDataArray; [|exact H].
  destruct rev'; rewrite ?length_map, length_seq; exact Hlen.
Qed.

Lemma coherent_step rev e ev : coherent rev e -> coherent rev (step rev e ev).
Proof.
  intros H. destruct ev; simpl.
  - apply coherent_handleKeyDown, coherent_handleFirstInteraction, H.
  - apply coherent_handleKeyUp, H.
  - apply coherent_handleFirstInteraction, H.
  - apply coherent_elapse, H.
  - apply coherent_updateAnalyser, H.
  - apply coherent_setSuspended, H.
Qed.

Lemma coherent_run rev evs :
  forall e, coherent rev e -> coherent rev (run rev evs e).
Proof.
  unfold run. induction evs as [|ev evs IH]; intros e H; simpl; [exact H|].
  apply IH, coherent_step, H.
Qed.

(** Every state the mounted component reaches is coherent. *)
Lemma coherent_reachable rev susp rnd evs :
  coherent rev (run rev evs (mount rev susp rnd)).
Proof. apply coherent_run, coherent_mount. Qed.

(** *** Note on *)

Lemma handleKeyDown_active rev key e :
  key ∈ activeKeys e -> handleKeyDown rev key e = e.
Proof.
  intros H. unfold handleKeyDown.
  rewrite (bool_decide_eq_true_2 _ H). reflexivity.
Qed.

Lemma handleKeyDown_registered rev rev' key e :
  coherent rev e -> is_Some (oscillators e !! key) -> handleKeyDown rev' key e = e.
Proof.
  intros H Hreg. apply handleKeyDown_active.
  rewrite <- (coh_osc _ _ H). apply elem_of_dom. exact Hreg.
Qed.

Lemma activeKeys_boostData hz e : activeKeys (boostData hz e) = activeKeys e.
Proof. unfold boostData. destruct (dataArray e); reflexivity. Qed.

(** With the audio graph in place, a note-on for a listed key leaves the
    key active. *)
Lemma handleKeyDown_activates rev key e :
  recognized key = true -> audioReady e = true ->
  key ∈ activeKeys (handleKeyDown rev key e).
Proof.
  intros Hrec Hready. unfold handleKeyDown.
  destruct (bool_decide (key ∈ activeKeys e)) eqn:Hact; simpl.
  { apply bool_decide_eq_true in Hact. exact Hact. }
  rewrite (recognized_note key Hrec), Hready.
  destruct (recognized_frequency key Hrec) as [hz [Hhz _]]. rewrite Hhz.
  destruct rev; rewrite ?activeKeys_boostData; simpl;
    apply elem_of_union_r, elem_of_singleton; reflexivity.
Qed.

(** The first-interaction listener does not touch the registry. *)
Lemma handleFirstInteraction_registry rev e :
  let e' := handleFirstInteraction rev e in
  oscillators e' = oscillators e /\ gains e' = gains e /\
  activeKeys e' = activeKeys e /\ nextNode e' = nextNode e /\
  sounding (calls e') = sounding (calls e).
Proof.
  destruct rev; simpl.
  - destruct (audioContext e && suspended e); simpl; repeat split.
    apply sounding_quiet. reflexivity.
  - destruct (audioContext e); simpl; repeat split.
Qed.

(** C1. Take any state the mounted component can reach and let a
    'keydown' event for a listed key arrive: [handleFirstInteraction] runs,
    then [handleKeyDown] twice in a row.  While a voice is registered for
    the key [handleKeyDown] is a no-op; the second call is one, so no second
    node is created; and afterwards the registry holds exactly one voice for
    the key - one oscillator entry, one gain entry, the key in the active
    set - whose oscillator sounds and is registered under no other key,
    and no oscillator sounds that the registry does not hold.  A
    second 'keydown' event, first-interaction listener included, leaves
    that registry as it is. *)
Theorem noteOn_twice_single_voice
    (rev : revision) (susp : bool) (rnd : nat -> Q) (evs : list event) (key : string) :
  recognized key = true ->
  let e := handleFirstInteraction rev (run rev evs (mount rev susp rnd)) in
  let e1 := handleKeyDown rev key e in
  let e2 := handleKeyDown rev key e1 in
  (is_Some (oscillators e !! key) -> e1 = e) /\
  e2 = e1 /\
  (exists o g,
      oscillators e2 !! key = Some o /\ gains e2 !! key = Some g /\
      key ∈ activeKeys e2 /\ o ∈ sounding (calls e2) /\
      (forall k, oscillators e2 !! k = Some o -> k = key)) /\
  (forall o', o' ∈ sounding (calls e2) -> exists k, oscillators e2 !! k = Some o') /\
  let e3 := keydown rev key e1 in
  oscillators e3 = oscillators e1 /\ gains e3 = gains e1 /\
  activeKeys e3 = activeKeys e1 /\ nextNode e3 = nextNode e1 /\
  sounding (calls e3) = sounding (calls e1).
Proof.
  intros Hrec e e1 e2.
  assert (He : coherent rev e).
  { apply coherent_handleFirstInteraction, coherent_reachable. }
  assert (He1 : coherent rev e1) by (apply coherent_handleKeyDown, He).
  assert (Hact1 : key ∈ activeKeys e1).
  { apply handleKeyDown_activates; [exact Hrec|].
    apply audioReady_after_first_interaction, coherent_reachable. }
  assert (E2 : e2 = e1) by (apply handleKeyDown_active; exact Hact1).
  split; [apply (handleKeyDown_registered rev), He|].
  split; [exact E2|].
  split.
  - rewrite E2.
    assert (Hosc : is_Some (oscillators e1 !! key)).
    { apply elem_of_dom. rewrite (coh_osc _ _ He1). exact Hact1. }
    assert (Hgain : is_Some (gains e1 !! key)).
    { apply elem_of_dom. rewrite (coh_gain _ _ He1). exact Hact1. }
    destruct Hosc as [o Hosc]. destruct Hgain as [g Hgain].
    exists o, g. split; [exact Hosc|]. split; [exact Hgain|].
    split; [exact Hact1|].
    split.
    + apply (coh_sound _ _ He1). exists key. exact Hosc.
    + intros k Hk. exact (coh_inj _ _ He1 k key o Hk Hosc).
  - split; [rewrite E2; intros o'; apply (coh_sound _ _ He1)|].
    intros e3.
    destruct (handleFirstInteraction_registry rev e1) as [Ho [Hg [Ha [Hn Hs]]]].
    assert (E3 : e3 = handleFirstInteraction rev e1).
    { apply handleKeyDown_active. rewrite Ha. exact Hact1. }
    rewrite E3. repeat split; assumption.
Qed.

Lemma noteOn_twice_single_voice_witness :
  let e := handleFirstInteraction Plain
             (run Plain [KeyDown "s"; KeyUp "s"] (mount Plain true (fun _ => 0%Q))) in
  handleKeyDown Plain "a" (handleKeyDown Plain "a" e) = handleKeyDown Plain "a" e.
Proof.
  apply (noteOn_twice_single_voice Plain true (fun _ => 0%Q) [KeyDown "s"; KeyUp "s"] "a").
  reflexivity.
Defined.

(** *** The visualization boost *)

Lemma lookup_foldl_insert {A} (f : nat -> nat) (v : A) (slots : list nat) :
  forall (buf : list A) (j : nat),
    Forall (fun i => f i < length buf) slots ->
    foldl (fun b i => <[f i := v]> b) buf slots !! j =
    if decide (j ∈ map f slots) then Some v else buf !! j.
Proof.
  induction slots as [|i slots IH]; intros buf j Hall; simpl.
  - destruct (decide (j ∈ [])) as [Hin|_]; [|reflexivity].
    apply elem_of_nil in Hin. contradiction.
  - inversion Hall as [|? ? Hi Hrest]; subst.
    rewrite IH by (eapply Forall_impl; [exact Hrest|];
                   intros i' Hi'; simpl in Hi'; rewrite length_insert; exact Hi').
    destruct (decide (j ∈ map f slots)) as [Hin|Hnin].
    + rewrite decide_True; [reflexivity|]. apply elem_of_cons. right. exact Hin.
    + destruct (decide (j = f i)) as [->|Hne].
      * rewrite decide_True by (apply elem_of_cons; left; reflexivity).
        apply list_lookup_insert_eq. exact Hi.
      * rewrite decide_False.
        -- apply list_lookup_insert_ne. congruence.
        -- intros Hin. apply elem_of_cons in Hin. destruct Hin; contradiction.
Qed.

(** In the 128-slot buffer the analyser gives, the ten slots of every
    listed frequency are distinct and within the buffer. *)
Lemma boostSlots_table (hz : Q) :
  In hz (map snd noteTable) ->
  NoDup (boostSlots hz frequencyBinCount) /\
  Forall (fun i => boostSlot hz frequencyBinCount i < frequencyBinCount) (seq 0 10).
Proof.
  simpl. intros H.
  repeat (destruct H as [<-|H];
          [split; apply (bool_decide_unpack _); vm_compute; exact I|]).
  contradiction.
Qed.

Lemma boost_lookup (hz : Q) (buf : list Z) (j : nat) :
  buf <> [] ->
  Forall (fun i => boostSlot hz (length buf) i < length buf) (seq 0 10) ->
  boost hz buf !! j =
  if decide (j ∈ boostSlots hz (length buf)) then Some 230%Z else buf !! j.
Proof.
  intros Hne Hall. unfold boost, boostSlots.
  destruct buf as [|v buf]; [contradiction|].
  apply lookup_foldl_insert. exact Hall.
Qed.

Lemma dataArray_boostData hz e :
  dataArray (boostData hz e) = boost hz <$> dataArray e.
Proof.
  unfold boostData. destruct (dataArray e) eqn:E; simpl; rewrite ?E; reflexivity.
Qed.

(** What a successful [handleKeyDown] of the [Boosted] revision does to the
    buffer. *)
Lemma handleKeyDown_boosted (key : string) (hz : Q) (buf : list Z) (e : engine) :
  key ∉ activeKeys e -> NOTES key = Frequency hz -> notNote key = false ->
  audioReady e = true -> dataArray e = Some buf ->
  let e' := handleKeyDown Boosted key e in
  dataArray e' = Some (boost hz buf) /\
  last (calls e') = Some (OnAudioProcess (boost hz buf)).
Proof.
  intros Hact Hhz Hnote Hready Hbuf. unfold handleKeyDown.
  rewrite (bool_decide_eq_false_2 _ Hact), Hnote, Hready, Hhz. simpl orb. cbv iota.
  unfold boostData.
  destruct (suspended e); simpl dataArray; rewrite Hbuf; simpl; (split; [reflexivity|]);
    apply last_snoc.
Qed.

Lemma dataArray_handleFirstInteraction_boosted e :
  dataArray (handleFirstInteraction Boosted e) = dataArray e.
Proof. simpl. destruct (audioContext e && suspended e); reflexivity. Qed.

Lemma recognized_entry (key : string) :
  recognized key = true ->
  exists hz, NOTES key = Frequency hz /\ In (key, hz) noteTable.
Proof.
  unfold recognized, NOTES. generalize noteTable.
  induction l as [|[k v] table IH]; simpl; [discriminate|].
  destruct (key =? k)%string eqn:E.
  - intros _. apply String.eqb_eq in E. subst k.
    exists v. split; [reflexivity|]. left. reflexivity.
  - intros H. destruct (IH H) as [hz [Hhz Hin]].
    exists hz. split; [exact Hhz|]. right. exact Hin.
Qed.

(** For each of the nine keys: the integer part of the key's frequency
    modulo 128, and the ten slots the loop writes, counted from it modulo
    128. *)
Lemma boost_start (key : string) (hz : Q) :
  In (key, hz) noteTable ->
  let start := Qfloor (hz - inject_Z 128 * inject_Z (Qfloor (hz / inject_Z 128))) in
  In (key, start)
     [("a", 5); ("s", 37); ("d", 73); ("f", 93); ("g", 8); ("h", 56);
      ("j", 109); ("k", 11); ("l", 75)]%Z /\
  boostSlots hz 128 =
  map (fun i : nat => Z.to_nat ((start + Z.of_nat i) mod 128)) (seq 0 10).
Proof.
  simpl. intros H.
  repeat (destruct H as [H|H];
          [injection H as <- <-; split; [vm_compute; tauto|vm_compute; reflexivity]|]).
  contradiction.
Qed.

(** C10. In the [Boosted] revision, in every state the mounted component
    can reach, a note-on for a listed key that is not active ends by
    writing 230 into ten distinct slots of the 128-slot analysis buffer -
    the slots [(floor(NOTES[key] mod length) + i) mod length] for [i] from
    0 to 9, which start at slot 5, 37, 73, 93, 8, 56, 109, 11 or 75 for the
    keys a, s, d, f, g, h, j, k and l - leaves every other slot as it was,
    and reports the buffer. *)
Theorem noteOn_boosts_ten_slots
    (susp : bool) (rnd : nat -> Q) (evs : list event) (key : string) :
  recognized key = true ->
  let e := run Boosted evs (mount Boosted susp rnd) in
  key ∉ activeKeys e ->
  let e' := keydown Boosted key e in
  exists hz buf buf',
    NOTES key = Frequency hz /\
    dataArray e = Some buf /\ dataArray e' = Some buf' /\
    key ∈ activeKeys e' /\
    length buf = 128%nat /\ length buf' = 128%nat /\
    let len := Z.of_nat (length buf) in
    let start := Qfloor (hz - inject_Z len * inject_Z (Qfloor (hz / inject_Z len))) in
    let slot := fun i : nat => Z.to_nat ((start + Z.of_nat i) mod len) in
    In (key, start)
       [("a", 5); ("s", 37); ("d", 73); ("f", 93); ("g", 8); ("h", 56);
        ("j", 109); ("k", 11); ("l", 75)]%Z /\
    (forall i i', i < 10 -> i' < 10 -> slot i = slot i' -> i = i') /\
    (forall i, i < 10 -> slot i < 128 /\ buf' !! slot i = Some 230%Z) /\
    (forall j, (forall i, i < 10 -> j <> slot i) -> buf' !! j = buf !! j) /\
    last (calls e') = Some (OnAudioProcess buf').
Proof.
  intros Hrec e Hact e'.
  assert (He : coherent Boosted e) by apply coherent_reachable.
  destruct (recognized_entry key Hrec) as [hz [Hhz Hentry]].
  assert (Htable : In hz (map snd noteTable)).
  { apply (in_map snd noteTable (key, hz)). exact Hentry. }
  pose proof (coh_boosted _ _ He eq_refl) as Hctx.
  destruct (coh_data _ _ He Hctx) as [buf [Hbuf Hlen]].
  destruct (boostSlots_table hz Htable) as [Hnodup Hrange].
  destruct (boost_start key hz Hentry) as [Hstart Hslots].
  exists hz, buf, (boost hz buf).
  destruct (handleFirstInteraction_registry Boosted e) as [_ [_ [Ha _]]].
  destruct (handleKeyDown_boosted key hz buf (handleFirstInteraction Boosted e))
    as [Hdata Hlast].
  { rewrite Ha. exact Hact. }
  { exact Hhz. }
  { exact (recognized_note key Hrec). }
  { exact (audioReady_after_first_interaction Boosted e He). }
  { rewrite dataArray_handleFirstInteraction_boosted. exact Hbuf. }
  split; [exact Hhz|]. split; [exact Hbuf|]. split; [exact Hdata|].
  split.
  { apply handleKeyDown_activates; [exact Hrec|].
    apply audioReady_after_first_interaction, He. }
  split; [exact Hlen|]. split; [rewrite length_boost; exact Hlen|].
  assert (Hne : buf <> []).
  { intros ->. discriminate Hlen. }
  change frequencyBinCount with 128%nat in Hlen.
  assert (Hlook := fun j => boost_lookup hz buf j Hne).
  rewrite Hlen in Hlook. rewrite Hlen. change (Z.of_nat 128) with 128%Z.
  change frequencyBinCount with 128%nat in Hnodup, Hrange.
  cbv zeta.
  set (start := Qfloor (hz - inject_Z 128 * inject_Z (Qfloor (hz / inject_Z 128))))
    in *.
  set (slot := fun i : nat => Z.to_nat ((start + Z.of_nat i) mod 128)) in *.
  assert (Hat : forall i, i < 10 -> boostSlots hz 128 !! i = Some (slot i)).
  { intros i Hi. rewrite Hslots, list_lookup_fmap, lookup_seq_lt by exact Hi.
    reflexivity. }
  assert (Hmem : forall j, j ∈ boostSlots hz 128 <-> exists i, i < 10 /\ j = slot i).
  { intros j. rewrite Hslots, list_elem_of_fmap. split.
    - intros [i [-> Hi]]. apply elem_of_seq in Hi. exists i. split; [lia|reflexivity].
    - intros [i [Hi ->]]. exists i. split; [reflexivity|]. apply elem_of_seq. lia. }
  split; [exact Hstart|].
  split.
  { intros i i' Hi Hi' Heq.
    apply (NoDup_lookup _ i i' (slot i) Hnodup); [apply Hat, Hi|].
    rewrite Heq. apply Hat, Hi'. }
  split.
  { intros i Hi. split.
    - unfold slot. pose proof (Z.mod_pos_bound (start + Z.of_nat i) 128). lia.
    - rewrite (Hlook (slot i) Hrange). rewrite decide_True; [reflexivity|].
      apply Hmem. exists i. split; [exact Hi|reflexivity]. }
  split.
  { intros j Hj. rewrite (Hlook j Hrange). rewrite decide_False; [reflexivity|].
    intros Hin. apply Hmem in Hin. destruct Hin as [i [Hi Heq]]. exact (Hj i Hi Heq). }
  exact Hlast.
Qed.

Lemma noteOn_boosts_ten_slots_witness :
  exists buf buf',
    dataArray (run Boosted [KeyDown "s"] (mount Boosted true (fun _ => 1 # 2)))
    = Some buf /\
    dataArray (keydown Boosted "a"
                 (run Boosted [KeyDown "s"] (mount Boosted true (fun _ => 1 # 2))))
    = Some buf' /\
    buf' !! 5%nat = Some 230%Z /\ buf' !! 14%nat = Some 230%Z /\
    buf' !! 15%nat = buf !! 15%nat.
Proof.
  assert (Hrec : recognized "a" = true) by reflexivity.
  assert (Hact : "a" ∉ activeKeys (run Boosted [KeyDown "s"]
                                     (mount Boosted true (fun _ => 1 # 2)))).
  { apply (bool_decide_unpack _). vm_compute. exact I. }
  destruct (noteOn_boosts_ten_slots true (fun _ => 1 # 2) [KeyDown "s"] "a" Hrec Hact)
    as [hz [buf [buf' [Hhz [Hbuf [Hbuf' [_ [Hlen [_ H]]]]]]]]].
  injection Hhz as <-. rewrite Hlen in H. cbv zeta in H.
  destruct H as [_ [_ [Hset [Hkeep _]]]].
  exists buf, buf'. split; [exact Hbuf|]. split; [exact Hbuf'|].
  split; [exact (proj2 (Hset 0%nat ltac:(lia)))|].
  split; [exact (proj2 (Hset 9%nat ltac:(lia)))|].
  apply Hkeep. intros i Hi.
  do 10 (destruct i as [|i]; [vm_compute; discriminate|]). lia.
Defined.

(** *** Note off *)

Lemma extends_refl e : extends e e.
Proof.
  split; [reflexivity|]. split; [lia|]. exists []. symmetry. apply app_nil_r.
Qed.

Lemma extends_trans e1 e2 e3 : extends e1 e2 -> extends e2 e3 -> extends e1 e3.
Proof.
  intros [Ho1 [Hn1 [cs1 Hc1]]] [Ho2 [Hn2 [cs2 Hc2]]].
  split; [congruence|]. split; [lia|].
  exists (cs1 ++ cs2). rewrite Hc2, Hc1, app_assoc. reflexivity.
Qed.

Lemma extends_emit cs e : extends e (emit cs e).
Proof. split; [reflexivity|]. split; [simpl; lia|]. exists cs. reflexivity. Qed.

Lemma extends_handleFirstInteraction rev e : extends e (handleFirstInteraction rev e).
Proof.
  destruct rev; simpl.
  - destruct (audioContext e && suspended e); [apply extends_emit|apply extends_refl].
  - destruct (audioContext e); [apply extends_refl|].
    split; [reflexivity|]. split; [simpl; lia|]. exists []. symmetry. apply app_nil_r.
Qed.

Lemma extends_handleKeyUp key e : extends e (handleKeyUp key e).
Proof.
  unfold handleKeyUp.
  destruct (notNote key); [apply extends_refl|].
  destruct (audioContext e && bool_decide (is_Some (oscillators e !! key)));
    [|apply extends_refl].
  destruct (gains e !! key) as [g|]; [|apply extends_refl].
  split; [reflexivity|]. split; [simpl; lia|]. eexists. reflexivity.
Qed.

Lemma extends_updateAnalyser rev spectrum e : extends e (updateAnalyser rev spectrum e).
Proof.
  unfold updateAnalyser.
  destruct (analyser e); [|apply extends_refl].
  destruct (dataArray e); [|apply extends_refl].
  split; [reflexivity|]. split; [simpl; lia|]. eexists. reflexivity.
Qed.

Lemma extends_boostData hz e : extends e (boostData hz e).
Proof.
  unfold boostData. destruct (dataArray e); [|apply extends_refl].
  split; [reflexivity|]. split; [simpl; lia|]. eexists. reflexivity.
Qed.

Lemma releasing_extends rev key o e e' :
  releasing rev key o e -> coherent rev e' -> extends e e' -> releasing rev key o e'.
Proof.
  intros [_ [Hlt [Hown Hstate]]] He' [Ho [Hn [cs Hc]]].
  split; [exact He'|]. split; [lia|]. rewrite Ho, Hc.
  split; [exact Hown|].
  destruct Hstate as [Hreg|Hstop]; [left; exact Hreg|right].
  apply in_or_app. left. exact Hstop.
Qed.

Lemma releasing_handleKeyDown rev key o key' e :
  releasing rev key o e -> releasing rev key o (handleKeyDown rev key' e).
Proof.
  intros Hrel.
  assert (Hcoh : coherent rev (handleKeyDown rev key' e)).
  { apply coherent_handleKeyDown. apply Hrel. }
  revert Hcoh. unfold handleKeyDown.
  destruct (bool_decide (key' ∈ activeKeys e)) eqn:Hact; simpl orb; [intros _; exact Hrel|].
  apply bool_decide_eq_false in Hact.
  destruct (notNote key'); [intros _; exact Hrel|].
  destruct (audioReady e); [|intros _; exact Hrel].
  set (e1 := if suspended e then emit [Resume] e else e).
  assert (Hext1 : extends e e1).
  { unfold e1. destruct (suspended e); [apply extends_emit|apply extends_refl]. }
  assert (Hact1 : activeKeys e1 = activeKeys e).
  { unfold e1. destruct (suspended e); reflexivity. }
  assert (H1 : releasing rev key o e1).
  { apply (releasing_extends rev key o e); [exact Hrel| |exact Hext1].
    unfold e1. destruct (suspended e); [|apply Hrel].
    apply coherent_emit; [reflexivity|apply Hrel]. }
  clearbody e1. clear Hrel Hext1.
  destruct H1 as [He1 [Hlt [Hown Hstate]]].
  destruct (NOTES key') as [hz| |].
  - set (e2 := register key' (nextNode e1) (S (nextNode e1))
                 (emit (voiceCalls rev (nextNode e1) (S (nextNode e1)) hz (now e1))
                    (allocate 2 e1))).
    assert (H2 : coherent rev e2 -> releasing rev key o e2).
    { intros He2. split; [exact He2|]. split; [simpl; lia|]. split.
      - simpl. intros k Hk. destruct (decide (key' = k)) as [<-|Hne].
        + rewrite lookup_insert_eq in Hk. injection Hk as Hk. lia.
        + rewrite lookup_insert_ne in Hk by exact Hne. exact (Hown k Hk).
      - simpl. destruct Hstate as [Hreg|Hstop].
        + left. rewrite lookup_insert_ne; [exact Hreg|].
          intros ->. apply Hact. rewrite <- Hact1, <- (coh_osc _ _ He1).
          apply elem_of_dom. eexists. exact Hreg.
        + right. apply in_or_app. left. exact Hstop. }
    destruct rev; intros Hcoh.
    + apply (releasing_extends Boosted key o e2); [|exact Hcoh|apply extends_boostData].
      apply H2. apply coherent_register; [exact He1|rewrite Hact1; exact Hact|].
      apply (coh_boosted _ _ He1). reflexivity.
    + apply H2. exact Hcoh.
  - intros Hcoh. apply (releasing_extends rev key o e1); [|exact Hcoh|].
    + split; [exact He1|]. split; [exact Hlt|]. split; assumption.
    + split; [reflexivity|]. split; [simpl; lia|]. eexists. reflexivity.
  - intros Hcoh. apply (releasing_extends rev key o e1); [|exact Hcoh|].
    + split; [exact He1|]. split; [exact Hlt|]. split; assumption.
    + split; [reflexivity|]. split; [simpl; lia|]. eexists. reflexivity.
Qed.

Lemma calls_release key e :
  calls (release key e) =
  calls e ++ match oscillators e !! key with Some o => [Stop o] | None => [] end.
Proof.
  unfold release. destruct (oscillators e !! key); simpl;
    [reflexivity|symmetry; apply app_nil_r].
Qed.

Lemma oscillators_release key e :
  oscillators (release key e) = delete key (oscillators e).
Proof. unfold release. destruct (oscillators e !! key); reflexivity. Qed.

Lemma gains_release key e : gains (release key e) = delete key (gains e).
Proof. unfold release. destruct (oscillators e !! key); reflexivity. Qed.

Lemma activeKeys_release key e : activeKeys (release key e) = activeKeys e ∖ {[key]}.
Proof. unfold release. destruct (oscillators e !! key); reflexivity. Qed.

Lemma nextNode_release key e : nextNode (release key e) = nextNode e.
Proof. unfold release. destruct (oscillators e !! key); reflexivity. Qed.

Lemma releasing_release rev key o key' e :
  releasing rev key o e -> releasing rev key o (release key' e).
Proof.
  intros [He [Hlt [Hown Hstate]]].
  split; [apply coherent_release, He|].
  rewrite nextNode_release, oscillators_release, calls_release.
  split; [exact Hlt|]. split.
  - intros k Hk. apply lookup_delete_Some in Hk. exact (Hown k (proj2 Hk)).
  - destruct Hstate as [Hreg|Hstop].
    + destruct (decide (key' = key)) as [->|Hne].
      * right. rewrite Hreg. apply in_or_app. right. left. reflexivity.
      * left. rewrite lookup_delete_ne by exact Hne. exact Hreg.
    + right. apply in_or_app. left. exact Hstop.
Qed.

(** The callback of the key's own timer ends the release. *)
Lemma released_release rev key o e :
  releasing rev key o e -> released key o (release key e).
Proof.
  intros [He [Hlt [Hown Hstate]]]. unfold released.
  rewrite calls_release, oscillators_release, gains_release, activeKeys_release.
  split.
  - destruct Hstate as [Hreg|Hstop].
    + rewrite Hreg. apply in_or_app. right. left. reflexivity.
    + apply in_or_app. left. exact Hstop.
  - split; [apply lookup_delete_eq|]. split; [apply lookup_delete_eq|].
    apply not_elem_of_difference. right. apply elem_of_singleton. reflexivity.
Qed.

(** Later callbacks do not undo it. *)
Lemma released_stays key o key' e :
  released key o e -> released key o (release key' e).
Proof.
  intros [Hstop [Ho [Hg Ha]]]. unfold released.
  rewrite calls_release, oscillators_release, gains_release, activeKeys_release.
  split; [apply in_or_app; left; exact Hstop|].
  split; [apply lookup_delete_None; right; exact Ho|].
  split; [apply lookup_delete_None; right; exact Hg|].
  intros Hin. apply elem_of_difference in Hin. tauto.
Qed.

Lemma releasing_releases rev key o (due : list (nat * string)) :
  forall e, releasing rev key o e ->
            releasing rev key o (foldl (fun e' p => release p.2 e') e due).
Proof.
  induction due as [|p due IH]; intros e H; simpl; [exact H|].
  apply IH, releasing_release, H.
Qed.

Lemma released_releases key o (due : list (nat * string)) :
  forall e, released key o e ->
            released key o (foldl (fun e' p => release p.2 e') e due).
Proof.
  induction due as [|p due IH]; intros e H; simpl; [exact H|].
  apply IH, released_stays, H.
Qed.

(** Running a batch of callbacks that contains the key's own. *)
Lemma released_batch rev key o (t : nat) (due : list (nat * string)) :
  In (t, key) due ->
  forall e, releasing rev key o e ->
            released key o (foldl (fun e' p => release p.2 e') e due).
Proof.
  induction due as [|p due IH]; intros Hin e H; simpl; [contradiction|].
  destruct Hin as [->|Hin].
  - simpl. apply released_releases. apply (released_release rev). exact H.
  - apply IH; [exact Hin|]. apply releasing_release. exact H.
Qed.

Lemma releasing_elapse rev key o ms e :
  releasing rev key o e -> releasing rev key o (elapse ms e).
Proof.
  intros H. unfold elapse. apply releasing_releases.
  apply (releasing_extends rev key o e); [exact H| |].
  - apply coherent_setClock. apply H.
  - split; [reflexivity|]. split; [simpl; lia|]. exists []. symmetry. apply app_nil_r.
Qed.

Lemma releasing_step rev key o e ev :
  releasing rev key o e -> releasing rev key o (step rev e ev).
Proof.
  intros H. destruct ev; simpl.
  - unfold keydown. apply releasing_handleKeyDown.
    apply (releasing_extends rev key o e); [exact H| |].
    + apply coherent_handleFirstInteraction. apply H.
    + apply extends_handleFirstInteraction.
  - apply (releasing_extends rev key o e); [exact H| |].
    + apply coherent_handleKeyUp. apply H.
    + apply extends_handleKeyUp.
  - apply (releasing_extends rev key o e); [exact H| |].
    + apply coherent_handleFirstInteraction. apply H.
    + apply extends_handleFirstInteraction.
  - apply releasing_elapse. exact H.
  - apply (releasing_extends rev key o e); [exact H| |].
    + apply coherent_updateAnalyser. apply H.
    + apply extends_updateAnalyser.
  - apply (releasing_extends rev key o e); [exact H| |].
    + apply coherent_setSuspended. apply H.
    + split; [reflexivity|]. split; [simpl; lia|]. exists []. symmetry. apply app_nil_r.
Qed.

(** *** The clock and the timer queue *)

Lemma clock_releases (due : list (nat * string)) :
  forall e, let e' := foldl (fun e' p => release p.2 e') e due in
            now e' = now e /\ timers e' = timers e.
Proof.
  induction due as [|p due IH]; intros e; simpl; [tauto|].
  destruct (IH (release p.2 e)) as [Hn Ht]. rewrite Hn, Ht.
  unfold release. destruct (oscillators e !! p.2); simpl; tauto.
Qed.

Lemma clock_handleFirstInteraction rev e :
  now (handleFirstInteraction rev e) = now e /\
  timers (handleFirstInteraction rev e) = timers e.
Proof.
  destruct rev; simpl.
  - destruct (audioContext e && suspended e); simpl; tauto.
  - destruct (audioContext e); simpl; tauto.
Qed.

Lemma clock_handleKeyDown rev key e :
  now (handleKeyDown rev key e) = now e /\ timers (handleKeyDown rev key e) = timers e.
Proof.
  unfold handleKeyDown.
  destruct (bool_decide (key ∈ activeKeys e) || notNote key); [tauto|].
  destruct (audioReady e); [|tauto].
  destruct (NOTES key); destruct rev; unfold boostData;
    destruct (suspended e); simpl; try tauto;
    destruct (dataArray e); simpl; tauto.
Qed.

(** What one event does to the clock and to a timer that is not yet due. *)
Lemma clock_step rev e ev (t : nat) (key : string) :
  now e <= now (step rev e ev) /\
  (In (t, key) (timers e) -> now (step rev e ev) < t ->
   In (t, key) (timers (step rev e ev))).
Proof.
  destruct ev; simpl.
  - unfold keydown.
    destruct (clock_handleKeyDown rev key0 (handleFirstInteraction rev e)) as [Hn Ht].
    destruct (clock_handleFirstInteraction rev e) as [Hn' Ht'].
    rewrite Hn, Ht, Hn', Ht'. split; [lia|tauto].
  - unfold keyup, handleKeyUp.
    destruct (notNote key0); [split; [lia|tauto]|].
    destruct (audioContext e && bool_decide (is_Some (oscillators e !! key0)));
      [|split; [lia|tauto]].
    destruct (gains e !! key0); [|split; [lia|tauto]].
    simpl. split; [lia|]. intros Hin _. apply in_or_app. left. exact Hin.
  - destruct (clock_handleFirstInteraction rev e) as [Hn Ht].
    rewrite Hn, Ht. split; [lia|tauto].
  - unfold elapse.
    match goal with |- context [foldl ?f ?a ?l] =>
      destruct (clock_releases l a) as [Hn Ht] end.
    rewrite Hn, Ht. simpl. split; [lia|].
    intros Hin Hlt. apply list_elem_of_In, list_elem_of_filter.
    split; [simpl; lia|]. apply list_elem_of_In. exact Hin.
  - unfold updateAnalyser. destruct (analyser e); [|split; [lia|tauto]].
    destruct (dataArray e); simpl; split; (lia || tauto).
  - split; [lia|tauto].
Qed.

Lemma clock_run rev evs :
  forall e, now e <= now (run rev evs e).
Proof.
  unfold run. induction evs as [|ev evs IH]; intros e; simpl; [lia|].
  specialize (IH (step rev e ev)).
  pose proof (proj1 (clock_step rev e ev 0 "")). lia.
Qed.

(** As long as the clock stays short of the timer, the release stays under
    way and the timer stays queued. *)
Lemma releasing_run rev key o (t : nat) evs :
  forall e,
    releasing rev key o e -> In (t, key) (timers e) -> now (run rev evs e) < t ->
    releasing rev key o (run rev evs e) /\ In (t, key) (timers (run rev evs e)).
Proof.
  induction evs as [|ev evs IH]; intros e Hrel Hin Hlt; [split; assumption|].
  change (run rev (ev :: evs) e) with (run rev evs (step rev e ev)) in *.
  pose proof (clock_run rev evs (step rev e ev)) as Hmono.
  apply IH; [apply releasing_step; exact Hrel| |exact Hlt].
  apply (clock_step rev e ev t key); [exact Hin|lia].
Qed.

(** What [handleKeyUp] does when the key has a voice. *)
Lemma handleKeyUp_registered rev key o e :
  coherent rev e -> recognized key = true -> oscillators e !! key = Some o ->
  exists g,
    gains e !! key = Some g /\
    handleKeyUp key e =
    schedule (now e + rampMs) key
      (emit [GainLinearRampToValueAtTime g 0 (now e + rampMs)] e).
Proof.
  intros He Hrec Hreg.
  assert (Hact : key ∈ activeKeys e).
  { rewrite <- (coh_osc _ _ He). apply elem_of_dom. eexists. exact Hreg. }
  assert (Hgain : is_Some (gains e !! key)).
  { apply elem_of_dom. rewrite (coh_gain _ _ He). exact Hact. }
  destruct Hgain as [g Hgain]. exists g. split; [exact Hgain|].
  unfold handleKeyUp.
  rewrite (recognized_note key Hrec), (coh_live _ _ He key Hact), Hgain.
  rewrite bool_decide_eq_true_2 by (eexists; exact Hreg). reflexivity.
Qed.

(** C2. In every state the mounted component can reach, for a listed key
    whose voice is oscillator [o]: the note-off schedules a linear ramp of
    the voice's gain to 0, ending 100 ms later, queues the clean-up for that
    moment and leaves the voice registered meanwhile; and whatever events
    arrive in between, as soon as the clock reaches that moment the
    oscillator has been stopped, it sounds no more, and the key is absent
    from the oscillator map, the gain map and the active-key set. *)
Theorem noteOff_releases_voice
    (rev : revision) (susp : bool) (rnd : nat -> Q) (evs : list event)
    (key : string) (o : nat) (later : list event) (ms : nat) :
  recognized key = true ->
  let e := run rev evs (mount rev susp rnd) in
  oscillators e !! key = Some o ->
  let e1 := handleKeyUp key e in
  let e' := run rev later e1 in
  now e' < now e + 100 -> now e + 100 <= now e' + ms ->
  let e2 := elapse ms e' in
  (exists g, gains e !! key = Some g /\
             calls e1 = calls e ++ [GainLinearRampToValueAtTime g 0 (now e + 100)]) /\
  timers e1 = timers e ++ [(now e + 100, key)] /\
  oscillators e1 = oscillators e /\ gains e1 = gains e /\
  activeKeys e1 = activeKeys e /\
  In (Stop o) (calls e2) /\ (o ∉ sounding (calls e2)) /\
  (oscillators e2 !! key = None) /\ (gains e2 !! key = None) /\
  key ∉ activeKeys e2.
Proof.
  intros Hrec e Hreg e1 e' Hbefore Hafter e2.
  assert (He : coherent rev e) by apply coherent_reachable.
  destruct (handleKeyUp_registered rev key o e He Hrec Hreg) as [g [Hgain Hup]].
  assert (E1 : e1 = schedule (now e + rampMs) key
                      (emit [GainLinearRampToValueAtTime g 0 (now e + rampMs)] e))
    by exact Hup.
  assert (Hrel1 : releasing rev key o e1).
  { split; [apply coherent_handleKeyUp, He|]. rewrite E1. simpl.
    split; [exact (coh_fresh _ _ He key o Hreg)|].
    split; [|left; exact Hreg].
    intros k Hk. exact (coh_inj _ _ He k key o Hk Hreg). }
  assert (Htimer1 : In (now e + 100, key) (timers e1)).
  { rewrite E1. simpl. apply in_or_app. right. left. reflexivity. }
  destruct (releasing_run rev key o (now e + 100) later e1 Hrel1 Htimer1 Hbefore)
    as [Hrel' Htimer'].
  fold e' in Hrel', Htimer'.
  assert (Hrel2 : releasing rev key o e2) by (apply releasing_elapse; exact Hrel').
  assert (Hdone : released key o e2).
  { unfold e2, elapse.
    apply (released_batch rev key o (now e + 100)).
    - apply list_elem_of_In, list_elem_of_filter.
      split; [simpl; lia|]. apply list_elem_of_In. exact Htimer'.
    - apply (releasing_extends rev key o e'); [exact Hrel'| |].
      + apply coherent_setClock. apply Hrel'.
      + split; [reflexivity|]. split; [simpl; lia|].
        exists []. symmetry. apply app_nil_r. }
  destruct Hdone as [Hstop [Hosc [Hg Hact]]].
  split; [exists g; split; [exact Hgain|rewrite E1; reflexivity]|].
  split; [rewrite E1; reflexivity|].
  split; [rewrite E1; reflexivity|].
  split; [rewrite E1; reflexivity|].
  split; [rewrite E1; reflexivity|].
  split; [exact Hstop|].
  split; [|tauto].
  destruct Hrel2 as [He2 [_ [Hown _]]].
  intros Hsound. apply (coh_sound _ _ He2) in Hsound. destruct Hsound as [k Hk].
  pose proof (Hown k Hk) as ->. rewrite Hosc in Hk. discriminate.
Qed.

Lemma noteOff_releases_voice_witness :
  let e := run Plain [KeyDown "a"] (mount Plain false (fun _ => 0%Q)) in
  let e' := run Plain [KeyDown "a"; Elapse 60; KeyUp "a"] (handleKeyUp "a" e) in
  In (Stop 0) (calls (elapse 50 e')) /\ "a" ∉ activeKeys (elapse 50 e').
Proof.
  pose proof (noteOff_releases_voice Plain false (fun _ => 0%Q) [KeyDown "a"] "a" 0
                [KeyDown "a"; Elapse 60; KeyUp "a"] 50) as H.
  cbv zeta in H.
  assert (Hrec : recognized "a" = true) by reflexivity.
  assert (Hreg : (oscillators (run Plain [KeyDown "a"] (mount Plain false (fun _ => 0%Q))))
                   !! "a" = Some 0) by (vm_compute; reflexivity).
  specialize (H Hrec Hreg).
  assert (Hbefore :
    now (run Plain [KeyDown "a"; Elapse 60; KeyUp "a"]
           (handleKeyUp "a" (run Plain [KeyDown "a"] (mount Plain false (fun _ => 0%Q)))))
    < now (run Plain [KeyDown "a"] (mount Plain false (fun _ => 0%Q))) + 100)
    by (vm_compute; lia).
  assert (Hafter :
    now (run Plain [KeyDown "a"] (mount Plain false (fun _ => 0%Q))) + 100
    <= now (run Plain [KeyDown "a"; Elapse 60; KeyUp "a"]
              (handleKeyUp "a" (run Plain [KeyDown "a"] (mount Plain false (fun _ => 0%Q)))))
       + 50)
    by (vm_compute; lia).
  specialize (H Hbefore Hafter).
  split; apply H.
Defined.

(** ** Wiring, timers, snapshots and the keyboard *)

(** *** Health of the voices and of the snapshots *)

Lemma healthy_same rev e e' cs :
  healthy rev e ->
  oscillators e' = oscillators e -> gains e' = gains e ->
  activeKeys e' = activeKeys e ->
  (forall buf, dataArray e' = Some buf -> goodData buf) ->
  calls e' = calls e ++ cs -> Forall goodCall cs ->
  healthy rev e'.
Proof.
  intros H Ho Hg Ha Hd Hc Hcs. constructor.
  - rewrite Ha. apply (hl_listed _ _ H).
  - rewrite Ho, Hg, Hc. intros k o Hk.
    destruct (hl_voice _ _ H k o Hk) as [Hgain [hz [t [Hn [H1 [H2 [H3 [H4 [H5 H6]]]]]]]]].
    split; [exact Hgain|]. exists hz, t.
    split; [exact Hn|]. repeat split; apply in_or_app; left; assumption.
  - exact Hd.
  - rewrite Hc. apply Forall_app. split; [apply (hl_calls _ _ H)|exact Hcs].
Qed.

Lemma healthy_quiet rev e e' :
  healthy rev e ->
  oscillators e' = oscillators e -> gains e' = gains e ->
  activeKeys e' = activeKeys e -> dataArray e' = dataArray e ->
  calls e' = calls e ->
  healthy rev e'.
Proof.
  intros H Ho Hg Ha Hd Hc.
  apply (healthy_same rev e e' []); try assumption.
  - rewrite Hd. apply (hl_data _ _ H).
  - rewrite app_nil_r. exact Hc.
  - constructor.
Qed.

Lemma healthy_emit rev cs e :
  Forall goodCall cs -> healthy rev e -> healthy rev (emit cs e).
Proof.
  intros Hcs H. apply (healthy_same rev e _ cs); try reflexivity; try assumption.
  apply (hl_data _ _ H).
Qed.

Lemma healthy_setDataArray rev buf e :
  goodData buf -> healthy rev e -> healthy rev (setDataArray (Some buf) e).
Proof.
  intros Hbuf H. apply (healthy_same rev e _ []); try reflexivity; try assumption.
  - simpl. intros b Hb. injection Hb as <-. exact Hbuf.
  - simpl. symmetry. apply app_nil_r.
  - constructor.
Qed.

Lemma goodData_zero : goodData (replicate frequencyBinCount 0%Z).
Proof.
  split; [apply length_replicate|].
  apply Forall_forall. intros v Hv. apply elem_of_replicate in Hv.
  destruct Hv as [-> _]. unfold uint8. lia.
Qed.

Lemma goodData_seed rnd : goodData (seedBuffer rnd).
Proof.
  split; [apply length_seedBuffer|].
  unfold seedBuffer. apply Forall_map, Forall_forall. intros i _. apply toUint8_uint8.
Qed.

Lemma Forall_foldl_insert {A} (P : A -> Prop) (f : nat -> nat) (v : A) (slots : list nat) :
  P v -> forall buf : list A,
    Forall P buf -> Forall P (foldl (fun b i => <[f i := v]> b) buf slots).
Proof.
  intros Hv. induction slots as [|i slots IH]; intros buf Hbuf; simpl; [exact Hbuf|].
  apply IH. apply Forall_insert; assumption.
Qed.

Lemma goodData_boost hz buf : goodData buf -> goodData (boost hz buf).
Proof.
  intros [Hlen Hall]. split; [rewrite length_boost; exact Hlen|].
  unfold boost. destruct buf as [|v buf]; [exact Hall|].
  apply Forall_foldl_insert; [unfold uint8; lia|exact Hall].
Qed.

Lemma healthy_boostData rev hz e : healthy rev e -> healthy rev (boostData hz e).
Proof.
  intros H. unfold boostData.
  destruct (dataArray e) as [buf|] eqn:Hd; [|exact H].
  pose proof (goodData_boost hz buf (hl_data _ _ H buf Hd)) as Hgood.
  apply healthy_emit; [constructor; [exact Hgood|constructor]|].
  apply healthy_setDataArray; assumption.
Qed.

Lemma healthy_initAudio rev rev' rnd e :
  healthy rev e -> healthy rev (initAudio rev' rnd e).
Proof.
  intros H. unfold initAudio. destruct rev'.
  - apply healthy_emit; [constructor; [apply goodData_seed|constructor]|].
    apply healthy_setDataArray; [apply goodData_seed|].
    apply (healthy_same rev e _ []); try reflexivity; try assumption.
    + simpl. intros b Hb. injection Hb as <-. apply goodData_zero.
    + simpl. symmetry. apply app_nil_r.
    + constructor.
  - apply (healthy_same rev e _ []); try reflexivity; try assumption.
    + simpl. intros b Hb. injection Hb as <-. apply goodData_zero.
    + simpl. symmetry. apply app_nil_r.
    + constructor.
Qed.

Lemma healthy_unmounted rev susp : healthy rev (unmounted susp).
Proof.
  constructor; simpl.
  - intros k Hk. apply not_elem_of_empty in Hk. contradiction.
  - intros k o Hk. rewrite lookup_empty in Hk. discriminate.
  - discriminate.
  - constructor.
Qed.

Lemma healthy_mount rev susp rnd : healthy rev (mount rev susp rnd).
Proof.
  unfold mount. destruct rev.
  - apply (healthy_initAudio Boosted Boosted), healthy_unmounted.
  - apply healthy_unmounted.
Qed.

Lemma healthy_handleFirstInteraction rev e :
  healthy rev e -> healthy rev (handleFirstInteraction rev e).
Proof.
  intros H. unfold handleFirstInteraction. destruct rev.
  - destruct (audioContext e && suspended e); [|exact H].
    apply healthy_emit; [repeat constructor|exact H].
  - destruct (audioContext e); [exact H|].
    apply (healthy_initAudio Plain Plain). exact H.
Qed.

(** Registering the voice that [voiceCalls] has just built. *)
Lemma healthy_register rev key hz t o e :
  healthy rev e -> NOTES key = Frequency hz ->
  healthy rev (register key o (S o) (emit (voiceCalls rev o (S o) hz t) (allocate 2 e))).
Proof.
  intros H Hhz. constructor; simpl.
  - intros k Hk. apply elem_of_union in Hk. destruct Hk as [Hk|Hk].
    + apply (hl_listed _ _ H k Hk).
    + apply elem_of_singleton in Hk. subst k. apply (frequency_recognized key hz Hhz).
  - intros k o' Hk. destruct (decide (key = k)) as [<-|Hne].
    + rewrite lookup_insert_eq in Hk. injection Hk as <-.
      split; [apply lookup_insert_eq|]. exists hz, t.
      split; [exact Hhz|].
      repeat split; apply in_or_app; right; simpl; tauto.
    + rewrite lookup_insert_ne in Hk by exact Hne.
      destruct (hl_voice _ _ H k o' Hk)
        as [Hgain [hz' [t' [Hn [H1 [H2 [H3 [H4 [H5 H6]]]]]]]]].
      split; [rewrite lookup_insert_ne by exact Hne; exact Hgain|].
      exists hz', t'. split; [exact Hn|].
      repeat split; apply in_or_app; left; assumption.
  - apply (hl_data _ _ H).
  - apply Forall_app. split; [apply (hl_calls _ _ H)|]. repeat constructor.
Qed.

Lemma healthy_handleKeyDown rev key e :
  healthy rev e -> healthy rev (handleKeyDown rev key e).
Proof.
  intros H. unfold handleKeyDown.
  destruct (bool_decide (key ∈ activeKeys e) || notNote key); [exact H|].
  destruct (audioReady e); [|exact H].
  set (e1 := if suspended e then emit [Resume] e else e).
  assert (H1 : healthy rev e1).
  { unfold e1. destruct (suspended e); [|exact H].
    apply healthy_emit; [repeat constructor|exact H]. }
  clearbody e1.
  assert (Halloc : healthy rev (allocate 2 e1)).
  { apply (healthy_quiet rev e1); try reflexivity; exact H1. }
  destruct (NOTES key) as [hz| |] eqn:Hhz.
  - pose proof (healthy_register rev key hz (now e1) (nextNode e1) e1 H1 Hhz) as H2.
    destruct rev; [apply healthy_boostData|]; exact H2.
  - apply healthy_emit; [repeat constructor|exact Halloc].
  - apply healthy_emit; [repeat constructor|exact Halloc].
Qed.

Lemma healthy_handleKeyUp rev key e :
  healthy rev e -> healthy rev (handleKeyUp key e).
Proof.
  intros H. unfold handleKeyUp.
  destruct (notNote key); [exact H|].
  destruct (audioContext e && bool_decide (is_Some (oscillators e !! key))); [|exact H].
  destruct (gains e !! key) as [g|]; [|exact H].
  apply (healthy_quiet rev (emit [GainLinearRampToValueAtTime g 0 (now e + rampMs)] e));
    try reflexivity.
  apply healthy_emit; [repeat constructor|exact H].
Qed.

Lemma healthy_release rev key e : healthy rev e -> healthy rev (release key e).
Proof.
  intros H. constructor.
  - rewrite activeKeys_release. intros k Hk. apply elem_of_difference in Hk.
    apply (hl_listed _ _ H k). tauto.
  - rewrite oscillators_release, gains_release, calls_release. intros k o Hk.
    apply lookup_delete_Some in Hk. destruct Hk as [Hne Hk].
    destruct (hl_voice _ _ H k o Hk)
      as [Hgain [hz [t [Hn [H1 [H2 [H3 [H4 [H5 H6]]]]]]]]].
    split; [rewrite lookup_delete_ne by exact Hne; exact Hgain|].
    exists hz, t. split; [exact Hn|].
    repeat split; apply in_or_app; left; assumption.
  - unfold release. destruct (oscillators e !! key); simpl; apply (hl_data _ _ H).
  - rewrite calls_release. apply Forall_app. split; [apply (hl_calls _ _ H)|].
    destruct (oscillators e !! key); repeat constructor.
Qed.

Lemma healthy_releases rev (due : list (nat * string)) :
  forall e, healthy rev e -> healthy rev (foldl (fun e' p => release p.2 e') e due).
Proof.
  induction due as [|p due IH]; intros e H; simpl; [exact H|].
  apply IH, healthy_release, H.
Qed.

Lemma healthy_elapse rev ms e : healthy rev e -> healthy rev (elapse ms e).
Proof.
  intros H. unfold elapse. apply healthy_releases.
  apply (healthy_quiet rev e); try reflexivity. exact H.
Qed.

Lemma healthy_updateAnalyser rev rev' spectrum e :
  healthy rev e -> healthy rev (updateAnalyser rev' spectrum e).
Proof.
  intros H. unfold updateAnalyser.
  destruct (analyser e); [|exact H].
  destruct (dataArray e) as [buf|] eqn:Hd; [|exact H].
  destruct (hl_data _ _ H buf Hd) as [Hlen _].
  assert (Hgood : goodData
            (match rev' with
             | Boosted => map amplify
                            (map (fun i => toUint8 (inject_Z (spectrum i)))
                               (seq 0 (length buf)))
             | Plain => map (fun i => toUint8 (inject_Z (spectrum i)))
                          (seq 0 (length buf))
             end)).
  { destruct rev'; split; rewrite ?length_map, ?length_seq; try exact Hlen.
    - apply Forall_map, Forall_forall. intros v _. apply toUint8_uint8.
    - apply Forall_map, Forall_forall. intros v _. apply toUint8_uint8. }
  apply healthy_emit; [constructor; [exact Hgood|constructor]|].
  apply healthy_setDataArray; assumption.
Qed.

Lemma healthy_step rev e ev : healthy rev e -> healthy rev (step rev e ev).
Proof.
  intros H. destruct ev; cbn [step]; unfold keydown, keyup.
  - apply healthy_handleKeyDown, healthy_handleFirstInteraction, H.
  - apply healthy_handleKeyUp, H.
  - apply healthy_handleFirstInteraction, H.
  - apply healthy_elapse, H.
  - apply healthy_updateAnalyser, H.
  - apply (healthy_quiet rev e); try reflexivity. exact H.
Qed.

Lemma healthy_run rev evs : forall e, healthy rev e -> healthy rev (run rev evs e).
Proof.
  unfold run. induction evs as [|ev evs IH]; intros e H; simpl; [exact H|].
  apply IH, healthy_step, H.
Qed.

Lemma healthy_reachable rev susp rnd evs :
  healthy rev (run rev evs (mount rev susp rnd)).
Proof. apply healthy_run, healthy_mount. Qed.

(** *** The keys that sound *)

Lemma assoc_listed (key : string) (table : list (string * Q)) (hz : Q) :
  assoc key table = Some hz -> In key (map fst table).
Proof.
  induction table as [|[k v] table IH]; simpl; [discriminate|].
  destruct (key =? k)%string eqn:E.
  - intros _. left. symmetry. apply String.eqb_eq. exact E.
  - intros H. right. apply IH, H.
Qed.

Lemma recognized_keyboard (key : string) :
  recognized key = true -> In key keyboardKeys.
Proof.
  unfold recognized, keyboardKeys.
  destruct (assoc key noteTable) as [hz|] eqn:E; [|discriminate].
  intros _. apply (assoc_listed key noteTable hz E).
Qed.

Lemma registered_active rev key e :
  coherent rev e -> (is_Some (oscillators e !! key) <-> key ∈ activeKeys e).
Proof.
  intros H. rewrite <- (coh_osc _ _ H). symmetry. apply elem_of_dom.
Qed.

(** X12. In every state the mounted component can reach, the voice
    registered for a key is built as the handler builds it: the key is one
    of the nine of the on-screen keyboard and is drawn active, the gain
    registered with the oscillator is the node created right after it, the
    oscillator was tuned to the key's frequency in [NOTES], connected to
    that gain - which feeds the analyser and was set to 0 and ramped to the
    peak within 100 ms - and started, and it still sounds. *)
Theorem voice_wired_and_pitched
    (rev : revision) (susp : bool) (rnd : nat -> Q) (evs : list event)
    (key : string) (o : nat) :
  let e := run rev evs (mount rev susp rnd) in
  oscillators e !! key = Some o ->
  In key keyboardKeys /\ highlighted key e = true /\
  gains e !! key = Some (S o) /\
  o ∈ sounding (calls e) /\
  exists hz t,
    NOTES key = Frequency hz /\
    In (FrequencySetValueAtTime o hz t) (calls e) /\
    In (ConnectOscillator o (S o)) (calls e) /\
    In (ConnectToAnalyser (S o)) (calls e) /\
    In (Start o) (calls e) /\
    In (GainSetValueAtTime (S o) 0 t) (calls e) /\
    In (GainLinearRampToValueAtTime (S o) (peak rev) (t + rampMs)) (calls e).
Proof.
  intros e Hreg.
  pose proof (coherent_reachable rev susp rnd evs) as Hc.
  pose proof (healthy_reachable rev susp rnd evs) as Hh.
  fold e in Hc, Hh.
  assert (Hact : key ∈ activeKeys e).
  { apply (registered_active rev key e Hc). eexists. exact Hreg. }
  split; [apply recognized_keyboard, (hl_listed _ _ Hh key Hact)|].
  split; [apply bool_decide_eq_true_2; exact Hact|].
  destruct (hl_voice _ _ Hh key o Hreg) as [Hgain Hwired].
  split; [exact Hgain|].
  split; [apply (coh_sound _ _ Hc); exists key; exact Hreg|].
  exact Hwired.
Qed.

Lemma voice_wired_and_pitched_witness :
  gains (run Plain [KeyDown "h"] (mount Plain true (fun _ => 0%Q))) !! "h" = Some 1 /\
  0 ∈ sounding (calls (run Plain [KeyDown "h"] (mount Plain true (fun _ => 0%Q)))).
Proof.
  assert (Hreg : oscillators (run Plain [KeyDown "h"] (mount Plain true (fun _ => 0%Q)))
                 !! "h" = Some 0) by (vm_compute; reflexivity).
  destruct (voice_wired_and_pitched Plain true (fun _ => 0%Q) [KeyDown "h"] "h" 0 Hreg)
    as [_ [_ [Hgain [Hsound _]]]].
  split; [exact Hgain|exact Hsound].
Defined.

(** X13. At most nine voices: in every reachable state the keys drawn
    active are exactly the keys with a registered oscillator, each of them
    is one of the nine keys of the on-screen keyboard, two of them never
    share an oscillator, and so the registry never holds more than nine
    voices. *)
Theorem at_most_nine_voices
    (rev : revision) (susp : bool) (rnd : nat -> Q) (evs : list event) :
  let e := run rev evs (mount rev susp rnd) in
  (forall key, highlighted key e = true <-> is_Some (oscillators e !! key)) /\
  (forall key, highlighted key e = true -> In key keyboardKeys) /\
  (forall k1 k2 o, oscillators e !! k1 = Some o -> oscillators e !! k2 = Some o ->
                   k1 = k2) /\
  size (oscillators e) <= 9 /\ size (gains e) <= 9 /\ size (activeKeys e) <= 9.
Proof.
  intros e.
  pose proof (coherent_reachable rev susp rnd evs) as Hc.
  pose proof (healthy_reachable rev susp rnd evs) as Hh.
  fold e in Hc, Hh.
  assert (Hsub : activeKeys e ⊆ list_to_set keyboardKeys).
  { intros k Hk. apply elem_of_list_to_set, list_elem_of_In, recognized_keyboard.
    apply (hl_listed _ _ Hh k Hk). }
  assert (Hsize : size (activeKeys e) <= 9).
  { apply (Nat.le_trans _ (size (list_to_set (C := gset string) keyboardKeys))).
    - apply subseteq_size, Hsub.
    - vm_compute. lia. }
  split.
  { intros key. unfold highlighted. rewrite bool_decide_eq_true.
    symmetry. apply (registered_active rev key e Hc). }
  split.
  { intros key Hk. apply bool_decide_eq_true in Hk.
    apply recognized_keyboard, (hl_listed _ _ Hh key Hk). }
  split; [apply (coh_inj _ _ Hc)|].
  split; [rewrite <- size_dom, (coh_osc _ _ Hc); exact Hsize|].
  split; [rewrite <- size_dom, (coh_gain _ _ Hc); exact Hsize|exact Hsize].
Qed.

(** *** Stray note-offs *)

(** X14. A note-off for a key that is not active is a no-op in every
    reachable state - whether it comes from the physical keyboard, from a
    pointer released over the key of the on-screen keyboard, or from a
    pointer leaving it: no ramp is scheduled and no clean-up is queued. *)
Theorem stray_noteOff_ignored
    (rev : revision) (susp : bool) (rnd : nat -> Q) (evs : list event)
    (key : string) :
  let e := run rev evs (mount rev susp rnd) in
  key ∉ activeKeys e ->
  handleKeyUp key e = e /\ onMouseUp key e = e /\ onMouseLeave key e = e.
Proof.
  intros e Hout.
  pose proof (coherent_reachable rev susp rnd evs) as Hc. fold e in Hc.
  assert (Hup : handleKeyUp key e = e).
  { unfold handleKeyUp. destruct (notNote key); [reflexivity|].
    rewrite bool_decide_eq_false_2; [rewrite andb_false_r; reflexivity|].
    intros Hreg. apply Hout, (registered_active rev key e Hc), Hreg. }
  split; [exact Hup|]. split; [exact Hup|].
  unfold onMouseLeave. rewrite bool_decide_eq_false_2 by exact Hout. reflexivity.
Qed.

Lemma stray_noteOff_ignored_witness :
  handleKeyUp "a" (run Boosted [KeyDown "s"] (mount Boosted false (fun _ => 0%Q))) =
  run Boosted [KeyDown "s"] (mount Boosted false (fun _ => 0%Q)).
Proof.
  assert (Hout : "a" ∉ activeKeys (run Boosted [KeyDown "s"]
                                     (mount Boosted false (fun _ => 0%Q)))).
  { apply (bool_decide_unpack _). vm_compute. exact I. }
  destruct (stray_noteOff_ignored Boosted false (fun _ => 0%Q) [KeyDown "s"] "a" Hout)
    as [Hup _].
  exact Hup.
Defined.

(** *** Clean-up timers *)

Lemma releases_other key (due : list (nat * string)) :
  Forall (fun p => p.2 <> key) due ->
  forall e, oscillators (foldl (fun e' p => release p.2 e') e due) !! key =
            oscillators e !! key.
Proof.
  induction due as [|p due IH]; intros Hall e; simpl; [reflexivity|].
  apply Forall_cons in Hall. destruct Hall as [Hp Hall].
  rewrite (IH Hall), oscillators_release. apply lookup_delete_ne. exact Hp.
Qed.

Lemma releases_absent key (due : list (nat * string)) :
  forall e, oscillators e !! key = None ->
            oscillators (foldl (fun e' p => release p.2 e') e due) !! key = None.
Proof.
  induction due as [|p due IH]; intros e H; simpl; [exact H|].
  apply IH. rewrite oscillators_release. apply lookup_delete_None. right. exact H.
Qed.

Lemma releases_all_absent key (due : list (nat * string)) :
  forall e, oscillators e !! key = None -> gains e !! key = None -> key ∉ activeKeys e ->
            let e' := foldl (fun e' p => release p.2 e') e due in
            oscillators e' !! key = None /\ gains e' !! key = None /\
            key ∉ activeKeys e'.
Proof.
  induction due as [|p due IH]; intros e Ho Hg Ha; simpl; [tauto|].
  apply IH.
  - rewrite oscillators_release. apply lookup_delete_None. right. exact Ho.
  - rewrite gains_release. apply lookup_delete_None. right. exact Hg.
  - rewrite activeKeys_release. intros Hin. apply elem_of_difference in Hin. tauto.
Qed.

Lemma calls_releases (due : list (nat * string)) (c : call) :
  forall e, In c (calls e) -> In c (calls (foldl (fun e' p => release p.2 e') e due)).
Proof.
  induction due as [|p due IH]; intros e H; simpl; [exact H|].
  apply IH. rewrite calls_release. apply in_or_app. left. exact H.
Qed.

(** A batch of callbacks with one for [key] in it removes whatever voice
    the key has. *)
Lemma releases_own key (t : nat) (due : list (nat * string)) :
  In (t, key) due ->
  forall e, let e' := foldl (fun e' p => release p.2 e') e due in
            (oscillators e' !! key = None /\ gains e' !! key = None /\
             key ∉ activeKeys e') /\
            forall o, oscillators e !! key = Some o -> In (Stop o) (calls e').
Proof.
  induction due as [|p due IH]; intros Hin e; [contradiction|].
  destruct (decide (p.2 = key)) as [Hp|Hp].
  - simpl. split.
    + apply releases_all_absent.
      * rewrite oscillators_release, Hp. apply lookup_delete_eq.
      * rewrite gains_release, Hp. apply lookup_delete_eq.
      * rewrite activeKeys_release, Hp. intros H. apply elem_of_difference in H.
        destruct H as [_ H]. apply H, elem_of_singleton. reflexivity.
    + intros o Ho. apply calls_releases. rewrite calls_release, Hp, Ho.
      apply in_or_app. right. left. reflexivity.
  - destruct Hin as [Hin|Hin]; [subst p; contradiction|].
    simpl. destruct (IH Hin (release p.2 e)) as [Habs Hstop].
    split; [exact Habs|].
    intros o Ho. apply Hstop. rewrite oscillators_release.
    rewrite lookup_delete_ne by exact Hp. exact Ho.
Qed.

Lemma timers_elapse ms e :
  now (elapse ms e) = now e + ms /\
  timers (elapse ms e) = filter (fun p => ¬ p.1 <= now e + ms) (timers e).
Proof.
  unfold elapse.
  match goal with |- context [foldl ?f ?a ?l] =>
    destruct (clock_releases l a) as [Hn Ht] end.
  rewrite Hn, Ht. split; reflexivity.
Qed.

(** X15. The clean-up callback is bound to the key, not to the voice it
    was queued for: when a clean-up for [key] comes due, the key leaves
    both maps and the active set and the oscillator the key has at that
    moment is stopped, whichever note-on registered it; and every
    callback that was due has run, so the ones left are due later. *)
Theorem due_cleanup_removes_current_voice
    (e : engine) (key : string) (t ms : nat) :
  In (t, key) (timers e) -> t <= now e + ms ->
  let e' := elapse ms e in
  (oscillators e' !! key = None) /\ (gains e' !! key = None) /\
  (key ∉ activeKeys e') /\
  (forall o, oscillators e !! key = Some o -> In (Stop o) (calls e')) /\
  Forall (fun p => now e' < p.1) (timers e').
Proof.
  intros Hin Hdue e'.
  assert (Hbatch : In (t, key) (filter (fun p => p.1 <= now e + ms) (timers e))).
  { apply list_elem_of_In, list_elem_of_filter. split; [exact Hdue|].
    apply list_elem_of_In. exact Hin. }
  destruct (releases_own key t _ Hbatch
              (setClock (now e + ms)
                 (filter (fun p => ¬ p.1 <= now e + ms) (timers e)) e))
    as [[Ho [Hg Ha]] Hstop].
  split; [exact Ho|]. split; [exact Hg|]. split; [exact Ha|].
  split; [exact Hstop|].
  destruct (timers_elapse ms e) as [Hn Ht]. unfold e'. rewrite Hn, Ht.
  apply Forall_forall. intros p Hp. apply list_elem_of_filter in Hp.
  destruct Hp as [Hp _]. lia.
Qed.

Lemma due_cleanup_removes_current_voice_witness :
  oscillators
    (elapse 60 (run Plain [KeyDown "a"; KeyUp "a"; Elapse 50; KeyUp "a"; Elapse 50;
                           KeyDown "a"]
                  (mount Plain false (fun _ => 0%Q)))) !! "a" = None /\
  In (Stop 2)
    (calls (elapse 60 (run Plain [KeyDown "a"; KeyUp "a"; Elapse 50; KeyUp "a";
                                  Elapse 50; KeyDown "a"]
                         (mount Plain false (fun _ => 0%Q))))).
Proof.
  assert (Hin : In (150, "a")
                  (timers (run Plain [KeyDown "a"; KeyUp "a"; Elapse 50; KeyUp "a";
                                      Elapse 50; KeyDown "a"]
                             (mount Plain false (fun _ => 0%Q))))).
  { vm_compute. left. reflexivity. }
  assert (Hdue : 150 <= now (run Plain [KeyDown "a"; KeyUp "a"; Elapse 50; KeyUp "a";
                                         Elapse 50; KeyDown "a"]
                                (mount Plain false (fun _ => 0%Q))) + 60).
  { vm_compute. lia. }
  destruct (due_cleanup_removes_current_voice _ "a" 150 60 Hin Hdue)
    as [Ho [_ [_ [Hstop _]]]].
  split; [exact Ho|]. apply Hstop. vm_compute. reflexivity.
Defined.

(** *** What ends a voice *)

Lemma oscillators_boostData hz e : oscillators (boostData hz e) = oscillators e.
Proof. unfold boostData. destruct (dataArray e); reflexivity. Qed.

Lemma handleKeyDown_other rev key key' e :
  key <> key' ->
  oscillators (handleKeyDown rev key' e) !! key = oscillators e !! key.
Proof.
  intros Hne. unfold handleKeyDown.
  destruct (bool_decide (key' ∈ activeKeys e) || notNote key'); [reflexivity|].
  destruct (audioReady e); [|reflexivity].
  destruct (NOTES key'); [|destruct (suspended e); reflexivity..].
  destruct rev; rewrite ?oscillators_boostData; simpl;
    (rewrite lookup_insert_ne by (intros E; apply Hne; symmetry; exact E));
    destruct (suspended e); reflexivity.
Qed.

(** The callbacks that come due when [ms] milliseconds pass. *)
Lemma elapse_other key ms e :
  Forall (fun p => p.1 <= now e + ms -> p.2 <> key) (timers e) ->
  oscillators (elapse ms e) !! key = oscillators e !! key.
Proof.
  intros H. unfold elapse. rewrite releases_other; [reflexivity|].
  apply Forall_forall. intros p Hp. apply list_elem_of_filter in Hp.
  destruct Hp as [Hdue Hp]. rewrite Forall_forall in H. apply (H p Hp Hdue).
Qed.

Lemma voice_step rev key o e ev :
  coherent rev e -> oscillators e !! key = Some o ->
  (forall ms, ev = Elapse ms ->
              Forall (fun p => p.1 <= now e + ms -> p.2 <> key) (timers e)) ->
  oscillators (step rev e ev) !! key = Some o.
Proof.
  intros Hc Hreg Hev. destruct ev; cbn [step].
  - unfold keydown.
    pose proof (coherent_handleFirstInteraction rev e Hc) as Hc0.
    destruct (handleFirstInteraction_registry rev e) as [Ho _].
    destruct (decide (key = key0)) as [<-|Hne].
    + rewrite (handleKeyDown_registered rev rev key _ Hc0); rewrite Ho;
        [exact Hreg|eexists; exact Hreg].
    + rewrite handleKeyDown_other by exact Hne. rewrite Ho. exact Hreg.
  - unfold keyup. destruct (extends_handleKeyUp key0 e) as [Ho _].
    rewrite Ho. exact Hreg.
  - destruct (handleFirstInteraction_registry rev e) as [Ho _].
    rewrite Ho. exact Hreg.
  - rewrite elapse_other; [exact Hreg|]. apply (Hev ms). reflexivity.
  - destruct (extends_updateAnalyser rev spectrum e) as [Ho _].
    rewrite Ho. exact Hreg.
  - exact Hreg.
Qed.

(** X16. Only time ends a voice.  In a reachable state, if an event takes
    away the oscillator registered for a key, or replaces it, the event is
    the passing of time and a clean-up queued for that very key has come
    due: no key press, key release, click, animation frame or change of
    the context's state removes or replaces a voice. *)
Theorem voice_ends_only_by_timer
    (rev : revision) (susp : bool) (rnd : nat -> Q) (evs : list event)
    (ev : event) (key : string) (o : nat) :
  let e := run rev evs (mount rev susp rnd) in
  oscillators e !! key = Some o ->
  oscillators (step rev e ev) !! key <> Some o ->
  exists ms t, ev = Elapse ms /\ In (t, key) (timers e) /\ t <= now e + ms.
Proof.
  intros e Hreg Hgone.
  pose proof (coherent_reachable rev susp rnd evs) as Hc. fold e in Hc.
  destruct (decide (Exists (fun p => p.1 <= match ev with
                                            | Elapse ms => now e + ms
                                            | _ => 0
                                            end /\ p.2 = key) (timers e)))
    as [Hex|Hno].
  - destruct ev as [k|k| |ms|sp|b];
      try (exfalso; apply Hgone, (voice_step rev key o e _ Hc Hreg);
           intros ms Hms; discriminate Hms).
    apply Exists_exists in Hex. destruct Hex as [[t k] [Hin [Hdue Hk]]].
    simpl in Hdue, Hk. subst k. exists ms, t.
    split; [reflexivity|]. split; [apply list_elem_of_In; exact Hin|exact Hdue].
  - exfalso. apply Hgone, (voice_step rev key o e ev Hc Hreg).
    intros ms ->. apply Forall_Exists_neg in Hno.
    eapply Forall_impl; [exact Hno|]. simpl. intros p Hp Hdue Hk.
    apply Hp. split; assumption.
Qed.

Lemma voice_ends_only_by_timer_witness :
  exists ms t,
    Elapse 100 = Elapse ms /\
    In (t, "a"%string)
       (timers (run Boosted [KeyDown "a"; KeyUp "a"]
                  (mount Boosted false (fun _ => 0%Q)))) /\
    t <= now (run Boosted [KeyDown "a"; KeyUp "a"]
                (mount Boosted false (fun _ => 0%Q))) + ms.
Proof.
  apply (voice_ends_only_by_timer Boosted false (fun _ => 0%Q)
           [KeyDown "a"; KeyUp "a"] (Elapse 100) "a" 0).
  - vm_compute. reflexivity.
  - vm_compute. discriminate.
Defined.

(** *** A held key *)

Lemma timers_step rev key e ev :
  (forall k, ev = KeyUp k -> k <> key) ->
  Forall (fun p => p.2 <> key) (timers e) ->
  Forall (fun p => p.2 <> key) (timers (step rev e ev)).
Proof.
  intros Hev H. destruct ev; cbn [step].
  - unfold keydown.
    destruct (clock_handleKeyDown rev key0 (handleFirstInteraction rev e)) as [_ Ht].
    destruct (clock_handleFirstInteraction rev e) as [_ Ht'].
    rewrite Ht, Ht'. exact H.
  - unfold keyup, handleKeyUp.
    destruct (notNote key0); [exact H|].
    destruct (audioContext e && bool_decide (is_Some (oscillators e !! key0)));
      [|exact H].
    destruct (gains e !! key0); [|exact H].
    simpl. apply Forall_app. split; [exact H|].
    constructor; [|constructor]. simpl. apply Hev. reflexivity.
  - destruct (clock_handleFirstInteraction rev e) as [_ Ht]. rewrite Ht. exact H.
  - destruct (timers_elapse ms e) as [_ Ht]. rewrite Ht.
    apply Forall_forall. intros p Hp. apply list_elem_of_filter in Hp.
    destruct Hp as [_ Hp]. rewrite Forall_forall in H. apply (H p Hp).
  - unfold updateAnalyser. destruct (analyser e); [|exact H].
    destruct (dataArray e); exact H.
  - exact H.
Qed.

Lemma keyHeld_cons key ev evs :
  keyHeld key (ev :: evs) = true ->
  (forall k, ev = KeyUp k -> k <> key) /\ keyHeld key evs = true.
Proof.
  unfold keyHeld. simpl. intros H. apply andb_prop in H. destruct H as [Hev H].
  split; [|exact H]. intros k -> E. subst k.
  rewrite String.eqb_refl in Hev. discriminate.
Qed.

Lemma held_run rev key o later :
  keyHeld key later = true ->
  forall e, coherent rev e -> oscillators e !! key = Some o ->
            Forall (fun p => p.2 <> key) (timers e) ->
            oscillators (run rev later e) !! key = Some o.
Proof.
  unfold run. induction later as [|ev later IH]; intros Hheld e Hc Hreg Hfree; simpl;
    [exact Hreg|].
  apply keyHeld_cons in Hheld. destruct Hheld as [Hev Hheld].
  apply (IH Hheld).
  - apply coherent_step, Hc.
  - apply (voice_step rev key o e ev Hc Hreg). intros ms _.
    eapply Forall_impl; [exact Hfree|]. simpl. intros p Hp _. exact Hp.
  - apply timers_step; assumption.
Qed.

(** X17. A held key keeps sounding.  Take a reachable state in which a
    key has a voice and no clean-up for that key is pending.  Whatever
    happens next - presses and releases of other keys, repeated presses of
    this one, clicks, frames, suspensions, any amount of time - as long as
    the key itself is not released its oscillator stays registered, keeps
    its gain, keeps sounding, and the key stays drawn active. *)
Theorem held_key_sustains
    (rev : revision) (susp : bool) (rnd : nat -> Q) (evs later : list event)
    (key : string) (o : nat) :
  let e := run rev evs (mount rev susp rnd) in
  oscillators e !! key = Some o ->
  Forall (fun p => p.2 <> key) (timers e) ->
  keyHeld key later = true ->
  let e' := run rev later e in
  oscillators e' !! key = Some o /\ gains e' !! key = Some (S o) /\
  o ∈ sounding (calls e') /\ highlighted key e' = true.
Proof.
  intros e Hreg Hfree Hheld e'.
  pose proof (coherent_reachable rev susp rnd evs) as Hc.
  pose proof (healthy_reachable rev susp rnd evs) as Hh.
  fold e in Hc, Hh.
  pose proof (coherent_run rev later e Hc) as Hc'.
  pose proof (healthy_run rev later e Hh) as Hh'.
  fold e' in Hc', Hh'.
  assert (Hreg' : oscillators e' !! key = Some o).
  { apply (held_run rev key o later Hheld e Hc Hreg Hfree). }
  split; [exact Hreg'|].
  split; [apply (hl_voice _ _ Hh' key o Hreg')|].
  split; [apply (coh_sound _ _ Hc'); exists key; exact Hreg'|].
  apply bool_decide_eq_true_2, (registered_active rev key e' Hc').
  eexists. exact Hreg'.
Qed.

Lemma held_key_sustains_witness :
  oscillators
    (run Boosted [KeyDown "s"; KeyUp "s"; Elapse 250; KeyDown "a"; Click]
       (run Boosted [KeyDown "a"] (mount Boosted true (fun _ => 0%Q)))) !! "a" = Some 0.
Proof.
  assert (Hreg : oscillators (run Boosted [KeyDown "a"]
                                (mount Boosted true (fun _ => 0%Q))) !! "a" = Some 0)
    by (vm_compute; reflexivity).
  assert (Hfree : Forall (fun p => p.2 <> "a"%string)
                    (timers (run Boosted [KeyDown "a"]
                               (mount Boosted true (fun _ => 0%Q)))))
    by (vm_compute; constructor).
  assert (Hheld : keyHeld "a" [KeyDown "s"; KeyUp "s"; Elapse 250; KeyDown "a"; Click]
                  = true) by reflexivity.
  destruct (held_key_sustains Boosted true (fun _ => 0%Q) [KeyDown "a"]
              [KeyDown "s"; KeyUp "s"; Elapse 250; KeyDown "a"; Click] "a" 0
              Hreg Hfree Hheld) as [Hkept _].
  exact Hkept.
Defined.

(** *** The queue of clean-ups *)

Lemma punctual_same e e' :
  now e' = now e -> timers e' = timers e -> punctual e -> punctual e'.
Proof. unfold punctual. intros -> ->. tauto. Qed.

Lemma punctual_step rev e ev :
  coherent rev e -> healthy rev e -> punctual e -> punctual (step rev e ev).
Proof.
  intros Hc Hh H. destruct ev; cbn [step].
  - unfold keydown.
    destruct (clock_handleKeyDown rev key (handleFirstInteraction rev e)) as [Hn Ht].
    destruct (clock_handleFirstInteraction rev e) as [Hn' Ht'].
    apply (punctual_same e); [congruence|congruence|exact H].
  - unfold keyup, handleKeyUp.
    destruct (notNote key); [exact H|].
    destruct (bool_decide (is_Some (oscillators e !! key))) eqn:Hreg;
      [|rewrite andb_false_r; exact H].
    destruct (audioContext e); [|exact H]. simpl.
    destruct (gains e !! key); [|exact H].
    unfold punctual. simpl. apply Forall_app. split; [exact H|].
    constructor; [|constructor]. simpl.
    split; [unfold rampMs; lia|]. split; [lia|].
    apply bool_decide_eq_true in Hreg.
    apply recognized_keyboard, (hl_listed _ _ Hh).
    apply (registered_active rev key e Hc), Hreg.
  - destruct (clock_handleFirstInteraction rev e) as [Hn Ht].
    apply (punctual_same e); [exact Hn|exact Ht|exact H].
  - destruct (timers_elapse ms e) as [Hn Ht]. unfold punctual. rewrite Hn, Ht.
    apply Forall_forall. intros p Hp. apply list_elem_of_filter in Hp.
    destruct Hp as [Hlate Hp]. unfold punctual in H. rewrite Forall_forall in H.
    destruct (H p Hp) as [_ [Hdue Hkey]].
    split; [lia|]. split; [lia|exact Hkey].
  - unfold updateAnalyser. destruct (analyser e); [|exact H].
    destruct (dataArray e); exact H.
  - exact H.
Qed.

Lemma punctual_run rev evs :
  forall e, coherent rev e -> healthy rev e -> punctual e -> punctual (run rev evs e).
Proof.
  unfold run. induction evs as [|ev evs IH]; intros e Hc Hh H; simpl; [exact H|].
  apply IH; [apply coherent_step, Hc|apply healthy_step, Hh|].
  apply punctual_step; assumption.
Qed.

Lemma punctual_reachable rev susp rnd evs :
  punctual (run rev evs (mount rev susp rnd)).
Proof.
  apply punctual_run; [apply coherent_mount|apply healthy_mount|].
  unfold punctual, mount, initAudio. destruct rev; constructor.
Qed.

Lemma filter_late (t : nat) (l : list (nat * string)) :
  Forall (fun p => p.1 <= t) l -> filter (fun p => ¬ p.1 <= t) l = [].
Proof.
  induction l as [|p l IH]; intros H; [reflexivity|].
  apply Forall_cons in H. destruct H as [Hp H].
  rewrite filter_cons_False by (intros Hn; apply Hn, Hp). apply IH, H.
Qed.

(** X18. The queue of clean-ups never runs ahead: in every reachable state
    each pending clean-up is for one of the nine keys and is due after now
    and no later than 100 ms from now; so once 100 ms pass none is left. *)
Theorem cleanups_due_within_ramp
    (rev : revision) (susp : bool) (rnd : nat -> Q) (evs : list event) :
  let e := run rev evs (mount rev susp rnd) in
  Forall (fun p => now e < p.1 /\ p.1 <= now e + rampMs /\ In p.2 keyboardKeys)
    (timers e) /\
  timers (elapse rampMs e) = [].
Proof.
  intros e. pose proof (punctual_reachable rev susp rnd evs) as H. fold e in H.
  split; [exact H|].
  destruct (timers_elapse rampMs e) as [_ Ht]. rewrite Ht.
  apply filter_late. eapply Forall_impl; [exact H|].
  intros p [_ [Hdue _]]. exact Hdue.
Qed.

(** *** Silence *)

Lemma keyups_schedule rev (keys : list string) :
  forall e, coherent rev e -> healthy rev e ->
            let e' := run rev (map KeyUp keys) e in
            oscillators e' = oscillators e /\ now e' = now e /\
            (forall p, In p (timers e) -> In p (timers e')) /\
            (forall k, In k keys -> is_Some (oscillators e !! k) ->
                       In (now e + rampMs, k) (timers e')).
Proof.
  unfold run. induction keys as [|key keys IH]; intros e Hc Hh; simpl.
  { split; [reflexivity|]. split; [reflexivity|]. split; [tauto|]. intros k []. }
  unfold keyup.
  pose proof (coherent_handleKeyUp rev key e Hc) as Hc1.
  pose proof (healthy_handleKeyUp rev key e Hh) as Hh1.
  destruct (IH (handleKeyUp key e) Hc1 Hh1) as [Ho [Hn [Hkeep Hnew]]].
  destruct (extends_handleKeyUp key e) as [Ho1 _].
  assert (Hn1 : now (handleKeyUp key e) = now e).
  { unfold handleKeyUp. destruct (notNote key); [reflexivity|].
    destruct (audioContext e && bool_decide (is_Some (oscillators e !! key)));
      [|reflexivity].
    destruct (gains e !! key); reflexivity. }
  assert (Hkeep1 : forall p, In p (timers e) -> In p (timers (handleKeyUp key e))).
  { intros p Hp. unfold handleKeyUp. destruct (notNote key); [exact Hp|].
    destruct (audioContext e && bool_decide (is_Some (oscillators e !! key)));
      [|exact Hp].
    destruct (gains e !! key); [|exact Hp].
    simpl. apply in_or_app. left. exact Hp. }
  split; [rewrite Ho; exact Ho1|]. split; [rewrite Hn; exact Hn1|].
  split; [intros p Hp; apply Hkeep, Hkeep1, Hp|].
  intros k [<-|Hin] Hreg.
  - apply Hkeep. destruct Hreg as [o Hreg].
    assert (Hrec : recognized key = true).
    { apply (hl_listed _ _ Hh), (registered_active rev key e Hc). eexists. exact Hreg. }
    destruct (handleKeyUp_registered rev key o e Hc Hrec Hreg) as [g [_ ->]].
    simpl. apply in_or_app. right. left. reflexivity.
  - rewrite <- Hn1. apply Hnew; [exact Hin|]. rewrite Ho1. exact Hreg.
Qed.

(** X19. Releasing everything brings silence.  From any reachable state,
    once a key-up has arrived for each of the nine keys and 100 ms have
    passed, both maps and the active set are empty, no oscillator sounds
    and no clean-up is pending. *)
Theorem all_keys_up_then_silence
    (rev : revision) (susp : bool) (rnd : nat -> Q) (evs : list event) :
  let e := run rev evs (mount rev susp rnd) in
  let e' := run rev (map KeyUp keyboardKeys ++ [Elapse rampMs]) e in
  oscillators e' = ∅ /\ gains e' = ∅ /\ activeKeys e' = ∅ /\
  sounding (calls e') = ∅ /\ timers e' = [].
Proof.
  intros e e'.
  pose proof (coherent_reachable rev susp rnd evs) as Hc.
  pose proof (healthy_reachable rev susp rnd evs) as Hh.
  fold e in Hc, Hh.
  set (e1 := run rev (map KeyUp keyboardKeys) e).
  assert (He' : e' = elapse rampMs e1).
  { unfold e', e1, run. rewrite foldl_app. reflexivity. }
  pose proof (coherent_run rev (map KeyUp keyboardKeys) e Hc) as Hc1.
  pose proof (healthy_run rev (map KeyUp keyboardKeys) e Hh) as Hh1.
  fold e1 in Hc1, Hh1.
  destruct (keyups_schedule rev keyboardKeys e Hc Hh) as [Ho [Hn [_ Hnew]]].
  fold e1 in Ho, Hn, Hnew.
  assert (Hc' : coherent rev e').
  { rewrite He'. apply coherent_elapse, Hc1. }
  assert (Hempty : oscillators e' = ∅).
  { apply map_empty. intros k. rewrite He'.
    destruct (oscillators e1 !! k) as [o|] eqn:Hk.
    - assert (Hreg : is_Some (oscillators e !! k)) by (rewrite <- Ho, Hk; eauto).
      assert (Hkey : In k keyboardKeys).
      { apply recognized_keyboard, (hl_listed _ _ Hh).
        apply (registered_active rev k e Hc), Hreg. }
      pose proof (Hnew k Hkey Hreg) as Hin.
      apply (releases_own k (now e + rampMs)).
      apply list_elem_of_In, list_elem_of_filter. split; [cbn [fst]; lia|].
      apply list_elem_of_In. exact Hin.
    - unfold elapse. apply releases_absent. exact Hk. }
  assert (Hact : activeKeys e' = ∅).
  { rewrite <- (coh_osc _ _ Hc'), Hempty. apply dom_empty_L. }
  split; [exact Hempty|].
  split; [apply dom_empty_inv_L; rewrite (coh_gain _ _ Hc'); exact Hact|].
  split; [exact Hact|].
  split.
  - apply elem_of_equiv_empty_L. intros o Ho'.
    apply (coh_sound _ _ Hc') in Ho'. destruct Ho' as [k Hk].
    rewrite Hempty, lookup_empty in Hk. discriminate.
  - rewrite He'. destruct (timers_elapse rampMs e1) as [_ Ht]. rewrite Ht.
    apply filter_late.
    pose proof (punctual_run rev (map KeyUp keyboardKeys) e Hc Hh
                  (punctual_reachable rev susp rnd evs)) as Hp.
    fold e1 in Hp. eapply Forall_impl; [exact Hp|].
    intros p [_ [Hdue _]]. exact Hdue.
Qed.

(** *** Snapshots *)

(** X20. Every snapshot the engine hands to [onAudioProcess], in either
    revision and whatever has happened, is a buffer of 128 bytes - the
    seed, a frame of the analyser, amplified or not, or a boosted buffer -
    and so is the analysis buffer itself whenever it exists; once the
    audio context exists the buffer does. *)
Theorem snapshots_are_128_bytes
    (rev : revision) (susp : bool) (rnd : nat -> Q) (evs : list event) :
  let e := run rev evs (mount rev susp rnd) in
  (forall d, In (OnAudioProcess d) (calls e) -> length d = 128 /\ Forall uint8 d) /\
  (forall buf, dataArray e = Some buf -> length buf = 128 /\ Forall uint8 buf) /\
  (audioContext e = true -> is_Some (dataArray e)).
Proof.
  intros e.
  pose proof (coherent_reachable rev susp rnd evs) as Hc.
  pose proof (healthy_reachable rev susp rnd evs) as Hh.
  fold e in Hc, Hh.
  split; [|split].
  - intros d Hd. pose proof (hl_calls _ _ Hh) as Hall.
    rewrite Forall_forall in Hall.
    apply (Hall (OnAudioProcess d)), list_elem_of_In, Hd.
  - apply (hl_data _ _ Hh).
  - intros Hctx. destruct (coh_data _ _ Hc Hctx) as [buf [Hbuf _]].
    exists buf. exact Hbuf.
Qed.

Lemma silent_emit cs e :
  forallb (fun c => negb (publishes c)) cs = true ->
  forallb (fun c => negb (publishes c)) (calls e) = true ->
  forallb (fun c => negb (publishes c)) (calls (emit cs e)) = true.
Proof.
  intros Hcs H. simpl. rewrite forallb_app, H, Hcs. reflexivity.
Qed.

Lemma silent_releases (due : list (nat * string)) :
  forall e, forallb (fun c => negb (publishes c)) (calls e) = true ->
            forallb (fun c => negb (publishes c))
              (calls (foldl (fun e' p => release p.2 e') e due)) = true.
Proof.
  induction due as [|p due IH]; intros e H; simpl; [exact H|].
  apply IH. rewrite calls_release, forallb_app, H.
  destruct (oscillators e !! p.2); reflexivity.
Qed.

Lemma silent_step e ev :
  (forall spectrum, ev <> Frame spectrum) ->
  forallb (fun c => negb (publishes c)) (calls e) = true ->
  forallb (fun c => negb (publishes c)) (calls (step Plain e ev)) = true.
Proof.
  intros Hev H. destruct ev; cbn [step].
  - unfold keydown, handleFirstInteraction, handleKeyDown.
    set (e0 := if audioContext e then e else initAudio Plain (fun _ => 0%Q) e).
    assert (H0 : forallb (fun c => negb (publishes c)) (calls e0) = true).
    { unfold e0. destruct (audioContext e); exact H. }
    clearbody e0.
    destruct (bool_decide (key ∈ activeKeys e0) || notNote key); [exact H0|].
    destruct (audioReady e0); [|exact H0].
    destruct (NOTES key); destruct (suspended e0); simpl;
      rewrite ?forallb_app, H0; reflexivity.
  - unfold keyup, handleKeyUp. destruct (notNote key); [exact H|].
    destruct (audioContext e && bool_decide (is_Some (oscillators e !! key)));
      [|exact H].
    destruct (gains e !! key); [|exact H].
    simpl. rewrite forallb_app, H. reflexivity.
  - unfold handleFirstInteraction. destruct (audioContext e); exact H.
  - unfold elapse. apply silent_releases. exact H.
  - exfalso. apply (Hev spectrum). reflexivity.
  - exact H.
Qed.

Lemma silent_run evs :
  frameFree evs = true ->
  forall e, forallb (fun c => negb (publishes c)) (calls e) = true ->
            forallb (fun c => negb (publishes c)) (calls (run Plain evs e)) = true.
Proof.
  unfold run, frameFree. induction evs as [|ev evs IH]; intros Hfree e H0; simpl;
    [exact H0|].
  simpl in Hfree. apply andb_prop in Hfree. destruct Hfree as [Hev Hfree].
  apply (IH Hfree). apply silent_step; [|exact H0].
  intros spectrum ->. discriminate.
Qed.

(** X21. The Boosted revision starts with data.  Mounting creates the audio
    context, the frame loop is started, and a first snapshot is handed out
    before any event: the seed, 128 bytes, slot [i] holding the integer
    part of the number that [Math.random() * 50] evaluates to for it - a
    number of [0, 50) - and so a value between 0 and 49. *)
Theorem boosted_mount_publishes_seed (susp : bool) (rnd : nat -> Q) :
  (forall i, 0 <= rnd i /\ rnd i < 50)%Q ->
  let e := mount Boosted susp rnd in
  loopStarted Boosted susp rnd = true /\
  calls e = [OnAudioProcess (seedBuffer rnd)] /\
  dataArray e = Some (seedBuffer rnd) /\
  length (seedBuffer rnd) = 128 /\
  (forall i, i < 128 -> seedBuffer rnd !! i = Some (Qfloor (rnd i))) /\
  Forall (fun v => (0 <= v <= 49)%Z) (seedBuffer rnd).
Proof.
  intros Hrnd e.
  assert (Hfloor : forall i, toUint8 (rnd i) = Qfloor (rnd i) /\
                             (0 <= Qfloor (rnd i) <= 49)%Z).
  { intros i. destruct (Hrnd i) as [H0 H50].
    split; [apply toUint8_floor; lra|].
    pose proof (Qfloor_resp_le _ _ H0) as Hf0.
    change 0%Q with (inject_Z 0) in Hf0. rewrite Qfloor_Z in Hf0.
    pose proof (Qfloor_le (rnd i)) as Hle.
    assert (Hlt : (inject_Z (Qfloor (rnd i)) < inject_Z 50)%Q).
    { eapply Qle_lt_trans; [exact Hle|exact H50]. }
    rewrite <- Zlt_Qlt in Hlt. lia. }
  split; [reflexivity|]. split; [reflexivity|]. split; [reflexivity|].
  split; [apply length_seedBuffer|]. split.
  - intros i Hi. unfold seedBuffer. rewrite list_lookup_fmap.
    rewrite lookup_seq_lt by exact Hi. simpl. f_equal. apply Hfloor.
  - unfold seedBuffer. apply Forall_map, Forall_forall. intros i _.
    destruct (Hfloor i) as [-> H]. exact H.
Qed.

Lemma boosted_mount_publishes_seed_witness :
  seedBuffer (fun n => (inject_Z (Z.of_nat (n mod 100)) / 2)%Q) !! 71 = Some 35%Z /\
  Forall (fun v => (0 <= v <= 49)%Z)
    (seedBuffer (fun n => (inject_Z (Z.of_nat (n mod 100)) / 2)%Q)).
Proof.
  assert (Hrnd : (forall i, 0 <= inject_Z (Z.of_nat (i mod 100)) / 2 /\
                            inject_Z (Z.of_nat (i mod 100)) / 2 < 50)%Q).
  { intros n. pose proof (Nat.mod_upper_bound n 100) as Hm. split.
    - apply Qle_shift_div_l; [reflexivity|]. rewrite Qmult_0_l.
      change 0%Q with (inject_Z 0). rewrite <- Zle_Qle. lia.
    - apply Qlt_shift_div_r; [reflexivity|].
      change (50 * 2)%Q with (inject_Z 100). rewrite <- Zlt_Qlt. lia. }
  destruct (boosted_mount_publishes_seed false _ Hrnd) as [_ [_ [_ [_ [Hat Hall]]]]].
  split; [|exact Hall].
  rewrite Hat by lia. reflexivity.
Defined.

(** *** Resuming the context *)




(** *** The on-screen keyboard *)

Lemma keyboard_recognized (key : string) :
  In key keyboardKeys -> recognized key = true.
Proof.
  unfold keyboardKeys. simpl. intros H.
  repeat (destruct H as [<-|H]; [reflexivity|]). contradiction.
Qed.

(** X23. Every key of the on-screen keyboard plays.  In any reachable
    state, pressing the pointer on one of the nine keys - or the key
    itself - leaves the key drawn active with a registered oscillator that
    sounds and is tuned to the frequency the table lists for the key. *)
Theorem keyboard_key_plays
    (rev : revision) (susp : bool) (rnd : nat -> Q) (evs : list event)
    (key : string) :
  In key keyboardKeys ->
  let e' := onMouseDown rev key (run rev evs (mount rev susp rnd)) in
  highlighted key e' = true /\
  exists o hz t,
    oscillators e' !! key = Some o /\ o ∈ sounding (calls e') /\
    assoc key noteTable = Some hz /\
    In (FrequencySetValueAtTime o hz t) (calls e') /\ In (Start o) (calls e').
Proof.
  intros Hkey e'.
  pose proof (keyboard_recognized key Hkey) as Hrec.
  set (e := run rev evs (mount rev susp rnd)) in *.
  pose proof (coherent_reachable rev susp rnd evs) as Hc.
  pose proof (healthy_reachable rev susp rnd evs) as Hh.
  fold e in Hc, Hh.
  assert (Hc' : coherent rev e') by apply (coherent_step rev e (KeyDown key) Hc).
  assert (Hh' : healthy rev e') by apply (healthy_step rev e (KeyDown key) Hh).
  assert (Hact : key ∈ activeKeys e').
  { unfold e', onMouseDown, keydown. apply handleKeyDown_activates; [exact Hrec|].
    apply audioReady_after_first_interaction, Hc. }
  split; [apply bool_decide_eq_true_2, Hact|].
  destruct (proj2 (registered_active rev key e' Hc') Hact) as [o Hreg].
  destruct (hl_voice _ _ Hh' key o Hreg)
    as [_ [hz [t [Hhz [Hfreq [_ [_ [Hstart _]]]]]]]].
  exists o, hz, t. split; [exact Hreg|].
  split; [apply (coh_sound _ _ Hc'); exists key; exact Hreg|].
  split; [|split; assumption].
  unfold NOTES in Hhz. destruct (assoc key noteTable) as [hz'|].
  - injection Hhz as ->. reflexivity.
  - destruct (inherited key); discriminate.
Qed.

Lemma keyboard_key_plays_witness :
  highlighted "l" (onMouseDown Plain "l" (run Plain [] (mount Plain false (fun _ => 0%Q))))
  = true.
Proof.
  assert (Hkey : In "l"%string keyboardKeys) by (vm_compute; tauto).
  destruct (keyboard_key_plays Plain false (fun _ => 0%Q) [] "l" Hkey) as [Hlit _].
  exact Hlit.
Defined.

End AudioEngineProps.

(** ** The page *)

Module AppProps.
Import JS JSFacts AudioEngine AudioEngineProps App.

Example page_session :
  page [Receive [1; 2]%Z; Choose 2; Receive [3; 4]%Z] =
  {| analyserData := Some [3; 4]%Z; activeVisualizer := "wave" |}.
Proof. reflexivity. Qed.

Lemma offered (mode : string) :
  In mode (map fst visualizers) ->
  Visualizer.validMode mode = true /\ inherited mode = false /\
  exists i, i < 4 /\ selected i {| analyserData := None; activeVisualizer := mode |} = true /\
            forall j, selected j {| analyserData := None; activeVisualizer := mode |} = true ->
                      j = i.
Proof.
  simpl. intros H.
  repeat (destruct H as [<-|H];
          [split; [reflexivity|]; split; [reflexivity|];
           first [exists 0; split; [lia|]; split; [reflexivity|];
                  intros [|[|[|[|j]]]] Hj; (reflexivity || discriminate Hj)
                 |exists 1; split; [lia|]; split; [reflexivity|];
                  intros [|[|[|[|j]]]] Hj; (reflexivity || discriminate Hj)
                 |exists 2; split; [lia|]; split; [reflexivity|];
                  intros [|[|[|[|j]]]] Hj; (reflexivity || discriminate Hj)
                 |exists 3; split; [lia|]; split; [reflexivity|];
                  intros [|[|[|[|j]]]] Hj; (reflexivity || discriminate Hj)]|]).
  contradiction.
Qed.

Lemma act_offered (s : index) (a : action) :
  In (activeVisualizer s) (map fst visualizers) ->
  In (activeVisualizer (act s a)) (map fst visualizers).
Proof.
  intros H. destruct a as [i|d]; [|exact H].
  unfold act, onClick. destruct (visualizers !! i) as [[id label]|] eqn:E; [|exact H].
  simpl. apply (in_map fst visualizers (id, label)), list_elem_of_In.
  apply (list_elem_of_lookup_2 _ i). exact E.
Qed.

Lemma page_offered (acts : list action) :
  In (activeVisualizer (page acts)) (map fst visualizers).
Proof.
  unfold page.
  assert (H : In (activeVisualizer initial) (map fst visualizers)) by (simpl; tauto).
  revert H. generalize initial.
  induction acts as [|a acts IH]; intros s H; simpl; [exact H|].
  apply IH, act_offered, H.
Qed.

(** X24. Through the selector the mode is always one of the four.  After
    any sequence of button clicks and snapshots, starting from the page as
    it is first rendered, [activeVisualizer] is the id of exactly one
    button - the one drawn selected -, it is no inherited property name,
    and so [drawBars], whenever the dispatch reaches it, paints one bar per
    bin and is never cut short by the colour lookup. *)
Theorem selector_keeps_mode_valid (acts : list action) :
  let s := page acts in
  Visualizer.validMode (activeVisualizer s) = true /\
  inherited (activeVisualizer s) = false /\
  (exists i, i < 4 /\ selected i s = true /\ forall j, selected j s = true -> j = i) /\
  forall rev dims data,
  exists bars,
    Visualizer.drawBars rev (activeVisualizer s) dims data = Visualizer.Completed bars /\
    length bars = length data.
Proof.
  intros s. pose proof (page_offered acts) as H. fold s in H.
  destruct (offered _ H) as [Hvalid [Hinh Hsel]].
  split; [exact Hvalid|]. split; [exact Hinh|]. split.
  - destruct Hsel as [i [Hi [Hyes Honly]]]. exists i.
    split; [exact Hi|]. split; [exact Hyes|exact Honly].
  - intros rev dims data.
    destruct (VisualizerProps.schemeOrBars_cases (activeVisualizer s))
      as [[Hyes _]|[colors [Hs Hlen]]]; [congruence|].
    destruct (VisualizerProps.drawBars_completed rev _ dims colors data Hs Hlen)
      as [bars [Hrun Hh]].
    exists bars. split; [exact Hrun|]. exact (Forall2_length _ _ _ Hh).
Qed.

(** *** From the engine to the canvas *)

Lemma snapshots_app cs cs' : snapshots (cs ++ cs') = snapshots cs ++ snapshots cs'.
Proof. unfold snapshots. apply omap_app. Qed.

Lemma snapshots_quiet cs :
  forallb (fun c => negb (AudioEngine.publishes c)) cs = true -> snapshots cs = [].
Proof.
  induction cs as [|c cs IH]; simpl; [reflexivity|].
  intros H. apply andb_prop in H. destruct H as [Hc H].
  destruct c; try discriminate; apply IH, H.
Qed.

Lemma received_last (l : list (list Z)) :
  forall s, analyserData (foldl (fun s' d => handleAudioProcess d s') s l) =
            match last l with
            | Some d => Some d
            | None => analyserData s
            end.
Proof.
  induction l as [|d l IH] using rev_ind; intros s; [reflexivity|].
  rewrite foldl_app, last_snoc. reflexivity.
Qed.

Lemma received_mode cs s : activeVisualizer (received cs s) = activeVisualizer s.
Proof.
  unfold received. revert s.
  induction (snapshots cs) as [|d l IH]; intros s; simpl; [reflexivity|].
  rewrite IH. reflexivity.
Qed.

Lemma synced_quiet e e' cs :
  synced e -> dataArray e' = dataArray e -> calls e' = calls e ++ cs ->
  forallb (fun c => negb (publishes c)) cs = true -> synced e'.
Proof.
  unfold synced. intros H -> -> Hcs.
  rewrite snapshots_app, (snapshots_quiet cs Hcs), app_nil_r. exact H.
Qed.

Lemma synced_publish e' cs d :
  calls e' = cs ++ [OnAudioProcess d] -> dataArray e' = Some d -> synced e'.
Proof.
  unfold synced. intros -> ->. rewrite snapshots_app. apply last_snoc.
Qed.

Lemma synced_emit cs e :
  forallb (fun c => negb (publishes c)) cs = true -> synced e -> synced (emit cs e).
Proof. intros Hcs H. apply (synced_quiet e _ cs H); [reflexivity|reflexivity|exact Hcs]. Qed.

Lemma synced_same e e' :
  synced e -> dataArray e' = dataArray e -> calls e' = calls e -> synced e'.
Proof. unfold synced. intros H -> ->. exact H. Qed.

Lemma synced_handleFirstInteraction e :
  synced e -> synced (handleFirstInteraction Boosted e).
Proof.
  intros H. unfold handleFirstInteraction.
  destruct (audioContext e && suspended e); [|exact H].
  apply synced_emit; [reflexivity|exact H].
Qed.

Lemma synced_boostData hz e : synced e -> synced (boostData hz e).
Proof.
  intros H. unfold boostData. destruct (dataArray e) as [buf|]; [|exact H].
  apply (synced_publish _ (calls e) (boost hz buf)); reflexivity.
Qed.

Lemma synced_handleKeyDown key e :
  synced e -> synced (handleKeyDown Boosted key e).
Proof.
  intros H. unfold handleKeyDown.
  destruct (bool_decide (key ∈ activeKeys e) || notNote key); [exact H|].
  destruct (audioReady e); [|exact H].
  set (e1 := if suspended e then emit [Resume] e else e).
  assert (H1 : synced e1).
  { unfold e1. destruct (suspended e); [|exact H].
    apply synced_emit; [reflexivity|exact H]. }
  clearbody e1.
  assert (Halloc : synced (allocate 2 e1)) by (apply (synced_same e1); tauto).
  destruct (NOTES key) as [hz| |].
  - apply synced_boostData.
    apply (synced_same (emit (voiceCalls Boosted (nextNode e1) (S (nextNode e1)) hz
                                (now e1)) (allocate 2 e1))); [|reflexivity..].
    apply synced_emit; [reflexivity|exact Halloc].
  - apply synced_emit; [reflexivity|exact Halloc].
  - apply synced_emit; [reflexivity|exact Halloc].
Qed.

Lemma synced_handleKeyUp key e : synced e -> synced (handleKeyUp key e).
Proof.
  intros H. unfold handleKeyUp. destruct (notNote key); [exact H|].
  destruct (audioContext e && bool_decide (is_Some (oscillators e !! key)));
    [|exact H].
  destruct (gains e !! key) as [g|]; [|exact H].
  apply (synced_same (emit [GainLinearRampToValueAtTime g 0 (now e + rampMs)] e));
    [|reflexivity..].
  apply synced_emit; [reflexivity|exact H].
Qed.

Lemma synced_release key e : synced e -> synced (release key e).
Proof.
  intros H.
  apply (synced_quiet e _ (match oscillators e !! key with
                           | Some o => [Stop o]
                           | None => []
                           end) H).
  - unfold release. destruct (oscillators e !! key); reflexivity.
  - apply calls_release.
  - destruct (oscillators e !! key); reflexivity.
Qed.

Lemma synced_elapse ms e : synced e -> synced (elapse ms e).
Proof.
  intros H. unfold elapse.
  assert (H0 : synced (setClock (now e + ms)
                         (filter (fun p => ¬ p.1 <= now e + ms) (timers e)) e)).
  { apply (synced_same e); tauto. }
  revert H0. generalize (setClock (now e + ms)
                           (filter (fun p => ¬ p.1 <= now e + ms) (timers e)) e).
  induction (filter (fun p => p.1 <= now e + ms) (timers e)) as [|p due IH];
    intros e0 H0; simpl; [exact H0|].
  apply IH, synced_release, H0.
Qed.

Lemma synced_updateAnalyser rev spectrum e :
  synced e -> synced (updateAnalyser rev spectrum e).
Proof.
  intros H. unfold updateAnalyser. destruct (analyser e); [|exact H].
  destruct (dataArray e) as [buf|]; [|exact H].
  eapply (synced_publish _ (calls e)); reflexivity.
Qed.

Lemma synced_step e ev : synced e -> synced (step Boosted e ev).
Proof.
  intros H. destruct ev; cbn [step]; unfold keydown, keyup.
  - apply synced_handleKeyDown, synced_handleFirstInteraction, H.
  - apply synced_handleKeyUp, H.
  - apply synced_handleFirstInteraction, H.
  - apply synced_elapse, H.
  - apply synced_updateAnalyser, H.
  - apply (synced_same e); tauto.
Qed.

Lemma synced_reachable susp rnd evs :
  synced (run Boosted evs (mount Boosted susp rnd)).
Proof.
  assert (H : synced (mount Boosted susp rnd)) by reflexivity.
  revert H. generalize (mount Boosted susp rnd). unfold run.
  induction evs as [|ev evs IH]; intros e H; simpl; [exact H|].
  apply IH, synced_step, H.
Qed.

(** X25. In the Boosted revision the canvas always has the engine's current
    buffer to draw.  Whatever has happened since mounting, the snapshot the
    page holds - the last one handed to [handleAudioProcess] - is the
    contents of the engine's analysis buffer as it is now: 128 bytes, for
    which the Particles intensity is a number of [0, 1] in both revisions
    of the Visualizer; the mode of the page is untouched by the snapshots;
    and [draw] does not return early. *)
Theorem boosted_page_holds_current_buffer
    (susp : bool) (rnd : nat -> Q) (evs : list event) (s0 : index) :
  let e := run Boosted evs (mount Boosted susp rnd) in
  let s := received (calls e) s0 in
  exists d,
    analyserData s = Some d /\ dataArray e = Some d /\
    length d = 128 /\ Forall uint8 d /\
    (forall vrev, exists i, Visualizer.intensity vrev d = Num i /\ (0 <= i /\ i <= 1)%Q) /\
    activeVisualizer s = activeVisualizer s0 /\
    rendered s = Some (Visualizer.draw (activeVisualizer s0)).
Proof.
  intros e s.
  pose proof (coherent_reachable Boosted susp rnd evs) as Hc.
  pose proof (healthy_reachable Boosted susp rnd evs) as Hh.
  pose proof (synced_reachable susp rnd evs) as Hs.
  fold e in Hc, Hh, Hs.
  destruct (coh_data _ _ Hc (coh_boosted _ _ Hc eq_refl)) as [d [Hd Hlen]].
  destruct (hl_data _ _ Hh d Hd) as [_ Hall].
  assert (Hdata : analyserData s = Some d).
  { unfold s, received. rewrite received_last. unfold synced in Hs.
    rewrite Hs, Hd. reflexivity. }
  exists d. split; [exact Hdata|]. split; [exact Hd|]. split; [exact Hlen|].
  split; [exact Hall|]. split.
  - intros vrev. apply VisualizerProps.intensity_range; [|exact Hall].
    intros ->. discriminate Hlen.
  - split; [apply received_mode|].
    unfold rendered. rewrite Hdata. unfold s. rewrite received_mode. reflexivity.
Qed.

(** X26. In the Plain revision the canvas gets nothing to draw.  Nothing
    but an animation frame of the analyser loop hands a snapshot out, and
    the test that starts the loop, made once after mounting, finds no
    audio context.  So on every trace without frames - key presses,
    releases, clicks, time - [onAudioProcess] is never called, the page's
    [analyserData] stays null and [draw] returns before painting, although
    the voices are built and started. *)
Theorem plain_page_stays_blank
    (susp : bool) (rnd : nat -> Q) (evs : list event) :
  frameFree evs = true ->
  let e := run Plain evs (mount Plain susp rnd) in
  loopStarted Plain susp rnd = false /\
  (forall d, ~ In (OnAudioProcess d) (calls e)) /\
  analyserData (received (calls e) initial) = None /\
  rendered (received (calls e) initial) = None.
Proof.
  intros Hfree e.
  assert (H : forallb (fun c => negb (publishes c)) (calls e) = true).
  { apply (silent_run evs Hfree). reflexivity. }
  assert (Hdata : analyserData (received (calls e) initial) = None).
  { unfold received. rewrite (snapshots_quiet _ H). reflexivity. }
  split; [reflexivity|]. split.
  - intros d Hd. rewrite forallb_forall in H. specialize (H _ Hd). discriminate.
  - split; [exact Hdata|]. unfold rendered. rewrite Hdata. reflexivity.
Qed.

Lemma plain_page_stays_blank_witness :
  rendered (received (calls (run Plain [KeyDown "a"; Elapse 500; KeyUp "a"; Click]
                               (mount Plain false (fun _ => 0%Q)))) initial) = None /\
  0 ∈ sounding (calls (run Plain [KeyDown "a"; Elapse 500]
                         (mount Plain false (fun _ => 0%Q)))).
Proof.
  assert (Hfree : frameFree [KeyDown "a"; Elapse 500; KeyUp "a"; Click] = true)
    by reflexivity.
  destruct (plain_page_stays_blank false (fun _ => 0%Q)
              [KeyDown "a"; Elapse 500; KeyUp "a"; Click] Hfree)
    as [_ [_ [_ Hblank]]].
  split; [exact Hblank|].
  apply (bool_decide_unpack _). vm_compute. exact I.
Defined.

End AppProps.
